(** * leaf/db/mongodb: the client pool of [mongodb.go]

    A shallow embedding of the connection pool ([Client], [ClientHeap],
    [ConnectionContext]) and of the operations built on it, together with the
    properties of the pool: heap order on the use counts, the position
    back-pointers, failure paths, and the requests sent to the driver.

    Go pointers to [Client] are addresses into an explicit memory, so that the
    heap slice and the handles returned to callers alias the same objects.
    The MongoDB driver is an interface ([Driver]) over an abstract driver
    world; every call to it is also recorded in a trace.

    Layout: the model of the Go code; a reference driver to run it on; the
    vocabulary of the specification; then the facts, ending with the
    properties of the package and concrete runs. *)

From Stdlib Require Import ZArith List Lia Bool String.
From stdpp Require Import base option list gmap strings.

Local Open Scope string_scope.
Local Open Scope list_scope.
Local Open Scope Z_scope.
Local Set Warnings "-register-all".

(** * The model *)

(** ** Go machine integers ([int] is 64 bits wide on the supported targets) *)

Module GoInt.

Definition min_int : Z := - 2 ^ 63.

Definition max_int : Z := 2 ^ 63 - 1.

(** Two's complement wrap-around of an arithmetic result. *)
Definition wrap (z : Z) : Z := (z + 2 ^ 63) mod 2 ^ 64 - 2 ^ 63.

Definition is_int (z : Z) : Prop := min_int <= z <= max_int.

(** [a / b] on Go integers truncates towards zero. *)
Definition div (a b : Z) : Z := wrap (Z.quot a b).

End GoInt.

(** ** Outcome of running a piece of Go code

    [Panic] is a run-time panic (index out of range, nil dereference);
    [OutOfFuel] only arises from the bounded unrolling of loops and is shown
    below not to occur on a pool that satisfies its invariant ([Fix_spec],
    [Init_spec], [connect_loop_spec], [run_total]). *)

Inductive result (A : Type) : Type :=
| Ok (a : A)
| Panic
| OutOfFuel.

Arguments Ok {A} a.
Arguments Panic {A}.
Arguments OutOfFuel {A}.

#[global] Instance result_ret : MRet result := @Ok.

#[global] Instance result_bind : MBind result := fun A B f r =>
  match r with
  | Ok a => f a
  | Panic => Panic
  | OutOfFuel => OutOfFuel
  end.

(** ** Data model *)

(** [*mongo.Client]: the identity of a client object owned by the driver. *)
Abbreviation MongoClient := nat (only parsing).

(** A non-nil Go [error] value; Go's [error] is [option Err]. *)
Record Err := mkErr { code : Z; message : string }.

(** [type Client struct { *mongo.Client; ref int; index int }] *)
Record Client := mkClient {
  conn : MongoClient;
  ref : Z;
  index : Z
}.

(** A non-nil [*Client] is an address in the memory of [Client] objects. *)
Abbreviation ptr := nat (only parsing).

Abbreviation Mem := (list Client) (only parsing).

(** [type ClientHeap []*Client] *)
Abbreviation ClientHeap := (list ptr) (only parsing).

(** The receiver of the heap.Interface methods: the slice and the memory its
    elements point into. *)
Abbreviation HeapSt := (ClientHeap * Mem)%type (only parsing).

Definition set_ref (c : Client) (r : Z) : Client := mkClient (conn c) r (index c).

Definition set_index (c : Client) (i : Z) : Client := mkClient (conn c) (ref c) i.

Definition set_conn (c : Client) (m : MongoClient) : Client := mkClient m (ref c) (index c).

(** [l[i]] on a slice: panics when [i] is out of range. *)
Definition slice_at {A} (l : list A) (i : Z) : result A :=
  if (i <? 0) || (Z.of_nat (length l) <=? i) then Panic
  else match l !! Z.to_nat i with
       | Some a => Ok a
       | None => Panic
       end.

(** [*p] *)
Definition deref (m : Mem) (p : ptr) : result Client :=
  match m !! p with
  | Some c => Ok c
  | None => Panic
  end.

(** *** heap.Interface for [ClientHeap] (mongodb.go, lines 25-50) *)

Definition Len (h : HeapSt) : Z := Z.of_nat (length h.1).

Definition Less (h : HeapSt) (i j : Z) : result bool :=
  pi ← slice_at h.1 i;
  ci ← deref h.2 pi;
  pj ← slice_at h.1 j;
  cj ← deref h.2 pj;
  Ok (ref ci <? ref cj).

Definition Swap (h : HeapSt) (i j : Z) : result HeapSt :=
  let '(hp, m) := h in
  (* h[i], h[j] = h[j], h[i] *)
  pj ← slice_at hp j;
  pi ← slice_at hp i;
  let hp := <[Z.to_nat j := pi]> (<[Z.to_nat i := pj]> hp) in
  (* h[i].index = i *)
  p ← slice_at hp i;
  c ← deref m p;
  let m := <[p := set_index c i]> m in
  (* h[j].index = j *)
  p ← slice_at hp j;
  c ← deref m p;
  let m := <[p := set_index c j]> m in
  Ok (hp, m).

Definition Push (h : HeapSt) (s : ptr) : result HeapSt :=
  let '(hp, m) := h in
  c ← deref m s;
  let m := <[s := set_index c (Z.of_nat (length hp))]> m in
  Ok (hp ++ [s], m).

Definition Pop (h : HeapSt) : result (ptr * HeapSt) :=
  let '(hp, m) := h in
  let l := Z.of_nat (length hp) in
  s ← slice_at hp (l - 1);
  c ← deref m s;
  let m := <[s := set_index c (-1)]> m in
  Ok (s, (take (Z.to_nat (l - 1)) hp, m)).

(** *** container/heap (Go standard library), over the interface above *)

Module heap.

(** The loop of [up]; [fuel] bounds the number of iterations. *)
Fixpoint up_loop (fuel : nat) (h : HeapSt) (j : Z) : result HeapSt :=
  match fuel with
  | O => OutOfFuel
  | S fuel =>
      let i := GoInt.div (GoInt.wrap (j - 1)) 2 in (* parent *)
      if i =? j then Ok h
      else
        lt ← Less h j i;
        if negb lt then Ok h
        else
          h ← Swap h i j;
          up_loop fuel h i
  end.

Definition up (h : HeapSt) (j : Z) : result HeapSt :=
  up_loop (S (length h.1)) h j.

(** The loop of [down], from the current [i]; returns [i > i0] at exit. *)
Fixpoint down_loop (fuel : nat) (h : HeapSt) (i0 i n : Z) : result (HeapSt * bool) :=
  match fuel with
  | O => OutOfFuel
  | S fuel =>
      let j1 := GoInt.wrap (2 * i + 1) in
      if (n <=? j1) || (j1 <? 0) then Ok (h, i0 <? i) (* j1 < 0 after int overflow *)
      else
        let j2 := GoInt.wrap (j1 + 1) in
        lt21 ← (if j2 <? n then Less h j2 j1 else Ok false);
        let j := if (lt21 : bool) then j2 else j1 in (* the smaller child *)
        lt ← Less h j i;
        if negb lt then Ok (h, i0 <? i)
        else
          h ← Swap h i j;
          down_loop fuel h i0 j n
  end.

Definition down (h : HeapSt) (i0 n : Z) : result (HeapSt * bool) :=
  down_loop (S (length h.1)) h i0 i0 n.

(** [for i := n/2 - 1; i >= 0; i-- { down(h, i, n) }]; [k] bounds the
    number of iterations. *)
Fixpoint Init_loop (k : nat) (h : HeapSt) (i n : Z) : result HeapSt :=
  if 0 <=? i then
    match k with
    | O => OutOfFuel
    | S k =>
        '(h, _) ← down h i n;
        Init_loop k h (GoInt.wrap (i - 1)) n
    end
  else Ok h.

Definition Init (h : HeapSt) : result HeapSt :=
  let n := Len h in
  Init_loop (length h.1) h (GoInt.wrap (GoInt.div n 2 - 1)) n.

Definition Fix (h : HeapSt) (i : Z) : result HeapSt :=
  '(h, moved) ← down h i (Len h);
  if negb moved then up h i else Ok h.

End heap.

(** ** The MongoDB driver, as seen from the pool *)

(** BSON values, as far as this package builds them. *)
Inductive bval : Type :=
| BNull
| BString (s : string)
| BInt (z : Z)
| BDoc (d : list (string * bval)).

(** [bson.M]: a document given as a Go map literal; the keys of every literal
    below are distinct, and the entries are listed in source order. *)
Abbreviation bson_M := (list (string * bval)) (only parsing).

(** [bson.E] and [bson.D]: an ordered document. *)
Record bson_E := mkE { Key : string; Value : bval }.

Abbreviation bson_D := (list bson_E) (only parsing).

(** [options.ClientOptions], restricted to what the pool sets. Durations
    are in nanoseconds. *)
Record ClientOptions := mkClientOptions {
  URI : option string;
  ConnectTimeout : option Z;
  Timeout : option Z
}.

Definition options_Client : ClientOptions := mkClientOptions None None None.

Definition ApplyURI (url : string) (o : ClientOptions) : ClientOptions :=
  mkClientOptions (Some url) (ConnectTimeout o) (Timeout o).

Definition SetConnectTimeout (d : Z) (o : ClientOptions) : ClientOptions :=
  mkClientOptions (URI o) (Some d) (Timeout o).

Definition SetTimeout (d : Z) (o : ClientOptions) : ClientOptions :=
  mkClientOptions (URI o) (ConnectTimeout o) (Some d).

Definition time_Second : Z := 1000000000.

Definition time_Minute : Z := 60 * time_Second.

(** [options.Index()] and its setters. *)
Record IndexOptions := mkIndexOptions {
  Unique : option bool;
  Sparse : option bool
}.

Definition options_Index : IndexOptions := mkIndexOptions None None.

Definition SetUnique (u : bool) (o : IndexOptions) : IndexOptions :=
  mkIndexOptions (Some u) (Sparse o).

Definition SetSparse (s : bool) (o : IndexOptions) : IndexOptions :=
  mkIndexOptions (Unique o) (Some s).

(** [mongo.IndexModel] *)
Record IndexModel := mkIndexModel {
  Keys : bson_D;
  Options : IndexOptions
}.

(** [options.FindOneAndUpdate()] and [SetReturnDocument]. *)
Inductive ReturnDocument := Before | After.

Record FindOneAndUpdateOptions := mkFOAUOptions {
  ReturnDoc : option ReturnDocument
}.

Definition options_FindOneAndUpdate : FindOneAndUpdateOptions := mkFOAUOptions None.

Definition SetReturnDocument (rd : ReturnDocument) (o : FindOneAndUpdateOptions)
  : FindOneAndUpdateOptions := mkFOAUOptions (Some rd).

(** [*mongo.SingleResult]: the document found, or the error it carries. *)
Abbreviation SingleResult := (bson_M + Err)%type (only parsing).

(** The driver entry points the package calls. [W] is the state of
    everything behind the driver (open connections, the server's data).
    Every operation takes [context.Background()], which is left out.
    [InsertOne] and [Indexes_CreateOne] also return a value that every
    caller here discards; only their error is kept. *)
Class Driver (W : Type) := {
  mongo_Connect : ClientOptions -> W -> (MongoClient + Err) * W;
  Ping : MongoClient -> W -> option Err * W;
  Disconnect : MongoClient -> W -> option Err * W;
  InsertOne : MongoClient -> string -> string -> bson_M -> W -> option Err * W;
  FindOneAndUpdate :
    MongoClient -> string -> string -> bson_M -> bson_M ->
    FindOneAndUpdateOptions -> W -> SingleResult * W;
  Indexes_CreateOne :
    MongoClient -> string -> string -> IndexModel -> W -> option Err * W;
  IsDuplicateKeyError : option Err -> bool
}.

(** What the outside can observe of a run: the driver calls, in order, and
    the diagnostics written through leaf/log. *)
Inductive Event : Type :=
| EvConnect (o : ClientOptions)
| EvPing (m : MongoClient)
| EvDisconnect (m : MongoClient)
| EvInsertOne (m : MongoClient) (db collection : string) (doc : bson_M)
| EvFindOneAndUpdate (m : MongoClient) (db collection : string)
    (filter update : bson_M) (opts : FindOneAndUpdateOptions)
| EvCreateOne (m : MongoClient) (db collection : string) (model : IndexModel)
| EvLogRelease (format : string) (args : list Z)
| EvLogError (format : string) (args : list Z).

(** The machine: the memory of [Client] objects, the driver world and the
    trace so far. *)
Record Machine (W : Type) := mkMachine {
  mem : Mem;
  world : W;
  trace : list Event
}.

Arguments mkMachine {W} _ _ _.
Arguments mem {W} _.
Arguments world {W} _.
Arguments trace {W} _.

(** [type ConnectionContext struct { sync.Mutex; clients; clientOpts }].
    Each method below runs its critical section as one step, so the mutex
    has no state of its own in a sequential run. *)
Record ConnectionContext := mkCtx {
  clients : ClientHeap;
  clientOpts : ClientOptions
}.

(** [struct { Seq int `bson:"seq"` }] decoded from a [SingleResult]:
    an error result leaves the zero value. *)
Definition decode_error : Err := mkErr 0 "cannot decode seq into an int".

Fixpoint bson_lookup (k : string) (d : bson_M) : option bval :=
  match d with
  | [] => None
  | (k', v) :: d => if String.eqb k k' then Some v else bson_lookup k d
  end.

Definition Decode_seq (r : SingleResult) : Z * option Err :=
  match r with
  | inr e => (0, Some e)
  | inl doc =>
      match bson_lookup "seq" doc with
      | None => (0, None)
      | Some (BInt z) =>
          if (GoInt.min_int <=? z) && (z <=? GoInt.max_int) then (z, None)
          else (0, Some decode_error)
      | Some _ => (0, Some decode_error)
      end
  end.

Section Pool.

Context {W : Type} `{Driver W}.

Definition set_mem (m : Mem) (σ : Machine W) : Machine W :=
  mkMachine m (world σ) (trace σ).

Definition emit (e : Event) (σ : Machine W) : Machine W :=
  mkMachine (mem σ) (world σ) (trace σ ++ [e]).

(** A driver call: run it on the driver world and record it. *)
Definition call {A} (e : Event) (f : W -> A * W) (σ : Machine W) : A * Machine W :=
  let '(a, w) := f (world σ) in
  (a, mkMachine (mem σ) w (trace σ ++ [e])).

(** Modelled from the spec: the package leaf/log, which [log.Release] and
    [log.Error] belong to, is outside this directory; both write a
    diagnostic and return ("reported as a diagnostic (not a fatal error)"). *)
Definition log_Release (format : string) (args : list Z) (σ : Machine W) : Machine W :=
  emit (EvLogRelease format args) σ.

Definition log_Error (format : string) (args : list Z) (σ : Machine W) : Machine W :=
  emit (EvLogError format args) σ.

(** [&Client{...}]: a fresh object at a fresh address. *)
Definition alloc (c : Client) (σ : Machine W) : ptr * Machine W :=
  (length (mem σ), set_mem (mem σ ++ [c]) σ).

(** *** ConnectWithTimeout (lines 64-88) *)

(** [for i := 0; i < clientNum; i++ { ... }] *)
Fixpoint connect_loop (fuel : nat) (i clientNum : Z) (opts : ClientOptions)
    (hp : ClientHeap) (σ : Machine W) : result ((ClientHeap + Err) * Machine W) :=
  if i <? clientNum then
    match fuel with
    | O => OutOfFuel
    | S fuel =>
        let '(r, σ) := call (EvConnect opts) (mongo_Connect opts) σ in
        match r with
        | inr err => Ok (inr err, σ)
        | inl newClient =>
            let '(p, σ) := alloc (mkClient newClient 0 i) σ in
            connect_loop fuel (GoInt.wrap (i + 1)) clientNum opts (hp ++ [p]) σ
        end
    end
  else Ok (inl hp, σ).

Definition ConnectWithTimeout (url : string) (clientNum connectTimeout timeout : Z)
    (σ : Machine W) : result ((ConnectionContext + Err) * Machine W) :=
  let '(clientNum, σ) :=
    if clientNum <=? 0
    then (100, log_Release "invalid clientNum, reset to %v" [100] σ)
    else (clientNum, σ) in
  let opts := SetTimeout timeout (SetConnectTimeout connectTimeout
                (ApplyURI url options_Client)) in
  '(r, σ) ← connect_loop (Z.to_nat clientNum) 0 clientNum opts [] σ;
  match r with
  | inr err => Ok (inr err, σ)
  | inl hp =>
      '(hp, m) ← heap.Init (hp, mem σ);
      Ok (inl (mkCtx hp opts), set_mem m σ)
  end.

Definition Connect (url : string) (clientNum : Z) (σ : Machine W) :=
  ConnectWithTimeout url clientNum (10 * time_Second) (5 * time_Minute) σ.

(** *** Close (lines 91-100) *)

(** [for _, s := range c.clients { ... }] *)
Fixpoint Close_loop (l : list ptr) (σ : Machine W) : result (Machine W) :=
  match l with
  | [] => Ok σ
  | s :: l =>
      cl ← deref (mem σ) s;
      let '(_, σ) := call (EvDisconnect (conn cl)) (Disconnect (conn cl)) σ in
      cl ← deref (mem σ) s;
      let σ := if negb (ref cl =? 0)
               then log_Error "client ref = %v" [ref cl] σ
               else σ in
      Close_loop l σ
  end.

Definition Close (c : ConnectionContext) (σ : Machine W) : result (Machine W) :=
  Close_loop (clients c) σ.

(** *** Ref (lines 103-123) *)

Definition Ref (c : ConnectionContext) (σ : Machine W)
  : result ((ptr + Err) * ConnectionContext * Machine W) :=
  s ← slice_at (clients c) 0;
  cl ← deref (mem σ) s;
  '(failed, σ) ←
    (if ref cl =? 0 then
       let '(err, σ) := call (EvPing (conn cl)) (Ping (conn cl)) σ in
       match err with
       | Some _ =>
           let '(_, σ) := call (EvDisconnect (conn cl)) (Disconnect (conn cl)) σ in
           let '(r, σ) := call (EvConnect (clientOpts c)) (mongo_Connect (clientOpts c)) σ in
           match r with
           | inr err => Ok (Some err, σ)
           | inl newClient =>
               cl ← deref (mem σ) s;
               Ok (None, set_mem (<[s := set_conn cl newClient]> (mem σ)) σ)
           end
       | None => Ok (None, σ)
       end
     else Ok (None, σ));
  match failed with
  | Some err => Ok (inr err, c, σ)
  | None =>
      cl ← deref (mem σ) s;
      let m := <[s := set_ref cl (GoInt.wrap (ref cl + 1))]> (mem σ) in
      '(hp, m) ← heap.Fix (clients c, m) 0;
      Ok (inl s, mkCtx hp (clientOpts c), set_mem m σ)
  end.

(** *** UnRef (lines 126-135); [None] is the nil handle *)

Definition UnRef (c : ConnectionContext) (s : option ptr) (σ : Machine W)
  : result (ConnectionContext * Machine W) :=
  match s with
  | None => Ok (c, σ)
  | Some s =>
      cl ← deref (mem σ) s;
      let m := <[s := set_ref cl (GoInt.wrap (ref cl - 1))]> (mem σ) in
      cl ← deref m s;
      '(hp, m) ← heap.Fix (clients c, m) (index cl);
      Ok (mkCtx hp (clientOpts c), set_mem m σ)
  end.

(** *** EnsureCounter (lines 138-155); the deferred UnRef runs last *)

Definition EnsureCounter (c : ConnectionContext) (db collection id : string)
    (σ : Machine W) : result (option Err * ConnectionContext * Machine W) :=
  '(r, c, σ) ← Ref c σ;
  match r with
  | inr err => Ok (Some err, c, σ)
  | inl s =>
      cl ← deref (mem σ) s;
      let doc := [("_id", BString id); ("seq", BInt 0)] in
      let '(err, σ) :=
        call (EvInsertOne (conn cl) db collection doc)
             (InsertOne (conn cl) db collection doc) σ in
      let ret := if IsDuplicateKeyError err then None else err in
      '(c, σ) ← UnRef c (Some s) σ;
      Ok (ret, c, σ)
  end.

(** *** NextSeq (lines 158-176) *)

Definition NextSeq (c : ConnectionContext) (db collection id : string)
    (σ : Machine W) : result (Z * option Err * ConnectionContext * Machine W) :=
  '(r, c, σ) ← Ref c σ;
  match r with
  | inr err => Ok (0, Some err, c, σ)
  | inl s =>
      cl ← deref (mem σ) s;
      let filter := [("_id", BString id)] in
      let update := [("$inc", BDoc [("seq", BInt 1)])] in
      let opts := SetReturnDocument After options_FindOneAndUpdate in
      let '(sr, σ) :=
        call (EvFindOneAndUpdate (conn cl) db collection filter update opts)
             (FindOneAndUpdate (conn cl) db collection filter update opts) σ in
      let '(seq, err) := Decode_seq sr in
      '(c, σ) ← UnRef c (Some s) σ;
      Ok (seq, err, c, σ)
  end.

(** *** ensureIndex, EnsureIndex, EnsureUniqueIndex (lines 179-207) *)

(** [for i, k := range key { keysDoc[i] = bson.E{Key: k, Value: 1} }] *)
Fixpoint fill_keys (i : nat) (key : list string) (keysDoc : bson_D) : bson_D :=
  match key with
  | [] => keysDoc
  | k :: key => fill_keys (S i) key (<[i := mkE k (BInt 1)]> keysDoc)
  end.

Definition make_keysDoc (key : list string) : bson_D :=
  (* make(bson.D, len(key)) *)
  let keysDoc := replicate (length key) (mkE "" BNull) in
  fill_keys 0 key keysDoc.

Definition make_indexModel (key : list string) (unique : bool) : IndexModel :=
  mkIndexModel (make_keysDoc key) (SetSparse true (SetUnique unique options_Index)).

Definition ensureIndex (c : ConnectionContext) (db collection : string)
    (key : list string) (unique : bool) (σ : Machine W)
  : result (option Err * ConnectionContext * Machine W) :=
  '(r, c, σ) ← Ref c σ;
  match r with
  | inr err => Ok (Some err, c, σ)
  | inl s =>
      cl ← deref (mem σ) s;
      let indexModel := make_indexModel key unique in
      let '(err, σ) :=
        call (EvCreateOne (conn cl) db collection indexModel)
             (Indexes_CreateOne (conn cl) db collection indexModel) σ in
      '(c, σ) ← UnRef c (Some s) σ;
      Ok (err, c, σ)
  end.

Definition EnsureIndex c db collection key σ :=
  ensureIndex c db collection key false σ.

Definition EnsureUniqueIndex c db collection key σ :=
  ensureIndex c db collection key true σ.

End Pool.

(** ** The example program (example_test.go, lines 9-52) *)

(** [Collection.DeleteOne], which the example calls on the handle itself;
    the example discards its result. *)
Class Deleter (W : Type) :=
  DeleteOne : MongoClient -> string -> string -> bson_M -> W -> option Err * W.

(** A line written by [fmt.Println]: an error or an int. *)
Inductive Line : Type :=
| LineErr (e : Err)
| LineInt (v : Z).

Section ExampleProgram.

Context {W : Type} `{Driver W} `{Deleter W}.

(** [for i := 0; i < 3; i++ { ... }] with [k] iterations to go; the flag
    tells whether the loop ran to its end ([false]: it returned early). *)
Fixpoint Example_loop (k : nat) (c : ConnectionContext) (σ : Machine W)
    (out : list Line) : result (bool * ConnectionContext * Machine W * list Line) :=
  match k with
  | O => Ok (true, c, σ, out)
  | S k =>
      '(id, err, c, σ) ← NextSeq c "test" "counters" "test" σ;
      match err with
      | Some e => Ok (false, c, σ, out ++ [LineErr e])
      | None => Example_loop k c σ (out ++ [LineInt id])
      end
  end.

(** The statements after [defer c.UnRef(s)] (lines 24-46). *)
Definition Example_body (c : ConnectionContext) (s : ptr) (σ : Machine W)
  : result (ConnectionContext * Machine W * list Line) :=
  (* collRef := s.Database("test").Collection("counters") *)
  cl ← deref (mem σ) s;
  let '(_, w) := DeleteOne (conn cl) "test" "counters" [("_id", BString "test")]
                   (world σ) in
  let σ := mkMachine (mem σ) w (trace σ) in
  '(err, c, σ) ← EnsureCounter c "test" "counters" "test" σ;
  match err with
  | Some e => Ok (c, σ, [LineErr e])
  | None =>
      '(completed, c, σ, out) ← Example_loop 3 c σ [];
      if (completed : bool) then
        '(_, c, σ) ← EnsureUniqueIndex c "test" "counters" ["key1"] σ;
        Ok (c, σ, out)
      else Ok (c, σ, out)
  end.

(** [Example]: the machine it leaves and the lines it prints. The deferred
    calls run last in, first out: [c.UnRef(s)], then [c.Close()]. *)
Definition Example (σ : Machine W) : result (Machine W * list Line) :=
  '(r, σ) ← Connect "mongodb://localhost:27017" 10 σ;
  match r with
  | inr err => Ok (σ, [LineErr err])
  | inl c =>
      '(r, c, σ) ← Ref c σ;
      match r with
      | inr err => σ ← Close c σ; Ok (σ, [LineErr err])
      | inl s =>
          '(c, σ, out) ← Example_body c s σ;
          '(c, σ) ← UnRef c (Some s) σ;
          σ ← Close c σ;
          Ok (σ, out)
      end
  end.

End ExampleProgram.

(** * A reference driver

    An in-memory instance of [Driver], for running the package and for the
    properties that depend on what the store does with a request: [_id] is
    unique within a collection, [$inc] adds to a numeric field and
    [FindOneAndUpdate] with [After] returns the updated document, a filter
    that matches nothing yields [ErrNoDocuments]. The server accepts
    [capacity] more connections; clients in [lost] have no usable
    connection (dropped by the network, or disconnected). *)

Module MemDriver.

Record World := mkWorld {
  next_client : nat;
  capacity : nat;
  lost : list nat;
  docs : gmap (string * string * string) (list (string * bval));
  indexes : list (string * string * IndexModel)
}.

Definition ErrNoDocuments : Err := mkErr 0 "mongo: no documents in result".

Definition ErrClientDisconnected : Err := mkErr 0 "client is disconnected".

Definition err_server_selection : Err := mkErr 0 "server selection error".

Definition err_duplicate_key : Err := mkErr 11000 "E11000 duplicate key error".

Definition err_unsupported : Err := mkErr 2 "unsupported request".

Definition is_lost (mc : nat) (w : World) : bool := bool_decide (mc ∈ lost w).

Definition set_docs (d : gmap (string * string * string) (list (string * bval)))
    (w : World) : World :=
  mkWorld (next_client w) (capacity w) (lost w) d (indexes w).

Definition connect (o : ClientOptions) (w : World) : (nat + Err) * World :=
  match capacity w with
  | O => (inr err_server_selection, w)
  | S k =>
      (inl (next_client w),
       mkWorld (S (next_client w)) k (lost w) (docs w) (indexes w))
  end.

Definition ping (mc : nat) (w : World) : option Err * World :=
  if is_lost mc w then (Some ErrClientDisconnected, w) else (None, w).

Definition disconnect (mc : nat) (w : World) : option Err * World :=
  if is_lost mc w then (Some ErrClientDisconnected, w)
  else (None, mkWorld (next_client w) (capacity w) (mc :: lost w) (docs w) (indexes w)).

Definition insert_one (mc : nat) (db collection : string)
    (doc : list (string * bval)) (w : World) : option Err * World :=
  if is_lost mc w then (Some ErrClientDisconnected, w)
  else match bson_lookup "_id" doc with
       | Some (BString id) =>
           match docs w !! (db, collection, id) with
           | Some _ => (Some err_duplicate_key, w)
           | None => (None, set_docs (<[(db, collection, id) := doc]> (docs w)) w)
           end
       | _ => (Some err_unsupported, w)
       end.

(** [{$inc: {f: d}}] applied to a document. *)
Fixpoint inc_field (f : string) (d : Z) (doc : list (string * bval))
  : list (string * bval) :=
  match doc with
  | [] => [(f, BInt d)]
  | (k, v) :: doc =>
      if String.eqb f k
      then (k, match v with BInt z => BInt (z + d) | _ => v end) :: doc
      else (k, v) :: inc_field f d doc
  end.

Definition find_one_and_update (mc : nat) (db collection : string)
    (filter update : list (string * bval)) (opts : FindOneAndUpdateOptions)
    (w : World) : (list (string * bval) + Err) * World :=
  if is_lost mc w then (inr ErrClientDisconnected, w)
  else match bson_lookup "_id" filter, bson_lookup "$inc" update with
       | Some (BString id), Some (BDoc [(f, BInt d)]) =>
           match docs w !! (db, collection, id) with
           | None => (inr ErrNoDocuments, w)
           | Some doc =>
               let doc' := inc_field f d doc in
               (inl (match ReturnDoc opts with
                     | Some After => doc'
                     | _ => doc
                     end),
                set_docs (<[(db, collection, id) := doc']> (docs w)) w)
           end
       | _, _ => (inr err_unsupported, w)
       end.

Definition create_index (mc : nat) (db collection : string) (model : IndexModel)
    (w : World) : option Err * World :=
  if is_lost mc w then (Some ErrClientDisconnected, w)
  else (None, mkWorld (next_client w) (capacity w) (lost w) (docs w)
                (indexes w ++ [(db, collection, model)])).

Definition is_duplicate_key_error (e : option Err) : bool :=
  match e with
  | Some e => code e =? 11000
  | None => false
  end.

#[global] Instance driver : Driver World := {|
  mongo_Connect := connect;
  Ping := ping;
  Disconnect := disconnect;
  InsertOne := insert_one;
  FindOneAndUpdate := find_one_and_update;
  Indexes_CreateOne := create_index;
  IsDuplicateKeyError := is_duplicate_key_error
|}.

(** A server with room for [cap] connections and no data. *)
Definition empty_world (cap : nat) : World := mkWorld 0 cap [] ∅ [].

Definition boot (cap : nat) : Machine World := mkMachine [] (empty_world cap) [].

End MemDriver.

(** [DeleteOne] on the reference driver: removes the document with the
    [_id] of the filter, if there is one. *)
Module MemDelete.

Import MemDriver.

Definition delete_one (mc : nat) (db collection : string)
    (filter : list (string * bval)) (w : World) : option Err * World :=
  if is_lost mc w then (Some ErrClientDisconnected, w)
  else match bson_lookup "_id" filter with
       | Some (BString id) => (None, set_docs (delete (db, collection, id) (docs w)) w)
       | _ => (Some err_unsupported, w)
       end.

#[global] Instance deleter : Deleter World := delete_one.

End MemDelete.

(** * Specification vocabulary *)

(** ** Heap order on a table of keys

    The order arguments are carried out on the keys alone: [k x] is the key
    at position [x] and [n] the number of positions. *)

Module Order.

Definition parent (c : Z) : Z := (c - 1) / 2.

Definition swapf (k : Z -> Z) (i j : Z) : Z -> Z :=
  fun x => if x =? i then k j else if x =? j then k i else k x.

(** Every position carries a key no smaller than its parent's. *)
Definition ordered (k : Z -> Z) (n : Z) : Prop :=
  forall c, 0 < c < n -> k (parent c) <= k c.

(** Heap order everywhere except around position [i]: links that do not
    touch [i] hold, and the parent of [i] is below the children of [i].
    [up_ok] tells whether the link from [i] to its parent holds too. *)
Definition hole (k : Z -> Z) (n i : Z) (up_ok : bool) : Prop :=
  forall c, 0 < c < n ->
    (parent c <> i -> (c = i -> up_ok = true) -> k (parent c) <= k c) /\
    (parent c = i -> 0 < i -> k (parent i) <= k c).

(** The links from [i] to its children hold. *)
Definition below_ok (k : Z -> Z) (n i : Z) : Prop :=
  forall c, 0 < c < n -> parent c = i -> k i <= k c.

End Order.

(** ** The heap of clients *)

(** The use count read through position [x] of the slice (0 outside it). *)
Definition key (h : HeapSt) (x : Z) : Z :=
  match slice_at h.1 x with
  | Ok p => match h.2 !! p with
            | Some c => ref c
            | None => 0
            end
  | _ => 0
  end.

(** Every element of the slice points to a [Client]. *)
Definition ptrs_ok (h : HeapSt) : Prop :=
  forall p, p ∈ h.1 -> (p < length h.2)%nat.

(** The [index] field of every client in the slice is its slot. *)
Definition index_ok (h : HeapSt) : Prop :=
  forall (i : nat) p c, h.1 !! i = Some p -> h.2 !! p = Some c -> index c = Z.of_nat i.

(** Well-formed heap state: valid, pairwise distinct pointers, accurate back
    pointers, and a slice length that fits an [int]. *)
Definition wf (h : HeapSt) : Prop :=
  ptrs_ok h /\ NoDup h.1 /\ index_ok h /\ Len h <= GoInt.max_int.

(** Min-heap order on the use counts. *)
Definition heap_ordered (h : HeapSt) : Prop := Order.ordered (key h) (Len h).

(** Two clients that differ at most in their [index] field. *)
Definition same_but_index (c c' : Client) : Prop :=
  ref c' = ref c /\ conn c' = conn c.

(** Memory change that only rewrites [index] fields. *)
Definition frame (m m' : Mem) : Prop := Forall2 same_but_index m m'.

(** What a run of heap operations may do to a heap state. *)
Definition evolves (h h' : HeapSt) : Prop :=
  wf h' /\ h'.1 ≡ₚ h.1 /\ frame h.2 h'.2.

(** ** Calls on the pool, traces and memory readings *)

(** A call of one of the package's methods. *)
Inductive Call : Type :=
| CallRef
| CallUnRef (s : option ptr)
| CallEnsureCounter (db collection id : string)
| CallNextSeq (db collection id : string)
| CallEnsureIndex (db collection : string) (key : list string)
| CallEnsureUniqueIndex (db collection : string) (key : list string)
| CallClose.

(** The number of connections [ConnectWithTimeout] sets out to establish. *)
Definition pool_size (clientNum : Z) : Z := if clientNum <=? 0 then 100 else clientNum.

(** What [Close] writes to the trace for the client at [p]. *)
Definition close_events (m : Mem) (p : ptr) : list Event :=
  match m !! p with
  | Some cl =>
      EvDisconnect (conn cl) ::
      (if ref cl =? 0 then [] else [EvLogError "client ref = %v" [ref cl]])
  | None => []
  end.

(** Classes of events. *)
Definition is_disconnect (e : Event) : bool :=
  match e with EvDisconnect _ => true | _ => false end.

Definition is_log_error (e : Event) : bool :=
  match e with EvLogError _ _ => true | _ => false end.

Definition is_ping (e : Event) : bool :=
  match e with EvPing _ => true | _ => false end.

Definition is_connect (e : Event) : bool :=
  match e with EvConnect _ => true | _ => false end.

(** Use count and stored index of the client at [p] (0 for a dangling [p]). *)
Definition ref_of (m : Mem) (p : ptr) : Z :=
  match m !! p with Some c => ref c | None => 0 end.

Definition index_of (m : Mem) (p : ptr) : Z :=
  match m !! p with Some c => index c | None => 0 end.

(** Connection held by the client at [p]. *)
Definition conn_of (m : Mem) (p : ptr) : MongoClient :=
  match m !! p with Some c => conn c | None => O end.

(** The slice under construction: [i] idle clients, each at its own slot. *)
Definition fresh_inv (i : Z) (hp : list nat) (m : Mem) : Prop :=
  wf (hp, m) /\ Z.of_nat (length hp) = i /\
  forall p c, p ∈ hp -> m !! p = Some c -> ref c = 0.

(** ** The pool *)

Section PoolSpec.

Context {W : Type} `{Driver W}.

(** The pool invariant: a non-empty, well-formed, ordered heap. *)
Definition pool_ok (c : ConnectionContext) (σ : Machine W) : Prop :=
  wf (clients c, mem σ) /\ heap_ordered (clients c, mem σ) /\ 0 < Len (clients c, mem σ).

(** The liveness probe of [Ref] (lines 108-118) on the driver world alone:
    the driver calls made, the world they leave, and either the connection
    the client ends up with or the error of a failed reconnect. *)
Definition refresh (c : ConnectionContext) (cl : Client) (w : W)
  : list Event * W * (MongoClient + Err) :=
  if ref cl =? 0 then
    match Ping (conn cl) w with
    | (None, w) => ([EvPing (conn cl)], w, inl (conn cl))
    | (Some _, w) =>
        let w := (Disconnect (conn cl) w).2 in
        match mongo_Connect (clientOpts c) w with
        | (r, w) =>
            ([EvPing (conn cl); EvDisconnect (conn cl); EvConnect (clientOpts c)], w, r)
        end
    end
  else ([], w, inl (conn cl)).

(** [Ref], seen as the probe followed by the increment and [heap.Fix]. *)
Definition Ref_flat (c : ConnectionContext) (s : ptr) (cl : Client) (σ : Machine W)
  : result ((ptr + Err) * ConnectionContext * Machine W) :=
  let '(evs, w, r) := refresh c cl (world σ) in
  match r with
  | inr err => Ok (inr err, c, mkMachine (mem σ) w (trace σ ++ evs))
  | inl mc =>
      let cl' := mkClient mc (GoInt.wrap (ref cl + 1)) (index cl) in
      '(hp, m) ← heap.Fix (clients c, <[s := cl']> (mem σ)) 0;
      Ok (inl s, mkCtx hp (clientOpts c), mkMachine m w (trace σ ++ evs))
  end.

(** One call, keeping only the pool and the machine it leaves. *)
Definition step (k : Call) (c : ConnectionContext) (σ : Machine W)
  : result (ConnectionContext * Machine W) :=
  match k with
  | CallRef => '(_, c, σ) ← Ref c σ; Ok (c, σ)
  | CallUnRef s => UnRef c s σ
  | CallEnsureCounter db collection id =>
      '(_, c, σ) ← EnsureCounter c db collection id σ; Ok (c, σ)
  | CallNextSeq db collection id =>
      '(_, _, c, σ) ← NextSeq c db collection id σ; Ok (c, σ)
  | CallEnsureIndex db collection key =>
      '(_, c, σ) ← EnsureIndex c db collection key σ; Ok (c, σ)
  | CallEnsureUniqueIndex db collection key =>
      '(_, c, σ) ← EnsureUniqueIndex c db collection key σ; Ok (c, σ)
  | CallClose => σ ← Close c σ; Ok (c, σ)
  end.

(** A sequence of calls; the run stops at the first panic. *)
Fixpoint run (ks : list Call) (c : ConnectionContext) (σ : Machine W)
  : result (ConnectionContext * Machine W) :=
  match ks with
  | [] => Ok (c, σ)
  | k :: ks => '(c, σ) ← step k c σ; run ks c σ
  end.

(** [n] successive [mongo.Connect] calls, stopping at the first failure:
    the clients obtained, the error if any, and the world left behind. *)
Fixpoint dial (n : nat) (opts : ClientOptions) (w : W)
  : list MongoClient * option Err * W :=
  match n with
  | O => ([], None, w)
  | S n =>
      match mongo_Connect opts w with
      | (inr err, w) => ([], Some err, w)
      | (inl mc, w) =>
          let '(l, e, w) := dial n opts w in (mc :: l, e, w)
      end
  end.

(** What the deferred [UnRef] of the handle [s] leaves behind. *)
Definition released (s : ptr) (c1 : ConnectionContext) (m1 : Mem)
    (c' : ConnectionContext) (σ' : Machine W) : Prop :=
  pool_ok c' σ' /\ clients c' ≡ₚ clients c1 /\ clientOpts c' = clientOpts c1 /\
  (forall q, ref_of (mem σ') q =
     if decide (q = s) then GoInt.wrap (ref_of m1 s - 1) else ref_of m1 q) /\
  (forall q, conn_of (mem σ') q = conn_of m1 q).

(** A release is matched when the client it names has a positive use count
    at the time of the call (an acquire of it is still outstanding). *)
Definition matched_call (k : Call) (σ : Machine W) : Prop :=
  match k with
  | CallUnRef (Some p) => 0 < ref_of (mem σ) p
  | _ => True
  end.

(** A release that names a client of the pool (or nil). *)
Definition pool_handle (c : ConnectionContext) (k : Call) : Prop :=
  match k with
  | CallUnRef (Some p) => p ∈ clients c
  | _ => True
  end.

(** Every release along the run of [ks] from [(c, σ)] is matched. *)
Fixpoint matched (ks : list Call) (c : ConnectionContext) (σ : Machine W) : Prop :=
  match ks with
  | [] => True
  | k :: ks =>
      matched_call k σ /\
      forall c1 σ1, step k c σ = Ok (c1, σ1) -> matched ks c1 σ1
  end.

(** Every client of the pool has a use count between 0 and [B]. *)
Definition refs_bounded (B : Z) (c : ConnectionContext) (σ : Machine W) : Prop :=
  forall q, q ∈ clients c -> 0 <= ref_of (mem σ) q <= B.

End PoolSpec.

(** On the reference driver: every client of the pool holds a usable
    connection. *)
Definition healthy (c : ConnectionContext) (σ : Machine MemDriver.World) : Prop :=
  pool_ok c σ /\
  forall p, p ∈ clients c -> conn_of (mem σ) p ∉ MemDriver.lost (world σ).

(** On the reference driver: the counter [(db, collection, id)] exists with
    [seq = v]. *)
Definition counter_at (w : MemDriver.World) (db collection id : string) (v : Z)
  : Prop :=
  exists doc, MemDriver.docs w !! (db, collection, id) = Some doc /\
              bson_lookup "seq" doc = Some (BInt v).

(** ** Construction, borrowing and the example *)

(** The [Client] objects [ConnectWithTimeout] allocates for the driver
    clients [mcs], the first one with index [i]. *)
Fixpoint new_clients (i : Z) (mcs : list nat) : list Client :=
  match mcs with
  | [] => []
  | mc :: mcs => mkClient mc 0 i :: new_clients (i + 1) mcs
  end.

(** The call that failed, if any. *)
Definition failed_calls (e : option Err) : nat :=
  match e with Some _ => 1%nat | None => 0%nat end.

(** The diagnostic written for a non-positive [clientNum]. *)
Definition size_warning (clientNum : Z) : list Event :=
  if clientNum <=? 0 then [EvLogRelease "invalid clientNum, reset to %v" [100]] else [].

Section BorrowSpec.

Context {W : Type} `{Driver W}.

(** What the three derived operations do to the pool: a [Ref], and when it
    succeeds the deferred [UnRef] of the same handle, with only driver calls
    in between. *)
Definition borrowed (c : ConnectionContext) (σ : Machine W)
    (c' : ConnectionContext) (σ' : Machine W) : Prop :=
  exists r c1 σ1, Ref c σ = Ok (r, c1, σ1) /\
    match r with
    | inr _ => c' = c1 /\ σ' = σ1
    | inl s => exists w tr, UnRef c1 (Some s) (mkMachine (mem σ1) w tr) = Ok (c', σ')
    end.

(** The pool methods other than [UnRef]. *)
Definition acquire_only (k : Call) : Prop :=
  match k with
  | CallUnRef _ => False
  | _ => True
  end.

(** All use counts of the pool are [lo] or [lo + 1]. *)
Definition spread_one (lo : Z) (c : ConnectionContext) (σ : Machine W) : Prop :=
  forall q, q ∈ clients c -> lo <= ref_of (mem σ) q <= lo + 1.

End BorrowSpec.

Section ExampleSpec.

Context {W : Type} `{Driver W}.

(** While the example holds its handle [s]: the pool is in order, holds the
    clients [cs], and [s] is the only client whose use count differs from
    the one it has in [m0]. *)
Definition holding (s : ptr) (cs : list ptr) (m0 : Mem)
    (c : ConnectionContext) (σ : Machine W) : Prop :=
  pool_ok c σ /\ clients c ≡ₚ cs /\
  forall q, ref_of (mem σ) q = if decide (q = s) then 1 else ref_of m0 q.

End ExampleSpec.

(** The lines the loop of the example prints from a counter at [v]. *)
Definition id_lines (v : Z) (k : nat) : list Line :=
  map (fun i => LineInt (v + Z.of_nat i)) (seq 1 k).

(** * Facts about machine integers *)

Module GoIntFacts.

Import GoInt.

Lemma wrap_id z : is_int z -> wrap z = z.
Proof.
  unfold is_int, min_int, max_int, wrap. intros H.
  rewrite Z.mod_small; lia.
Qed.

Lemma wrap_is_int z : is_int (wrap z).
Proof.
  unfold is_int, min_int, max_int, wrap.
  pose proof (Z.mod_pos_bound (z + 2 ^ 63) (2 ^ 64)). lia.
Qed.

Lemma wrap_over z : max_int < z <= 2 * max_int + 1 -> wrap z = z - 2 ^ 64.
Proof.
  unfold max_int, wrap. intros H.
  replace (z + 2 ^ 63) with ((z - 2 ^ 63) + 1 * 2 ^ 64) by lia.
  rewrite Z.mod_add by lia. rewrite Z.mod_small; lia.
Qed.

End GoIntFacts.

(** * Facts about heap order *)

Module OrderFacts.

Import Order.

Lemma swapf_l k i j : swapf k i j i = k j.
Proof. unfold swapf. by rewrite Z.eqb_refl. Qed.

Lemma swapf_r k i j : swapf k i j j = k i.
Proof.
  unfold swapf. destruct (Z.eqb_spec j i) as [->|]; [done|].
  by rewrite Z.eqb_refl.
Qed.

Lemma swapf_o k i j x : x <> i -> x <> j -> swapf k i j x = k x.
Proof.
  intros Hi Hj. unfold swapf.
  destruct (Z.eqb_spec x i); [done|]. by destruct (Z.eqb_spec x j).
Qed.

Ltac parith := unfold parent in *; Z.div_mod_to_equations; lia.

Lemma parent_lt c : 0 < c -> 0 <= parent c < c.
Proof. intros. parith. Qed.

Lemma parent_child c i : 0 <= i -> parent c = i <-> (c = 2 * i + 1 \/ c = 2 * i + 2).
Proof. intros. parith. Qed.

Lemma ordered_hole k n i b : ordered k n -> hole k n i b /\ below_ok k n i.
Proof.
  intros Ho. split.
  - intros c Hc. split.
    + intros _ _. by apply Ho.
    + intros Hp Hi. transitivity (k i).
      * apply Ho. subst i. pose proof (parent_lt c). lia.
      * rewrite <- Hp. by apply Ho.
  - intros c Hc <-. by apply Ho.
Qed.

Lemma hole_ordered k n i : hole k n i true -> below_ok k n i -> ordered k n.
Proof.
  intros Hh Hb c Hc. destruct (decide (parent c = i)) as [Hp|Hp].
  - rewrite Hp. by apply Hb.
  - by apply (Hh c Hc).
Qed.

Lemma hole_up_stop k n j b :
  hole k n j b -> below_ok k n j -> (j <= 0 \/ n <= j \/ k (parent j) <= k j) ->
  ordered k n.
Proof.
  intros Hh Hb Hj c Hc. destruct (decide (parent c = j)) as [Hp|Hp].
  - rewrite Hp. by apply Hb.
  - destruct (decide (c = j)) as [->|Hcj].
    + destruct Hj as [?|[?|?]]; [lia|lia|done].
    + apply (Hh c Hc); [done|]. intros ?. done.
Qed.

(** Only the key at [i] differs between [k] and [k']. *)
Lemma ordered_touch k k' n i :
  ordered k n -> (forall x, x <> i -> k' x = k x) -> hole k' n i false.
Proof.
  intros Ho Hk c Hc. split.
  - intros Hp Hci. destruct (decide (c = i)) as [->|Hne].
    + by specialize (Hci eq_refl).
    + rewrite !Hk by done. by apply Ho.
  - intros Hp Hi.
    assert (c <> i) by (pose proof (parent_lt c); lia).
    assert (parent i <> i) by (pose proof (parent_lt i); lia).
    rewrite !Hk by done. transitivity (k i).
    + apply Ho. pose proof (parent_lt c). lia.
    + rewrite <- Hp. by apply Ho.
Qed.

(** One iteration of [down] that swaps [i] with its smaller child [j]. *)
Lemma hole_down_step k n i j b :
  hole k n i b -> 0 <= i -> j < n -> parent j = i -> 0 < j ->
  k j < k i ->
  (forall c, 0 < c < n -> parent c = i -> k j <= k c) ->
  hole (swapf k i j) n j true.
Proof.
  intros Hh Hi Hjn Hpj Hj Hlt Hmin c Hc.
  assert (i < j) by (pose proof (parent_lt j); lia).
  split.
  - intros Hp _. destruct (decide (c = j)) as [->|Hcj].
    + rewrite Hpj, swapf_l, swapf_r. lia.
    + destruct (decide (c = i)) as [->|Hci].
      * rewrite swapf_l.
        assert (parent i <> i) by (pose proof (parent_lt i); lia).
        rewrite swapf_o by done.
        apply (Hh j); [lia|done|lia].
      * rewrite (swapf_o _ _ _ c) by done.
        destruct (decide (parent c = i)) as [Hpi|Hpi].
        -- rewrite Hpi, swapf_l. by apply Hmin.
        -- rewrite swapf_o by done. apply (Hh c Hc); [done|]. intros ?. done.
  - intros Hp _.
    assert (j < c) by (pose proof (parent_lt c); lia).
    rewrite Hpj, swapf_l, swapf_o by lia.
    pose proof (proj1 (Hh c Hc)) as Hx. rewrite Hp in Hx.
    apply Hx; [lia|]. intros ?. lia.
Qed.

(** One iteration of [up] that swaps [j] with its parent [i]. *)
Lemma hole_up_step k n j b :
  hole k n j b -> below_ok k n j -> 0 < j < n ->
  k j < k (parent j) ->
  hole (swapf k (parent j) j) n (parent j) false /\
  below_ok (swapf k (parent j) j) n (parent j).
Proof.
  intros Hh Hb Hj Hlt. set (i := parent j) in *.
  assert (0 <= i < j) by (apply parent_lt; lia).
  assert (Hlink : forall c, 0 < c < n -> c <> j -> k (parent c) <= k c).
  { intros c Hc Hcj. destruct (decide (parent c = j)) as [Hp|Hp].
    - rewrite Hp. by apply Hb.
    - apply (Hh c Hc); [done|]. intros ?. done. }
  split.
  - intros c Hc. split.
    + intros Hp Hci. destruct (decide (c = i)) as [->|Hne].
      { by specialize (Hci eq_refl). }
      assert (c <> j) by (intros ->; by apply Hp).
      rewrite (swapf_o _ _ _ c) by done.
      destruct (decide (parent c = j)) as [Hpj|Hpj].
      * rewrite Hpj, swapf_r. apply (Hh c Hc); [done|lia].
      * rewrite swapf_o by done. by apply Hlink.
    + intros Hp Hi.
      assert (parent i < i) by (pose proof (parent_lt i); lia).
      rewrite swapf_o by lia.
      destruct (decide (c = j)) as [->|Hcj].
      * rewrite swapf_r. apply Hlink; lia.
      * assert (i < c) by (pose proof (parent_lt c); lia).
        rewrite swapf_o by lia.
        transitivity (k i); [apply Hlink; lia|].
        rewrite <- Hp. by apply Hlink.
  - intros c Hc Hp. rewrite swapf_l.
    destruct (decide (c = j)) as [->|Hcj].
    + rewrite swapf_r. lia.
    + assert (i < c) by (pose proof (parent_lt c); lia).
      rewrite swapf_o by lia. transitivity (k i); [lia|].
      rewrite <- Hp. by apply Hlink.
Qed.

Lemma hole_ext k k' n i b :
  (forall x, k' x = k x) -> hole k n i b -> hole k' n i b.
Proof. intros He Hh c Hc. rewrite !He. by apply Hh. Qed.

Lemma below_ok_ext k k' n i :
  (forall x, k' x = k x) -> below_ok k n i -> below_ok k' n i.
Proof. intros He Hb c Hc Hp. rewrite !He. by apply Hb. Qed.

Lemma ordered_ext k k' n :
  (forall x, k' x = k x) -> ordered k n -> ordered k' n.
Proof. intros He Ho c Hc. rewrite !He. by apply Ho. Qed.

(** The root of an ordered table carries a least key. *)
Lemma ordered_root_min k n c : ordered k n -> 0 <= c < n -> k 0 <= k c.
Proof.
  intros Ho [H0 Hn]. revert Hn. generalize H0. pattern c.
  apply Z_lt_induction; [|done].
  intros x IH Hx0 Hx. destruct (decide (x = 0)) as [->|Hne]; [lia|].
  pose proof (parent_lt x ltac:(lia)).
  transitivity (k (parent x)); [apply IH; lia|apply Ho; lia].
Qed.

End OrderFacts.

(** * The heap of clients *)

Lemma frame_refl m : frame m m.
Proof. apply Forall2_same_length_lookup_2; [done|]. intros i c c' ? ?. by simplify_eq. Qed.

Lemma frame_trans m1 m2 m3 : frame m1 m2 -> frame m2 m3 -> frame m1 m3.
Proof.
  intros H1 H2. eapply Forall2_trans; [|done..].
  intros a b c [? ?] [? ?]. split; congruence.
Qed.

Lemma frame_length m m' : frame m m' -> length m' = length m.
Proof. intros Hf. symmetry. by eapply Forall2_length. Qed.

Lemma frame_lookup m m' p c :
  frame m m' -> m !! p = Some c ->
  exists c', m' !! p = Some c' /\ ref c' = ref c /\ conn c' = conn c.
Proof.
  intros Hf Hp. destruct (Forall2_lookup_l _ _ _ _ _ Hf Hp) as (c' & ? & ? & ?).
  by exists c'.
Qed.

Lemma frame_lookup_r m m' p c' :
  frame m m' -> m' !! p = Some c' ->
  exists c, m !! p = Some c /\ ref c' = ref c /\ conn c' = conn c.
Proof.
  intros Hf Hp. destruct (Forall2_lookup_r _ _ _ _ _ Hf Hp) as (c & ? & ? & ?).
  by exists c.
Qed.

Lemma frame_set_index m p c i :
  m !! p = Some c -> frame m (<[p := set_index c i]> m).
Proof.
  intros Hp. apply Forall2_same_length_lookup_2; [by rewrite length_insert|].
  intros q a a' Ha Ha'. destruct (decide (p = q)) as [->|Hne].
  - rewrite list_lookup_insert_eq in Ha' by (by eapply lookup_lt_Some).
    by simplify_eq.
  - rewrite list_lookup_insert_ne in Ha' by done. by simplify_eq.
Qed.

Lemma evolves_refl h : wf h -> evolves h h.
Proof. intros. split; [done|]. split; [done|apply frame_refl]. Qed.

Lemma evolves_trans h1 h2 h3 : evolves h1 h2 -> evolves h2 h3 -> evolves h1 h3.
Proof.
  intros (_ & Hp1 & Hf1) (Hw & Hp2 & Hf2). split; [done|]. split.
  - by rewrite Hp2.
  - by eapply frame_trans.
Qed.

Lemma evolves_Len h h' : evolves h h' -> Len h' = Len h.
Proof. intros (_ & Hp & _). unfold Len. by rewrite Hp. Qed.

Lemma slice_at_Ok {A} (l : list A) (i : Z) (a : A) :
  slice_at l i = Ok a <-> 0 <= i < Z.of_nat (length l) /\ l !! Z.to_nat i = Some a.
Proof.
  unfold slice_at.
  destruct (Z.ltb_spec i 0); simpl; [split; [done|lia]|].
  destruct (Z.leb_spec (Z.of_nat (length l)) i); simpl; [split; [done|lia]|].
  destruct (l !! Z.to_nat i) eqn:E; split.
  - intros [= ->]. split; [lia|done].
  - intros [_ [= ->]]. done.
  - done.
  - intros [_ ?]. done.
Qed.

Lemma slice_at_in {A} (l : list A) (i : Z) :
  0 <= i < Z.of_nat (length l) ->
  exists a, l !! Z.to_nat i = Some a /\ slice_at l i = Ok a.
Proof.
  intros Hi. destruct (lookup_lt_is_Some_2 l (Z.to_nat i)) as [a Ha]; [lia|].
  exists a. split; [done|]. by apply slice_at_Ok.
Qed.

Lemma slice_at_out {A} (l : list A) (i : Z) :
  ~ (0 <= i < Z.of_nat (length l)) -> slice_at l i = Panic.
Proof.
  intros Hi. unfold slice_at.
  destruct (Z.ltb_spec i 0); simpl; [done|].
  destruct (Z.leb_spec (Z.of_nat (length l)) i); simpl; [done|lia].
Qed.

Lemma key_in hp m (i : Z) p c :
  0 <= i -> hp !! Z.to_nat i = Some p -> m !! p = Some c -> key (hp, m) i = ref c.
Proof.
  intros Hi Hp Hc. unfold key. simpl.
  assert (slice_at hp i = Ok p) as ->.
  { apply slice_at_Ok. split; [|done]. apply lookup_lt_Some in Hp. lia. }
  by rewrite Hc.
Qed.

Lemma key_out h (i : Z) : ~ (0 <= i < Len h) -> key h i = 0.
Proof. intros Hi. unfold key. by rewrite slice_at_out. Qed.

Lemma Less_spec h i j :
  ptrs_ok h -> 0 <= i < Len h -> 0 <= j < Len h ->
  Less h i j = Ok (key h i <? key h j).
Proof.
  destruct h as [hp m]. unfold Len. simpl. intros Hv Hi Hj.
  destruct (slice_at_in hp i Hi) as (p & Hp & Hsp).
  destruct (slice_at_in hp j Hj) as (q & Hq & Hsq).
  destruct (lookup_lt_is_Some_2 m p) as [cp Hcp].
  { apply Hv. simpl. by eapply list_elem_of_lookup_2. }
  destruct (lookup_lt_is_Some_2 m q) as [cq Hcq].
  { apply Hv. simpl. by eapply list_elem_of_lookup_2. }
  unfold Less, deref. simpl. rewrite Hsp. simpl. rewrite Hcp. simpl.
  rewrite Hsq. simpl. rewrite Hcq. simpl.
  by rewrite (key_in hp m i p cp), (key_in hp m j q cq) by (done || lia).
Qed.

Lemma key_frame hp m m' x : frame m m' -> key (hp, m') x = key (hp, m) x.
Proof.
  intros Hf. unfold key. simpl. destruct (slice_at hp x) as [p| |]; [|done..].
  destruct (m !! p) as [c|] eqn:E.
  - destruct (frame_lookup _ _ _ _ Hf E) as (c' & -> & ? & _). done.
  - destruct (m' !! p) as [c'|] eqn:E'; [|done].
    destruct (frame_lookup_r _ _ _ _ Hf E') as (c & ? & _). congruence.
Qed.

(** Exchanging two slots of a slice. *)
Section Exchange.

Context {A : Type} (l : list A) (a b : nat) (x y : A).

Hypothesis Ha : l !! a = Some x.

Hypothesis Hb : l !! b = Some y.

Let l' := <[b := x]> (<[a := y]> l).

Lemma exchange_lookup (i : nat) :
  l' !! i = if decide (i = b) then Some x
            else if decide (i = a) then Some y else l !! i.
Proof using Ha Hb.
  unfold l'. pose proof (lookup_lt_Some _ _ _ Ha). pose proof (lookup_lt_Some _ _ _ Hb).
  destruct (decide (i = b)) as [->|Hib].
  - rewrite list_lookup_insert_eq; [done|]. by rewrite length_insert.
  - rewrite list_lookup_insert_ne by done.
    destruct (decide (i = a)) as [->|Hia].
    + by rewrite list_lookup_insert_eq.
    + by rewrite list_lookup_insert_ne.
Qed.

Lemma exchange_length : length l' = length l.
Proof. unfold l'. by rewrite !length_insert. Qed.

Lemma exchange_elem_of (z : A) : z ∈ l' <-> z ∈ l.
Proof using Ha Hb.
  rewrite !list_elem_of_lookup. split.
  - intros [i Hi]. rewrite exchange_lookup in Hi.
    repeat case_decide; simplify_eq; eauto.
  - intros [i Hi]. destruct (decide (i = a)) as [->|Hia].
    + exists b. rewrite exchange_lookup. rewrite decide_True by done. congruence.
    + destruct (decide (i = b)) as [->|Hib].
      * destruct (decide (a = b)) as [->|Hab]; [done|].
        exists a. rewrite exchange_lookup.
        rewrite decide_False, decide_True by done. congruence.
      * exists i. rewrite exchange_lookup. by rewrite !decide_False.
Qed.

Lemma exchange_NoDup : NoDup l -> NoDup l'.
Proof using Ha Hb.
  rewrite !NoDup_alt. intros Hnd i j z Hi Hj.
  rewrite exchange_lookup in Hi, Hj.
  repeat case_decide; simplify_eq; eauto.
  all: exfalso;
    match goal with
    | Hk : l !! ?k = Some _ , Hne : ?k ≠ a |- _ =>
        first [ apply Hne, (Hnd _ _ _ Hk Ha)
              | match goal with Hne' : k ≠ b |- _ => apply Hne', (Hnd _ _ _ Hk Hb) end ]
    end.
Qed.

Lemma exchange_Permutation : NoDup l -> l' ≡ₚ l.
Proof using Ha Hb.
  intros Hnd. apply NoDup_Permutation; [by apply exchange_NoDup|done|].
  apply exchange_elem_of.
Qed.

End Exchange.

Lemma Swap_spec h i j :
  wf h -> 0 <= i < Len h -> 0 <= j < Len h ->
  exists h', Swap h i j = Ok h' /\ evolves h h' /\
             forall x, key h' x = Order.swapf (key h) i j x.
Proof.
  destruct h as [hp m]. unfold Len. simpl.
  intros (Hv & Hnd & Hix & Hlen) Hi Hj. simpl in *.
  destruct (slice_at_in hp i Hi) as (pi & Hpi & Hsi).
  destruct (slice_at_in hp j Hj) as (pj & Hpj & Hsj).
  set (a := Z.to_nat i) in *. set (b := Z.to_nat j) in *.
  set (hp' := <[b := pi]> (<[a := pj]> hp)).
  assert (Hlk : forall x, hp' !! x =
            if decide (x = b) then Some pi
            else if decide (x = a) then Some pj else hp !! x)
    by (intros x; by apply exchange_lookup).
  assert (Hlen' : length hp' = length hp) by apply exchange_length.
  assert (Hperm : hp' ≡ₚ hp) by (by apply exchange_Permutation).
  assert (Hab : a = b -> pi = pj) by (intros Hab; rewrite Hab in Hpi; congruence).
  assert (Hba : pi = pj -> a = b).
  { intros ->. by apply (proj1 (NoDup_alt hp) Hnd a b pj). }
  assert (Hsi' : slice_at hp' i = Ok pj).
  { apply slice_at_Ok. split; [lia|]. fold a. rewrite Hlk.
    destruct (decide (a = b)) as [Heq|]; [by rewrite (Hab Heq)|].
    by rewrite decide_True. }
  assert (Hsj' : slice_at hp' j = Ok pi).
  { apply slice_at_Ok. split; [lia|]. fold b. rewrite Hlk. by rewrite decide_True. }
  destruct (lookup_lt_is_Some_2 m pj) as [cj Hcj].
  { apply Hv. simpl. by eapply list_elem_of_lookup_2. }
  set (m1 := <[pj := set_index cj i]> m).
  assert (Hf1 : frame m m1) by (by apply frame_set_index).
  destruct (lookup_lt_is_Some_2 m1 pi) as [ci Hci].
  { rewrite (frame_length _ _ Hf1). apply Hv. simpl. by eapply list_elem_of_lookup_2. }
  set (m2 := <[pi := set_index ci j]> m1).
  assert (Hf2 : frame m1 m2) by (by apply frame_set_index).
  assert (Hf : frame m m2) by (by eapply frame_trans).
  exists (hp', m2). split; [|split].
  - unfold Swap, deref. rewrite Hsj. simpl. rewrite Hsi. simpl.
    fold a b hp'. rewrite Hsi'. simpl. rewrite Hcj. simpl. fold m1.
    rewrite Hsj'. simpl. rewrite Hci. simpl. done.
  - split; [|split; [done|done]]. split; [|split; [|split]]; simpl.
    + intros p Hp. simpl in Hp. rewrite Hperm in Hp.
      change (p < length m2)%nat.
      rewrite (frame_length _ _ Hf). by apply Hv.
    + by rewrite Hperm.
    + intros x p c Hx Hc. simpl in Hx, Hc. rewrite Hlk in Hx.
      pose proof (lookup_lt_Some _ _ _ Hci) as Hlti.
      destruct (decide (x = b)) as [->|Hxb].
      * simplify_eq. unfold m2 in Hc. rewrite list_lookup_insert_eq in Hc by done.
        simplify_eq. simpl. unfold b. lia.
      * destruct (decide (x = a)) as [->|Hxa].
        -- simplify_eq. assert (pi <> p) by (intros ?; apply Hxb; by apply Hba).
           unfold m2 in Hc. rewrite list_lookup_insert_ne in Hc by done.
           unfold m1 in Hc. rewrite list_lookup_insert_eq in Hc
             by (by eapply lookup_lt_Some).
           simplify_eq. simpl. unfold a. lia.
        -- assert (pi <> p).
           { intros ->. apply Hxa. by apply (proj1 (NoDup_alt hp) Hnd x a p). }
           assert (pj <> p).
           { intros ->. apply Hxb. by apply (proj1 (NoDup_alt hp) Hnd x b p). }
           unfold m2 in Hc. rewrite list_lookup_insert_ne in Hc by done.
           unfold m1 in Hc. rewrite list_lookup_insert_ne in Hc by done.
           by eapply Hix.
    + unfold Len. simpl. by rewrite Hlen'.
  - intros x. rewrite (key_frame hp' m m2) by done.
    destruct (decide (0 <= x < Z.of_nat (length hp))) as [Hx|Hx].
    2:{ rewrite OrderFacts.swapf_o by lia.
        rewrite !key_out; [done|by unfold Len|unfold Len; simpl; by rewrite Hlen']. }
    destruct (frame_lookup_r _ _ _ _ Hf1 Hci) as (ci0 & Hci0 & _).
    destruct (decide (x = j)) as [->|Hxj].
    + rewrite OrderFacts.swapf_r.
      rewrite (key_in hp' m j pi ci0), (key_in hp m i pi ci0); try done; try lia.
      fold b. rewrite Hlk. by rewrite decide_True.
    + destruct (decide (x = i)) as [->|Hxi].
      * rewrite OrderFacts.swapf_l.
        rewrite (key_in hp' m i pj cj), (key_in hp m j pj cj); try done; try lia.
        fold a. rewrite Hlk. rewrite decide_False, decide_True; [done|done|].
        unfold a, b. lia.
      * rewrite OrderFacts.swapf_o by done.
        unfold key. simpl.
        destruct (slice_at_in hp x Hx) as (p & Hp & ->).
        assert (slice_at hp' x = Ok p) as ->; [|done].
        apply slice_at_Ok. split; [lia|]. rewrite Hlk.
        rewrite !decide_False; [done|unfold a; lia|unfold b; lia].
Qed.

(** ** container/heap restores the order *)

Lemma down_stop h i0 i :
  wf h -> i0 <= i ->
  Order.hole (key h) (Len h) i (i0 <? i) -> Order.below_ok (key h) (Len h) i ->
  evolves h h /\
  (((i0 <? i) = true /\ heap_ordered h) \/
   ((i0 <? i) = false /\ h = h /\ Order.below_ok (key h) (Len h) i0)).
Proof.
  intros Hw Hi Hh Hb. split; [by apply evolves_refl|].
  destruct (Z.ltb_spec i0 i) as [Hlt|Hge].
  - left. split; [done|]. by eapply OrderFacts.hole_ordered.
  - right. assert (i = i0) as -> by lia. done.
Qed.

Lemma down_loop_spec fuel : forall h i0 i,
  wf h -> 0 <= i0 <= i -> i < Len h -> (Z.to_nat (Len h - i) <= fuel)%nat ->
  Order.hole (key h) (Len h) i (i0 <? i) ->
  exists h' b, heap.down_loop fuel h i0 i (Len h) = Ok (h', b) /\
    evolves h h' /\
    ((b = true /\ heap_ordered h') \/
     (b = false /\ i = i0 /\ h' = h /\ Order.below_ok (key h) (Len h) i0)).
Proof.
  induction fuel as [|fuel IH]; intros h i0 i Hw Hi Hn Hfuel Hh; [lia|].
  pose proof Hw as (Hv & _ & _ & Hlen).
  assert (Hstop : Order.below_ok (key h) (Len h) i ->
    exists h' b, Ok (h, i0 <? i) = Ok (h', b) /\ evolves h h' /\
      ((b = true /\ heap_ordered h') \/
       (b = false /\ i = i0 /\ h' = h /\ Order.below_ok (key h) (Len h) i0))).
  { intros Hb. exists h, (i0 <? i). split; [done|].
    destruct (down_stop h i0 i Hw ltac:(lia) Hh Hb) as [He [[Ht Ho]|[Hf [_ Hb0]]]].
    - split; [done|]. by left.
    - split; [done|]. right. apply Z.ltb_ge in Hf. repeat split; try done; lia. }
  simpl.
  destruct (decide (2 * i + 1 <= GoInt.max_int)) as [Hfit|Hover].
  2:{ (* 2*i+1 overflows: j1 is negative *)
    rewrite GoIntFacts.wrap_over by (unfold GoInt.max_int in *; lia).
    assert (((Len h <=? 2 * i + 1 - 2 ^ 64) || (2 * i + 1 - 2 ^ 64 <? 0)) = true) as ->.
    { apply orb_true_iff. right. apply Z.ltb_lt. unfold GoInt.max_int in *. lia. }
    apply Hstop. intros c Hc Hp. apply OrderFacts.parent_child in Hp; lia. }
  rewrite (GoIntFacts.wrap_id (2 * i + 1))
    by (unfold GoInt.is_int, GoInt.min_int, GoInt.max_int in *; lia).
  destruct (Z.leb_spec (Len h) (2 * i + 1)) as [Hout|Hin]; simpl.
  { apply Hstop. intros c Hc Hp. apply OrderFacts.parent_child in Hp; lia. }
  destruct (Z.ltb_spec (2 * i + 1) 0) as [?|_]; [lia|].
  rewrite (GoIntFacts.wrap_id (2 * i + 1 + 1))
    by (unfold GoInt.is_int, GoInt.min_int, GoInt.max_int in *; lia).
  (* the smaller child *)
  assert (exists lt21 : bool,
    (if 2 * i + 1 + 1 <? Len h then Less h (2 * i + 1 + 1) (2 * i + 1) else Ok false)
      = Ok lt21 /\
    let j := if lt21 then 2 * i + 1 + 1 else 2 * i + 1 in
    0 < j < Len h /\ Order.parent j = i /\
    forall c, 0 < c < Len h -> Order.parent c = i -> key h j <= key h c)
    as (lt21 & -> & Hj & Hpj & Hmin).
  { destruct (Z.ltb_spec (2 * i + 1 + 1) (Len h)) as [H2|H2].
    - rewrite Less_spec by (done || lia). eexists. split; [done|].
      destruct (Z.ltb_spec (key h (2 * i + 1 + 1)) (key h (2 * i + 1))) as [Hlt|Hge];
        simpl; (split; [lia|]); (split; [apply OrderFacts.parent_child; lia|]);
        intros c Hc Hp; apply OrderFacts.parent_child in Hp; try lia;
        destruct Hp as [->| ->];
        replace (2 * i + 2) with (2 * i + 1 + 1) by lia; lia.
    - exists false. split; [done|]. simpl. split; [lia|].
      split; [apply OrderFacts.parent_child; lia|].
      intros c Hc Hp. apply OrderFacts.parent_child in Hp; [|lia].
      destruct Hp as [->| ->]; lia. }
  simpl in *. set (j := if lt21 then 2 * i + 1 + 1 else 2 * i + 1) in *.
  rewrite Less_spec by (done || lia). simpl.
  destruct (Z.ltb_spec (key h j) (key h i)) as [Hlt|Hge]; simpl.
  2:{ apply Hstop. intros c Hc Hp. specialize (Hmin c Hc Hp). lia. }
  destruct (Swap_spec h i j Hw ltac:(lia) ltac:(lia)) as (h1 & -> & Hev & Hkey).
  simpl. pose proof (evolves_Len _ _ Hev) as HL. rewrite <- HL.
  assert (i < j) by (pose proof (OrderFacts.parent_lt j); lia).
  destruct (IH h1 i0 j) as (h' & b & -> & Hev' & Hpost).
  - by destruct Hev.
  - lia.
  - lia.
  - lia.
  - rewrite HL. assert ((i0 <? j) = true) as -> by (apply Z.ltb_lt; lia).
    eapply OrderFacts.hole_ext; [exact Hkey|].
    eapply OrderFacts.hole_down_step; eauto; lia.
  - exists h', b. split; [done|]. split; [by eapply evolves_trans|].
    destruct Hpost as [?|(_ & ? & _)]; [by left|lia].
Qed.

Lemma up_loop_spec fuel : forall h j,
  wf h -> 0 <= j < Len h -> (Z.to_nat j < fuel)%nat ->
  Order.hole (key h) (Len h) j false -> Order.below_ok (key h) (Len h) j ->
  exists h', heap.up_loop fuel h j = Ok h' /\ evolves h h' /\ heap_ordered h'.
Proof.
  induction fuel as [|fuel IH]; intros h j Hw Hj Hfuel Hh Hb; [lia|].
  pose proof Hw as (Hv & _ & _ & Hlen).
  simpl. unfold GoInt.div.
  rewrite (GoIntFacts.wrap_id (j - 1))
    by (unfold GoInt.is_int, GoInt.min_int, GoInt.max_int in *; lia).
  destruct (decide (j = 0)) as [->|Hj0].
  { (* the root is its own parent *)
    change (GoInt.wrap (Z.quot (0 - 1) 2) =? 0) with true. simpl.
    exists h. split; [done|]. split; [by apply evolves_refl|].
    eapply OrderFacts.hole_up_stop; [exact Hh|exact Hb|lia]. }
  assert (Hq : Z.quot (j - 1) 2 = Order.parent j).
  { unfold Order.parent. apply Z.quot_div_nonneg; lia. }
  pose proof (OrderFacts.parent_lt j ltac:(lia)) as Hpar.
  rewrite Hq. rewrite GoIntFacts.wrap_id
    by (unfold GoInt.is_int, GoInt.min_int, GoInt.max_int in *; lia).
  destruct (Z.eqb_spec (Order.parent j) j) as [?|_]; [lia|].
  rewrite Less_spec by (done || lia). simpl.
  destruct (Z.ltb_spec (key h j) (key h (Order.parent j))) as [Hlt|Hge]; simpl.
  2:{ exists h. split; [done|]. split; [by apply evolves_refl|].
      eapply OrderFacts.hole_up_stop; [exact Hh|exact Hb|right; right; lia]. }
  destruct (Swap_spec h (Order.parent j) j Hw ltac:(lia) ltac:(lia))
    as (h1 & -> & Hev & Hkey).
  simpl. pose proof (evolves_Len _ _ Hev) as HL.
  destruct (OrderFacts.hole_up_step _ _ _ _ Hh Hb ltac:(lia) Hlt) as [Hh1 Hb1].
  destruct (IH h1 (Order.parent j)) as (h' & -> & Hev' & Ho).
  - by destruct Hev.
  - lia.
  - lia.
  - rewrite HL. by eapply OrderFacts.hole_ext.
  - rewrite HL. by eapply OrderFacts.below_ok_ext.
  - exists h'. split; [done|]. split; [by eapply evolves_trans|done].
Qed.

(** [heap.Fix] at a slot whose key was the only one to change. *)
Lemma Fix_spec h i :
  wf h -> 0 <= i < Len h -> Order.hole (key h) (Len h) i false ->
  exists h', heap.Fix h i = Ok h' /\ evolves h h' /\ heap_ordered h'.
Proof.
  intros Hw Hi Hh. unfold heap.Fix, heap.down.
  destruct (down_loop_spec (S (length h.1)) h i i Hw ltac:(lia) ltac:(lia))
    as (h1 & b & -> & Hev & Hpost).
  - unfold Len in *. lia.
  - by rewrite Z.ltb_irrefl.
  - simpl. destruct Hpost as [[-> Ho]|(-> & _ & -> & Hb)]; simpl.
    + by exists h1.
    + unfold heap.up. apply up_loop_spec; try done. unfold Len in *. lia.
Qed.

Lemma Less_Ok_inv h i j b :
  Less h i j = Ok b -> 0 <= i < Len h /\ 0 <= j < Len h.
Proof.
  unfold Less, Len. intros HL.
  destruct (slice_at h.1 i) as [p| |] eqn:Ei; [|done..].
  apply slice_at_Ok in Ei. simpl in HL.
  destruct (deref h.2 p) as [c| |]; [|done..]. simpl in HL.
  destruct (slice_at h.1 j) as [q| |] eqn:Ej; [|done..].
  apply slice_at_Ok in Ej. lia.
Qed.

(** [heap.Fix] at a position outside the slice either panics or changes
    nothing. *)
Lemma Fix_outside h i h' :
  ~ (0 <= i < Len h) -> heap.Fix h i = Ok h' -> h' = h.
Proof.
  intros Hi. unfold heap.Fix, heap.down, heap.up. simpl.
  set (j1 := GoInt.wrap (2 * i + 1)).
  destruct ((Len h <=? j1) || (j1 <? 0)).
  2:{ intros HF. exfalso.
      destruct (if GoInt.wrap (j1 + 1) <? Len h then _ else _) as [lt21| |];
        simpl in HF; [|done..].
      destruct (Less h _ i) as [lt| |] eqn:EL; simpl in HF; [|done..].
      apply Less_Ok_inv in EL. lia. }
  simpl. rewrite Z.ltb_irrefl. simpl.
  destruct (GoInt.div (GoInt.wrap (i - 1)) 2 =? i); [by intros [= ->]|].
  destruct (Less h i _) as [lt| |] eqn:EL; simpl; [|done..].
  apply Less_Ok_inv in EL. lia.
Qed.

Lemma Init_loop_spec k : forall h i,
  wf h -> heap_ordered h -> -1 <= i < Len h -> (Z.to_nat (i + 1) <= k)%nat ->
  exists h', heap.Init_loop k h i (Len h) = Ok h' /\ evolves h h' /\ heap_ordered h'.
Proof.
  induction k as [|k IH]; intros h i Hw Ho Hi Hk.
  - assert (i = -1) as -> by lia. exists h. split; [done|].
    split; [by apply evolves_refl|done].
  - simpl. destruct (Z.leb_spec 0 i) as [H0|H0].
    2:{ exists h. split; [done|]. split; [by apply evolves_refl|done]. }
    pose proof Hw as (_ & _ & _ & Hlen).
    unfold heap.down.
    destruct (down_loop_spec (S (length h.1)) h i i Hw ltac:(lia) ltac:(lia))
      as (h1 & b & -> & Hev & Hpost).
    + unfold Len in *. lia.
    + rewrite Z.ltb_irrefl. by apply OrderFacts.ordered_hole.
    + simpl. pose proof (evolves_Len _ _ Hev) as HL.
      assert (Ho1 : heap_ordered h1).
      { destruct Hpost as [[_ ?]|(_ & _ & -> & _)]; done. }
      rewrite GoIntFacts.wrap_id
        by (unfold GoInt.is_int, GoInt.min_int, GoInt.max_int in *; lia).
      rewrite <- HL.
      destruct (IH h1 (i - 1)) as (h' & -> & Hev' & Ho'); try done.
      * by destruct Hev.
      * lia.
      * lia.
      * exists h'. split; [done|]. split; [by eapply evolves_trans|done].
Qed.

Lemma Init_spec h :
  wf h -> heap_ordered h ->
  exists h', heap.Init h = Ok h' /\ evolves h h' /\ heap_ordered h'.
Proof.
  intros Hw Ho. unfold heap.Init. pose proof Hw as (_ & _ & _ & Hlen).
  assert (0 <= Len h) by (unfold Len; lia).
  assert (Hq : GoInt.wrap (GoInt.div (Len h) 2 - 1) = Len h / 2 - 1).
  { unfold GoInt.div. rewrite Z.quot_div_nonneg by lia.
    assert (0 <= Len h / 2 <= Len h) by (Z.div_mod_to_equations; lia).
    rewrite (GoIntFacts.wrap_id (Len h / 2))
      by (unfold GoInt.is_int, GoInt.min_int, GoInt.max_int in *; lia).
    rewrite GoIntFacts.wrap_id; [done|].
    unfold GoInt.is_int, GoInt.min_int, GoInt.max_int in *; lia. }
  rewrite Hq. apply Init_loop_spec; try done.
  - Z.div_mod_to_equations; lia.
  - unfold Len in *. Z.div_mod_to_equations; lia.
Qed.

(** ** Changing one client in memory *)

Lemma wf_update hp m p cl c' :
  m !! p = Some cl -> index c' = index cl -> wf (hp, m) -> wf (hp, <[p := c']> m).
Proof.
  intros Hp Hi (Hv & Hnd & Hix & Hlen). split; [|split; [|split]]; simpl in *.
  - intros q Hq. simpl. rewrite length_insert. by apply Hv.
  - done.
  - intros i q c Hq Hc. simpl in *. destruct (decide (p = q)) as [->|Hne].
    + rewrite list_lookup_insert_eq in Hc by (by eapply lookup_lt_Some).
      simplify_eq. rewrite Hi. by eapply Hix.
    + rewrite list_lookup_insert_ne in Hc by done. by eapply Hix.
  - done.
Qed.

Lemma key_update hp m p c' x :
  (forall q, 0 <= x -> hp !! Z.to_nat x = Some q -> q = p ->
             exists cl, m !! p = Some cl /\ ref c' = ref cl) ->
  key (hp, <[p := c']> m) x = key (hp, m) x.
Proof.
  intros Hq. unfold key. simpl. destruct (slice_at hp x) as [q| |] eqn:E; [|done..].
  apply slice_at_Ok in E as [Hx Hl].
  destruct (decide (q = p)) as [->|Hne].
  - destruct (Hq p ltac:(lia) Hl eq_refl) as (cl & Hcl & Hr).
    rewrite list_lookup_insert_eq by (by eapply lookup_lt_Some). by rewrite Hcl.
  - by rewrite list_lookup_insert_ne.
Qed.

(** A change of the [ref] of one client, followed by [heap.Fix] at the index
    the client records: whenever the call returns, the heap is well formed
    and ordered again, and only [index] fields were rewritten. *)
Lemma Fix_touch hp m p cl r h' :
  wf (hp, m) -> heap_ordered (hp, m) -> m !! p = Some cl ->
  heap.Fix (hp, <[p := set_ref cl r]> m) (index cl) = Ok h' ->
  evolves (hp, <[p := set_ref cl r]> m) h' /\ heap_ordered h'.
Proof.
  intros Hw Ho Hp HF.
  set (m' := <[p := set_ref cl r]> m) in *.
  assert (Hw' : wf (hp, m')) by (by eapply wf_update).
  pose proof Hw as (Hv & Hnd & Hix & Hlen). simpl in *.
  assert (HL : Len (hp, m') = Len (hp, m)) by done.
  assert (Hk : forall x, x <> index cl -> key (hp, m') x = key (hp, m) x).
  { intros x Hx. apply key_update. intros q H0 Hq ->. exfalso.
    apply Hx. rewrite (Hix _ _ _ Hq Hp). lia. }
  destruct (decide (0 <= index cl < Len (hp, m'))) as [Hin|Hout].
  - destruct (Fix_spec (hp, m') (index cl) Hw' Hin) as (h'' & HF' & Hev & Ho').
    + rewrite HL. by eapply OrderFacts.ordered_touch.
    + rewrite HF in HF'. by simplify_eq.
  - apply Fix_outside in HF; [|done]. subst h'.
    split; [by apply evolves_refl|].
    unfold heap_ordered. rewrite HL. eapply OrderFacts.ordered_ext; [|exact Ho].
    intros x. destruct (decide (x = index cl)) as [->|Hne]; [|by apply Hk].
    by rewrite !key_out.
Qed.

(** When the client is in the heap, the call does return. *)
Lemma Fix_touch_total hp m p cl r :
  wf (hp, m) -> heap_ordered (hp, m) -> m !! p = Some cl -> p ∈ hp ->
  exists h', heap.Fix (hp, <[p := set_ref cl r]> m) (index cl) = Ok h'.
Proof.
  intros Hw Ho Hp Hin.
  set (m' := <[p := set_ref cl r]> m) in *.
  assert (Hw' : wf (hp, m')) by (by eapply wf_update).
  pose proof Hw as (Hv & Hnd & Hix & Hlen). simpl in *.
  apply list_elem_of_lookup_1 in Hin as [i Hi].
  pose proof (Hix _ _ _ Hi Hp) as Hidx. simpl in Hidx.
  pose proof (lookup_lt_Some _ _ _ Hi) as Hlt.
  destruct (Fix_spec (hp, m') (index cl) Hw') as (h' & HF & _).
  - unfold Len. simpl. lia.
  - change (Len (hp, m')) with (Len (hp, m)).
    eapply OrderFacts.ordered_touch; [exact Ho|].
    intros x Hx. apply key_update. intros q H0 Hq ->. exfalso.
    apply Hx. rewrite (Hix _ _ _ Hq Hp). lia.
  - by exists h'.
Qed.

(** * The pool *)

Section PoolFacts.

Context {W : Type} `{Driver W}.

Implicit Types σ : Machine W.

Lemma Ref_eq c σ s cl :
  clients c !! 0%nat = Some s -> mem σ !! s = Some cl ->
  Ref c σ = Ref_flat c s cl σ.
Proof.
  intros Hs Hcl. unfold Ref, Ref_flat, refresh.
  assert (slice_at (clients c) 0 = Ok s) as ->.
  { apply slice_at_Ok. split; [|done]. apply lookup_lt_Some in Hs. lia. }
  simpl. unfold deref. rewrite Hcl. simpl.
  destruct σ as [m w tr]. unfold call, set_mem. simpl in *.
  destruct (ref cl =? 0).
  2:{ simpl. rewrite Hcl. simpl. rewrite app_nil_r. done. }
  destruct (Ping (conn cl) w) as [[e|] w1]; simpl.
  2:{ rewrite Hcl. simpl. done. }
  destruct (Disconnect (conn cl) w1) as [e2 w2]; simpl.
  destruct (mongo_Connect (clientOpts c) w2) as [[nc|err] w3]; simpl.
  - rewrite Hcl. simpl.
    rewrite list_lookup_insert_eq by (by eapply lookup_lt_Some). simpl.
    rewrite list_insert_insert_eq.
    by rewrite <- !app_assoc.
  - by rewrite <- !app_assoc.
Qed.

Lemma pool_head c σ :
  pool_ok c σ ->
  exists s cl, clients c !! 0%nat = Some s /\ mem σ !! s = Some cl /\ index cl = 0.
Proof.
  intros ((Hv & Hnd & Hix & Hlen) & Ho & Hne). unfold Len in Hne. simpl in *.
  destruct (lookup_lt_is_Some_2 (clients c) 0%nat) as [s Hs]; [lia|].
  destruct (lookup_lt_is_Some_2 (mem σ) s) as [cl Hcl].
  { apply Hv. simpl. by eapply list_elem_of_lookup_2. }
  exists s, cl. split; [done|]. split; [done|]. by apply (Hix 0%nat s cl).
Qed.

Lemma pool_ok_evolves hp m hp' m' (w' : W) tr' o :
  evolves (hp, m) (hp', m') -> heap_ordered (hp', m') -> hp <> [] ->
  pool_ok (mkCtx hp' o) (mkMachine m' w' tr').
Proof.
  intros (Hw & Hp & Hf) Ho Hne. split; [done|]. split; [done|].
  unfold Len. simpl in *. rewrite Hp. destruct hp; [done|]. simpl. lia.
Qed.

(** [Ref] on a pool that satisfies the invariant: it returns, the invariant
    holds afterwards, and memory changes as described by [Ref_flat]. *)
Lemma Ref_spec c σ :
  pool_ok c σ ->
  exists s cl, clients c !! 0%nat = Some s /\ mem σ !! s = Some cl /\
  let '(evs, w, r) := refresh c cl (world σ) in
  match r with
  | inr err => Ref c σ = Ok (inr err, c, mkMachine (mem σ) w (trace σ ++ evs))
  | inl mc =>
      let m1 := <[s := mkClient mc (GoInt.wrap (ref cl + 1)) (index cl)]> (mem σ) in
      exists hp m,
        Ref c σ = Ok (inl s, mkCtx hp (clientOpts c), mkMachine m w (trace σ ++ evs)) /\
        heap.Fix (clients c, m1) 0 = Ok (hp, m) /\
        evolves (clients c, m1) (hp, m) /\ heap_ordered (hp, m)
  end.
Proof.
  intros Hok. destruct (pool_head c σ Hok) as (s & cl & Hs & Hcl & Hidx).
  exists s, cl. split; [done|]. split; [done|].
  rewrite (Ref_eq c σ s cl Hs Hcl). unfold Ref_flat.
  destruct (refresh c cl (world σ)) as [[evs w] [mc|err]]; [|done].
  destruct Hok as (Hw & Ho & Hne).
  set (mid := <[s := set_conn cl mc]> (mem σ)).
  assert (Hmid : mid !! s = Some (set_conn cl mc)).
  { unfold mid. rewrite list_lookup_insert_eq; [done|]. by eapply lookup_lt_Some. }
  assert (Hwm : wf (clients c, mid)) by (by eapply wf_update).
  assert (Hom : heap_ordered (clients c, mid)).
  { unfold heap_ordered. change (Len (clients c, mid)) with (Len (clients c, mem σ)).
    eapply OrderFacts.ordered_ext; [|exact Ho]. intros x. apply key_update.
    intros q _ _ ->. by exists cl. }
  assert (Hm1 : <[s := mkClient mc (GoInt.wrap (ref cl + 1)) (index cl)]> (mem σ)
                = <[s := set_ref (set_conn cl mc) (GoInt.wrap (ref cl + 1))]> mid).
  { unfold mid. by rewrite list_insert_insert_eq. }
  simpl. rewrite Hm1.
  assert (Hin : s ∈ clients c) by (by eapply list_elem_of_lookup_2).
  destruct (Fix_touch_total (clients c) mid s (set_conn cl mc)
              (GoInt.wrap (ref cl + 1)) Hwm Hom Hmid Hin) as ([hp m] & HF).
  simpl in HF. rewrite Hidx in HF.
  destruct (Fix_touch (clients c) mid s (set_conn cl mc)
              (GoInt.wrap (ref cl + 1)) (hp, m) Hwm Hom Hmid) as [Hev Ho'].
  { simpl. by rewrite Hidx. }
  exists hp, m. rewrite HF. simpl. done.
Qed.

Lemma pool_ok_same_mem c σ σ' :
  pool_ok c σ -> mem σ' = mem σ -> pool_ok c σ'.
Proof. unfold pool_ok. by intros ? ->. Qed.

Lemma Ref_pool_ok c σ r c' σ' :
  pool_ok c σ -> Ref c σ = Ok (r, c', σ') -> pool_ok c' σ'.
Proof.
  intros Hok HR. destruct (Ref_spec c σ Hok) as (s & cl & Hs & Hcl & Hspec).
  destruct (refresh c cl (world σ)) as [[evs w] [mc|err]].
  - destruct Hspec as (hp & m & HR' & _ & Hev & Ho). rewrite HR in HR'.
    simplify_eq. eapply pool_ok_evolves; [exact Hev|exact Ho|].
    intros Hnil. by rewrite Hnil in Hs.
  - rewrite HR in Hspec. simplify_eq. by eapply pool_ok_same_mem.
Qed.

Lemma Ref_total c σ :
  pool_ok c σ -> exists r c' σ', Ref c σ = Ok (r, c', σ').
Proof.
  intros Hok. destruct (Ref_spec c σ Hok) as (s & cl & Hs & Hcl & Hspec).
  destruct (refresh c cl (world σ)) as [[evs w] [mc|err]].
  - destruct Hspec as (hp & m & HR' & _). eauto.
  - eauto.
Qed.

(** [UnRef] of a non-nil handle, whenever it returns. *)
Lemma UnRef_spec c p σ c' σ' :
  pool_ok c σ -> UnRef c (Some p) σ = Ok (c', σ') ->
  exists cl hp m,
    mem σ !! p = Some cl /\
    let m1 := <[p := set_ref cl (GoInt.wrap (ref cl - 1))]> (mem σ) in
    heap.Fix (clients c, m1) (index cl) = Ok (hp, m) /\
    c' = mkCtx hp (clientOpts c) /\ σ' = set_mem m σ /\
    evolves (clients c, m1) (hp, m) /\ heap_ordered (hp, m).
Proof.
  intros (Hw & Ho & Hne) HU. unfold UnRef, deref in HU.
  destruct (mem σ !! p) as [cl|] eqn:Hcl; [|done]. simpl in HU.
  rewrite list_lookup_insert_eq in HU by (by eapply lookup_lt_Some). simpl in HU.
  destruct (heap.Fix _ _) as [[hp m]| |] eqn:HF; [|done..]. simpl in HU.
  simplify_eq. exists cl, hp, m. split; [done|]. simpl. split; [done|].
  split; [done|]. split; [done|]. by eapply Fix_touch.
Qed.

Lemma UnRef_pool_ok c s σ c' σ' :
  pool_ok c σ -> UnRef c s σ = Ok (c', σ') -> pool_ok c' σ'.
Proof.
  intros Hok HU. destruct s as [p|]; [|simpl in HU; by simplify_eq].
  destruct (UnRef_spec c p σ c' σ' Hok HU) as (cl & hp & m & _ & _ & -> & -> & Hev & Ho).
  eapply pool_ok_evolves; [exact Hev|exact Ho|].
  destruct Hok as (_ & _ & Hne). unfold Len in Hne. simpl in Hne.
  intros Hnil. rewrite Hnil in Hne. simpl in Hne. lia.
Qed.

(** A handle of the pool can always be released. *)
Lemma UnRef_total c p σ :
  pool_ok c σ -> p ∈ clients c -> exists c' σ', UnRef c (Some p) σ = Ok (c', σ').
Proof.
  intros (Hw & Ho & Hne) Hin. pose proof Hw as (Hv & _).
  destruct (lookup_lt_is_Some_2 (mem σ) p) as [cl Hcl]; [by apply Hv|].
  unfold UnRef, deref. rewrite Hcl. simpl.
  rewrite list_lookup_insert_eq by (by eapply lookup_lt_Some). simpl.
  destruct (Fix_touch_total (clients c) (mem σ) p cl (GoInt.wrap (ref cl - 1))
              Hw Ho Hcl Hin) as ([hp m] & ->).
  simpl. eauto.
Qed.

(** The handle [Ref] returns is a client of the pool. *)
Lemma Ref_handle_in c σ s c' σ' :
  pool_ok c σ -> Ref c σ = Ok (inl s, c', σ') -> s ∈ clients c'.
Proof.
  intros Hok HR. destruct (Ref_spec c σ Hok) as (s0 & cl & Hs & Hcl & Hspec).
  destruct (refresh c cl (world σ)) as [[evs w] [mc|err]].
  - destruct Hspec as (hp & m & HR' & _ & (_ & Hp & _) & _). rewrite HR in HR'.
    simplify_eq. simpl in *. rewrite Hp. by eapply list_elem_of_lookup_2.
  - rewrite HR in Hspec. simplify_eq.
Qed.

(** ** Every call preserves the invariant *)

Lemma Close_loop_mem l : forall (σ σ' : Machine W),
  Close_loop l σ = Ok σ' -> mem σ' = mem σ.
Proof.
  induction l as [|s l IH]; intros σ σ' HC; simpl in HC; [by simplify_eq|].
  unfold deref, call, log_Error, emit in HC.
  destruct (mem σ !! s) as [cl|] eqn:Hcl; [|done]. simpl in HC.
  destruct (Disconnect (conn cl) (world σ)) as [e w]. simpl in HC.
  rewrite Hcl in HC. simpl in HC. apply IH in HC. rewrite HC.
  by destruct (negb (ref cl =? 0)).
Qed.

#[local] Arguments UnRef : simpl never.

#[local] Arguments Ref : simpl never.

Ltac borrow_tac Hok HE :=
  let r := fresh "r" in let c1 := fresh "c1" in let σ1 := fresh "σ1" in
  let HR := fresh "HR" in let s := fresh "s" in let cl := fresh "cl" in
  destruct (Ref _ _) as [[[r c1] σ1]| |] eqn:HR; [|done..];
  simpl in HE; pose proof (Ref_pool_ok _ _ _ _ _ Hok HR);
  destruct r as [s|?]; [|by simplify_eq];
  unfold deref, call in HE;
  destruct (mem σ1 !! s) as [cl|]; [|done]; simpl in HE.

Lemma EnsureCounter_pool_ok c db collection id σ e c' σ' :
  pool_ok c σ -> EnsureCounter c db collection id σ = Ok (e, c', σ') -> pool_ok c' σ'.
Proof.
  intros Hok HE. unfold EnsureCounter in HE. borrow_tac Hok HE.
  destruct (InsertOne _ _ _ _ _) as [err w]. simpl in HE.
  destruct (UnRef _ _ _) as [[c2 σ2]| |] eqn:HU; [|done..]. simpl in HE.
  simplify_eq. eapply UnRef_pool_ok; [|exact HU]. by eapply pool_ok_same_mem.
Qed.

Lemma NextSeq_pool_ok c db collection id σ n e c' σ' :
  pool_ok c σ -> NextSeq c db collection id σ = Ok (n, e, c', σ') -> pool_ok c' σ'.
Proof.
  intros Hok HE. unfold NextSeq in HE. borrow_tac Hok HE.
  destruct (FindOneAndUpdate _ _ _ _ _ _ _) as [sr w]. simpl in HE.
  destruct (Decode_seq sr) as [seq err].
  destruct (UnRef _ _ _) as [[c2 σ2]| |] eqn:HU; [|done..]. simpl in HE.
  simplify_eq. eapply UnRef_pool_ok; [|exact HU]. by eapply pool_ok_same_mem.
Qed.

Lemma ensureIndex_pool_ok c db collection key unique σ e c' σ' :
  pool_ok c σ -> ensureIndex c db collection key unique σ = Ok (e, c', σ') ->
  pool_ok c' σ'.
Proof.
  intros Hok HE. unfold ensureIndex in HE. borrow_tac Hok HE.
  destruct (Indexes_CreateOne _ _ _ _ _) as [err w]. simpl in HE.
  destruct (UnRef _ _ _) as [[c2 σ2]| |] eqn:HU; [|done..]. simpl in HE.
  simplify_eq. eapply UnRef_pool_ok; [|exact HU]. by eapply pool_ok_same_mem.
Qed.

Lemma step_pool_ok k c σ c' σ' :
  pool_ok c σ -> step k c σ = Ok (c', σ') -> pool_ok c' σ'.
Proof.
  intros Hok Hs. destruct k; simpl in Hs.
  - destruct (Ref c σ) as [[[r c1] σ1]| |] eqn:HR; [|done..]. simpl in Hs.
    simplify_eq. by eapply Ref_pool_ok.
  - by eapply UnRef_pool_ok.
  - destruct (EnsureCounter _ _ _ _ _) as [[[r c1] σ1]| |] eqn:HR; [|done..].
    simpl in Hs. simplify_eq. by eapply EnsureCounter_pool_ok.
  - destruct (NextSeq _ _ _ _ _) as [[[[n r] c1] σ1]| |] eqn:HR; [|done..].
    simpl in Hs. simplify_eq. by eapply NextSeq_pool_ok.
  - destruct (EnsureIndex _ _ _ _ _) as [[[r c1] σ1]| |] eqn:HR; [|done..].
    simpl in Hs. simplify_eq. by eapply ensureIndex_pool_ok.
  - destruct (EnsureUniqueIndex _ _ _ _ _) as [[[r c1] σ1]| |] eqn:HR; [|done..].
    simpl in Hs. simplify_eq. by eapply ensureIndex_pool_ok.
  - destruct (Close c σ) as [σ1| |] eqn:HC; [|done..]. simpl in Hs. simplify_eq.
    eapply pool_ok_same_mem; [exact Hok|]. by eapply Close_loop_mem.
Qed.

Lemma run_pool_ok ks : forall c σ c' σ',
  pool_ok c σ -> run ks c σ = Ok (c', σ') -> pool_ok c' σ'.
Proof.
  induction ks as [|k ks IH]; intros c σ c' σ' Hok Hr; simpl in Hr.
  - by simplify_eq.
  - destruct (step k c σ) as [[c1 σ1]| |] eqn:Hs; [|done..]. simpl in Hr.
    eapply IH; [|exact Hr]. by eapply step_pool_ok.
Qed.

(** ** Construction *)

Lemma fresh_inv_alloc i hp m mc :
  fresh_inv i hp m -> i < GoInt.max_int ->
  fresh_inv (i + 1) (hp ++ [length m]) (m ++ [mkClient mc 0 i]).
Proof.
  intros ((Hv & Hnd & Hix & Hlen) & Hi & Hz) Hmax. simpl in *.
  assert (Hnin : length m ∉ hp).
  { intros Hin. apply Hv in Hin. simpl in Hin. lia. }
  split; [split; [|split; [|split]]|split]; simpl.
  - intros p Hp. simpl in *. rewrite length_app. simpl.
    apply elem_of_app in Hp as [Hp|Hp%list_elem_of_singleton].
    + apply Hv in Hp. simpl in Hp. lia.
    + lia.
  - apply NoDup_app. split; [done|]. split; [|apply NoDup_singleton].
    intros p Hp ->%list_elem_of_singleton. done.
  - intros x p c Hx Hc. simpl in *.
    destruct (decide (x < length hp)%nat) as [Hlt|Hge].
    + rewrite lookup_app_l in Hx by done.
      assert (p < length m)%nat.
      { apply (Hv p). simpl. by eapply list_elem_of_lookup_2. }
      rewrite lookup_app_l in Hc by done. by eapply Hix.
    + rewrite lookup_app_r in Hx by lia.
      destruct (x - length hp)%nat as [|k] eqn:Hk; [|by destruct k].
      simpl in Hx. simplify_eq.
      rewrite lookup_app_r in Hc by lia. rewrite Nat.sub_diag in Hc.
      simpl in Hc. simplify_eq. simpl. lia.
  - unfold Len in *. simpl in *. rewrite length_app. simpl. lia.
  - rewrite length_app. simpl. lia.
  - intros p c Hp Hc.
    apply elem_of_app in Hp as [Hp|Hp%list_elem_of_singleton].
    + assert (p < length m)%nat by (by apply (Hv p)).
      rewrite lookup_app_l in Hc by done. by eapply Hz.
    + subst p. rewrite lookup_app_r in Hc by lia. rewrite Nat.sub_diag in Hc.
      simpl in Hc. by simplify_eq.
Qed.

Lemma connect_loop_spec fuel : forall i n opts hp (σ : Machine W),
  fresh_inv i hp (mem σ) -> 0 <= i <= n -> n <= GoInt.max_int ->
  (Z.to_nat (n - i) <= fuel)%nat ->
  exists r σ', connect_loop fuel i n opts hp σ = Ok (r, σ') /\
    let '(mcs, e, w) := dial (Z.to_nat (n - i)) opts (world σ) in
    world σ' = w /\
    match e with
    | Some err => r = inr err
    | None => exists hp', r = inl hp' /\ fresh_inv n hp' (mem σ')
    end.
Proof.
  induction fuel as [|fuel IH]; intros i n opts hp σ Hinv Hi Hn Hfuel.
  - assert (i = n) as -> by lia. simpl. rewrite Z.ltb_irrefl.
    exists (inl hp), σ. split; [done|]. rewrite Z.sub_diag. simpl. eauto.
  - simpl. destruct (Z.ltb_spec i n) as [Hlt|Hge].
    2:{ assert (i = n) as -> by lia.
        exists (inl hp), σ. split; [done|]. rewrite Z.sub_diag. simpl. eauto. }
    replace (Z.to_nat (n - i)) with (S (Z.to_nat (n - (i + 1)))) by lia.
    simpl. unfold call, alloc, set_mem. simpl.
    destruct (mongo_Connect opts (world σ)) as [[mc|err] w1]; simpl.
    2:{ eexists _, _. split; [done|]. done. }
    rewrite GoIntFacts.wrap_id
      by (unfold GoInt.is_int, GoInt.min_int, GoInt.max_int in *; lia).
    set (σ1 := mkMachine (mem σ ++ [mkClient mc 0 i]) w1 (trace σ ++ [EvConnect opts])).
    destruct (IH (i + 1) n opts (hp ++ [length (mem σ)]) σ1)
      as (r & σ' & -> & Hpost).
    + apply fresh_inv_alloc; [done|lia].
    + lia.
    + done.
    + lia.
    + exists r, σ'. split; [done|]. simpl in Hpost.
      by destruct (dial (Z.to_nat (n - (i + 1))) opts w1) as [[mcs e] w].
Qed.

Lemma pool_size_bounds clientNum :
  GoInt.is_int clientNum -> 0 < pool_size clientNum <= GoInt.max_int.
Proof.
  unfold GoInt.is_int, GoInt.max_int, pool_size.
  destruct (Z.leb_spec clientNum 0); lia.
Qed.

Lemma ConnectWithTimeout_spec url clientNum connectTimeout timeout (σ : Machine W) :
  GoInt.is_int clientNum ->
  exists r σ', ConnectWithTimeout url clientNum connectTimeout timeout σ = Ok (r, σ') /\
    let opts := SetTimeout timeout (SetConnectTimeout connectTimeout
                  (ApplyURI url options_Client)) in
    let '(mcs, e, w) := dial (Z.to_nat (pool_size clientNum)) opts (world σ) in
    world σ' = w /\
    match e with
    | Some err => r = inr err
    | None =>
        exists c, r = inl c /\ pool_ok c σ' /\ clientOpts c = opts /\
          Z.of_nat (length (clients c)) = pool_size clientNum /\
          forall p, p ∈ clients c -> ref_of (mem σ') p = 0
    end.
Proof.
  intros Hint. pose proof (pool_size_bounds clientNum Hint) as Hps.
  unfold ConnectWithTimeout.
  set (opts := SetTimeout timeout (SetConnectTimeout connectTimeout
                 (ApplyURI url options_Client))).
  set (σ0 := if clientNum <=? 0
             then log_Release "invalid clientNum, reset to %v" [100] σ else σ).
  assert (Hst : (if clientNum <=? 0
                 then (100, log_Release "invalid clientNum, reset to %v" [100] σ)
                 else (clientNum, σ)) = (pool_size clientNum, σ0)).
  { unfold pool_size, σ0. by destruct (clientNum <=? 0). }
  rewrite Hst. clear Hst.
  assert (Hw0 : world σ0 = world σ) by (unfold σ0; by destruct (clientNum <=? 0)).
  destruct (connect_loop_spec (Z.to_nat (pool_size clientNum)) 0
              (pool_size clientNum) opts [] σ0) as (r & σ1 & -> & Hpost).
  - split; [|split; [done|]].
    + split; [|split; [|split]]; simpl.
      * intros p Hp. simpl in Hp. by apply elem_of_nil in Hp.
      * apply NoDup_nil_2.
      * intros i p c Hp. done.
      * unfold Len, GoInt.max_int. simpl. lia.
    + intros p c Hp. by apply elem_of_nil in Hp.
  - lia.
  - lia.
  - lia.
  - rewrite Z.sub_0_r, Hw0 in Hpost. simpl.
    destruct (dial (Z.to_nat (pool_size clientNum)) opts (world σ)) as [[mcs e] w].
    destruct Hpost as [Hw Hr]. destruct e as [err|].
    + subst r. eexists _, _. split; [done|]. done.
    + destruct Hr as (hp & -> & (Hwf & Hlen & Hz)).
      assert (Hord : heap_ordered (hp, mem σ1)).
      { intros x Hx. unfold Len in Hx. simpl in Hx.
        pose proof (OrderFacts.parent_lt x ltac:(lia)).
        assert (Hk : forall y, 0 <= y < Z.of_nat (length hp) -> key (hp, mem σ1) y = 0).
        { intros y Hy. destruct (slice_at_in hp y Hy) as (p & Hp & _).
          destruct Hwf as (Hv & _).
          destruct (lookup_lt_is_Some_2 (mem σ1) p) as [c Hc].
          { apply Hv. simpl. by eapply list_elem_of_lookup_2. }
          rewrite (key_in hp (mem σ1) y p c) by (done || lia).
          eapply Hz; [|done]. by eapply list_elem_of_lookup_2. }
        rewrite !Hk by lia. done. }
      destruct (Init_spec (hp, mem σ1) Hwf Hord) as ([hp' m'] & -> & Hev & Ho').
      simpl. eexists _, _. split; [done|]. split; [done|].
      exists (mkCtx hp' opts). split; [done|].
      pose proof Hev as (_ & Hperm & Hfr). simpl in Hperm, Hfr.
      split; [|split; [done|split]].
      * eapply pool_ok_evolves; [exact Hev|exact Ho'|].
        intros ->. simpl in Hlen. lia.
      * simpl. by rewrite Hperm.
      * simpl. intros p Hp. rewrite Hperm in Hp. unfold ref_of.
        destruct (m' !! p) as [c'|] eqn:Hc'; [|done].
        destruct (frame_lookup_r _ _ _ _ Hfr Hc') as (c0 & Hc0 & -> & _).
        by eapply Hz.
Qed.

(** ** The exact effect of [Ref] and [UnRef] on the use counts *)

Lemma ref_of_frame m m' q : frame m m' -> ref_of m' q = ref_of m q.
Proof.
  intros Hf. unfold ref_of. destruct (m !! q) as [c|] eqn:E.
  - by destruct (frame_lookup _ _ _ _ Hf E) as (c' & -> & ? & _).
  - destruct (m' !! q) as [c'|] eqn:E'; [|done].
    destruct (frame_lookup_r _ _ _ _ Hf E') as (c & ? & _). congruence.
Qed.

Lemma conn_of_frame m m' q : frame m m' -> conn_of m' q = conn_of m q.
Proof.
  intros Hf. unfold conn_of. destruct (m !! q) as [c|] eqn:E.
  - by destruct (frame_lookup _ _ _ _ Hf E) as (c' & -> & _ & ?).
  - destruct (m' !! q) as [c'|] eqn:E'; [|done].
    destruct (frame_lookup_r _ _ _ _ Hf E') as (c & ? & _). congruence.
Qed.

Lemma ref_of_insert (m : Mem) p c q :
  (p < length m)%nat ->
  ref_of (<[p := c]> m) q = if decide (q = p) then ref c else ref_of m q.
Proof.
  intros Hp. unfold ref_of. destruct (decide (q = p)) as [->|Hne].
  - by rewrite list_lookup_insert_eq.
  - by rewrite list_lookup_insert_ne.
Qed.

Lemma conn_of_insert (m : Mem) p c q :
  (p < length m)%nat ->
  conn_of (<[p := c]> m) q = if decide (q = p) then conn c else conn_of m q.
Proof.
  intros Hp. unfold conn_of. destruct (decide (q = p)) as [->|Hne].
  - by rewrite list_lookup_insert_eq.
  - by rewrite list_lookup_insert_ne.
Qed.

(** A successful [Ref] adds one to the use count of the handle it returns
    and leaves every other use count alone; a failed one changes no client. *)
Lemma Ref_refs c σ r c' σ' :
  pool_ok c σ -> Ref c σ = Ok (r, c', σ') ->
  clients c' ≡ₚ clients c /\
  match r with
  | inl s =>
      clients c !! 0%nat = Some s /\
      forall q, ref_of (mem σ') q =
        if decide (q = s) then GoInt.wrap (ref_of (mem σ) s + 1)
        else ref_of (mem σ) q
  | inr _ => c' = c /\ mem σ' = mem σ
  end.
Proof.
  intros Hok HR. destruct (Ref_spec c σ Hok) as (s & cl & Hs & Hcl & Hspec).
  destruct (refresh c cl (world σ)) as [[evs w] [mc|err]].
  - destruct Hspec as (hp & m & HR' & _ & (_ & Hp & Hf) & _). rewrite HR in HR'.
    simplify_eq. simpl in *. split; [done|]. split; [done|].
    intros q. rewrite (ref_of_frame _ _ _ Hf).
    rewrite ref_of_insert by (by eapply lookup_lt_Some). simpl.
    unfold ref_of. by rewrite Hcl.
  - rewrite HR in Hspec. by simplify_eq.
Qed.

(** [UnRef] of a non-nil handle subtracts one from its use count, whatever
    the count was, and leaves every other use count alone. *)
Lemma UnRef_refs c p σ c' σ' :
  pool_ok c σ -> UnRef c (Some p) σ = Ok (c', σ') ->
  clients c' ≡ₚ clients c /\
  forall q, ref_of (mem σ') q =
    if decide (q = p) then GoInt.wrap (ref_of (mem σ) p - 1) else ref_of (mem σ) q.
Proof.
  intros Hok HU.
  destruct (UnRef_spec c p σ c' σ' Hok HU)
    as (cl & hp & m & Hcl & _ & -> & -> & (_ & Hp & Hf) & _).
  simpl in *. split; [done|]. intros q. rewrite (ref_of_frame _ _ _ Hf).
  rewrite ref_of_insert by (by eapply lookup_lt_Some). simpl.
  unfold ref_of. by rewrite Hcl.
Qed.

Lemma fresh_pool_ok url clientNum connectTimeout timeout (σ0 : Machine W) c σ :
  GoInt.is_int clientNum ->
  ConnectWithTimeout url clientNum connectTimeout timeout σ0 = Ok (inl c, σ) ->
  pool_ok c σ /\ Z.of_nat (length (clients c)) = pool_size clientNum /\
  forall p, p ∈ clients c -> ref_of (mem σ) p = 0.
Proof.
  intros Hint HC.
  destruct (ConnectWithTimeout_spec url clientNum connectTimeout timeout σ0 Hint)
    as (r & σ1 & HC' & Hpost).
  rewrite HC in HC'. simplify_eq. simpl in Hpost.
  destruct (dial _ _ _) as [[mcs e] w]. destruct Hpost as [_ Hr].
  destruct e as [err|]; [done|].
  destruct Hr as (c0 & [= <-] & Hok & _ & Hlen & Hz). done.
Qed.

Lemma Swap_Ok_inv h i j h' :
  Swap h i j = Ok h' -> 0 <= i < Len h /\ 0 <= j < Len h.
Proof.
  destruct h as [hp m]. unfold Swap, Len. simpl. intros HS.
  destruct (slice_at hp j) as [pj| |] eqn:Ej; [|done..].
  destruct (slice_at hp i) as [pi| |] eqn:Ei; [|done..].
  apply slice_at_Ok in Ej, Ei. lia.
Qed.

(** C1: after any sequence of calls on a freshly constructed pool that all
    return (Ref and UnRef among them), the client at heap index 0 has a use
    count no greater than the use count of any client in the heap. *)
Theorem heap_root_minimal url clientNum connectTimeout timeout
    (σ0 : Machine W) c σ ks c' σ' :
  GoInt.is_int clientNum ->
  ConnectWithTimeout url clientNum connectTimeout timeout σ0 = Ok (inl c, σ) ->
  run ks c σ = Ok (c', σ') ->
  exists s0 c0, clients c' !! 0%nat = Some s0 /\ mem σ' !! s0 = Some c0 /\
    forall (i : nat) si, clients c' !! i = Some si ->
      exists ci, mem σ' !! si = Some ci /\ ref c0 <= ref ci.
Proof.
  intros Hint HC Hrun.
  destruct (fresh_pool_ok _ _ _ _ _ _ _ Hint HC) as (Hok0 & _).
  pose proof (run_pool_ok ks c σ c' σ' Hok0 Hrun) as Hok.
  destruct (pool_head c' σ' Hok) as (s0 & c0 & Hs0 & Hc0 & _).
  exists s0, c0. split; [done|]. split; [done|].
  intros i si Hi. destruct Hok as ((Hv & _) & Ho & _).
  destruct (lookup_lt_is_Some_2 (mem σ') si) as [ci Hci].
  { apply Hv. simpl. by eapply list_elem_of_lookup_2. }
  exists ci. split; [done|].
  pose proof (lookup_lt_Some _ _ _ Hi) as Hlt.
  pose proof (OrderFacts.ordered_root_min _ _ (Z.of_nat i) Ho) as Hmin.
  rewrite (key_in (clients c') (mem σ') 0 s0 c0) in Hmin by (done || lia).
  rewrite (key_in (clients c') (mem σ') (Z.of_nat i) si ci) in Hmin
    by (try lia; try done; by rewrite Nat2Z.id).
  apply Hmin. unfold Len. simpl. lia.
Qed.

(** C2: when the least-used client is idle, its ping fails and the
    reconnect fails too, Ref returns the reconnect error, and neither the
    heap slice nor any client object (use count, index) has changed. *)
Theorem Ref_reconnect_failure_no_mutation c (σ : Machine W) s cl e w1 ed w2 err w3 :
  clients c !! 0%nat = Some s -> mem σ !! s = Some cl -> ref cl = 0 ->
  Ping (conn cl) (world σ) = (Some e, w1) ->
  Disconnect (conn cl) w1 = (ed, w2) ->
  mongo_Connect (clientOpts c) w2 = (inr err, w3) ->
  exists σ', Ref c σ = Ok (inr err, c, σ') /\ mem σ' = mem σ /\
    (forall p, ref_of (mem σ') p = ref_of (mem σ) p) /\
    (forall p, index_of (mem σ') p = index_of (mem σ) p).
Proof.
  intros Hs Hcl Hr HP HD HC. rewrite (Ref_eq c σ s cl Hs Hcl).
  unfold Ref_flat, refresh. rewrite Hr. simpl. rewrite HP, HD. simpl. rewrite HC.
  eexists. split; [done|]. done.
Qed.

(** C5: if one of the connections cannot be established, construction
    stops at the first failing [mongo.Connect] and returns its error and no
    pool; a pool is returned only with all [pool_size clientNum] clients in
    it. *)
Theorem ConnectWithTimeout_all_or_nothing url clientNum connectTimeout timeout
    (σ : Machine W) :
  GoInt.is_int clientNum ->
  let opts := SetTimeout timeout (SetConnectTimeout connectTimeout
                (ApplyURI url options_Client)) in
  exists r σ', ConnectWithTimeout url clientNum connectTimeout timeout σ = Ok (r, σ') /\
    match dial (Z.to_nat (pool_size clientNum)) opts (world σ) with
    | (_, Some err, w) => r = inr err /\ world σ' = w
    | (_, None, w) =>
        exists c, r = inl c /\ world σ' = w /\
          Z.of_nat (length (clients c)) = pool_size clientNum
    end.
Proof.
  intros Hint opts.
  destruct (ConnectWithTimeout_spec url clientNum connectTimeout timeout σ Hint)
    as (r & σ' & HC & Hpost).
  exists r, σ'. split; [done|]. simpl in Hpost. fold opts in Hpost.
  destruct (dial _ _ _) as [[mcs e] w]. destruct Hpost as [Hw Hr].
  destruct e as [err|]; [done|].
  destruct Hr as (c & -> & _ & _ & Hlen & _). eauto.
Qed.

(** C6: in every state reached from a freshly constructed pool, each
    client in the heap records its own slot in [index]; and [Swap], the only
    operation through which heap.Init and heap.Fix move clients, keeps that
    correspondence on any well-formed heap. *)
Theorem index_matches_slot url clientNum connectTimeout timeout
    (σ0 : Machine W) c σ ks c' σ' :
  GoInt.is_int clientNum ->
  ConnectWithTimeout url clientNum connectTimeout timeout σ0 = Ok (inl c, σ) ->
  run ks c σ = Ok (c', σ') ->
  (forall (i : nat) p, clients c' !! i = Some p ->
     exists cl, mem σ' !! p = Some cl /\ index cl = Z.of_nat i) /\
  (forall h i j h', wf h -> Swap h i j = Ok h' -> index_ok h').
Proof.
  intros Hint HC Hrun. split.
  - destruct (fresh_pool_ok _ _ _ _ _ _ _ Hint HC) as (Hok0 & _).
    pose proof (run_pool_ok ks c σ c' σ' Hok0 Hrun) as ((Hv & _ & Hix & _) & _).
    intros i p Hp. destruct (lookup_lt_is_Some_2 (mem σ') p) as [cl Hcl].
    { apply Hv. simpl. by eapply list_elem_of_lookup_2. }
    exists cl. split; [done|]. by apply (Hix i p cl).
  - intros h i j h' Hw HS. destruct (Swap_Ok_inv _ _ _ _ HS) as [Hi Hj].
    destruct (Swap_spec h i j Hw Hi Hj) as (h'' & HS' & ((_ & _ & Hix & _) & _) & _).
    rewrite HS in HS'. by simplify_eq.
Qed.

(** C4: Ref pings the client at index 0 exactly when its use count is 0,
    and reconnects in place when that ping fails; with a non-zero count it
    calls the driver not at all, adds one to the count and runs heap.Fix. *)
Theorem Ref_probes_iff_idle c (σ : Machine W) s cl :
  pool_ok c σ -> clients c !! 0%nat = Some s -> mem σ !! s = Some cl ->
  exists r c' σ' evs, Ref c σ = Ok (r, c', σ') /\ trace σ' = trace σ ++ evs /\
    (existsb is_ping evs = true <-> ref cl = 0) /\
    (ref cl = 0 ->
       match Ping (conn cl) (world σ) with
       | (None, _) =>
           evs = [EvPing (conn cl)] /\ r = inl s /\ conn_of (mem σ') s = conn cl
       | (Some _, w1) =>
           evs = [EvPing (conn cl); EvDisconnect (conn cl); EvConnect (clientOpts c)] /\
           match mongo_Connect (clientOpts c) (Disconnect (conn cl) w1).2 with
           | (inl newClient, _) => r = inl s /\ conn_of (mem σ') s = newClient
           | (inr err, _) => r = inr err
           end
       end) /\
    (ref cl <> 0 ->
       evs = [] /\ world σ' = world σ /\ r = inl s /\
       heap.Fix (clients c, <[s := set_ref cl (GoInt.wrap (ref cl + 1))]> (mem σ)) 0
         = Ok (clients c', mem σ') /\
       heap_ordered (clients c', mem σ')).
Proof.
  intros Hok Hs Hcl.
  destruct (Ref_spec c σ Hok) as (s' & cl' & Hs' & Hcl' & Hspec).
  assert (s' = s) by congruence. subst s'.
  assert (cl' = cl) by congruence. subst cl'. clear Hs' Hcl'.
  pose proof (lookup_lt_Some _ _ _ Hcl) as Hlt.
  assert (Hconn : forall mc hp m,
    evolves (clients c, <[s := mkClient mc (GoInt.wrap (ref cl + 1)) (index cl)]> (mem σ))
            (hp, m) -> conn_of m s = mc).
  { intros mc hp m (_ & _ & Hf). simpl in Hf. rewrite (conn_of_frame _ _ _ Hf).
    rewrite conn_of_insert by done. by rewrite decide_True. }
  unfold refresh in Hspec. destruct (Z.eqb_spec (ref cl) 0) as [Hz|Hnz].
  - destruct (Ping (conn cl) (world σ)) as [[e|] w1].
    + destruct (mongo_Connect (clientOpts c) (Disconnect (conn cl) w1).2)
        as [[nc|err] w3].
      * destruct Hspec as (hp & m & HR & HF & Hev & Ho).
        eexists _, _, _, _. split; [exact HR|]. split; [done|].
        split; [done|]. split; [|done]. intros _. split; [done|]. split; [done|].
        simpl. by eapply Hconn.
      * eexists _, _, _, _. split; [exact Hspec|]. split; [done|].
        split; [done|]. split; [|done]. intros _. done.
    + destruct Hspec as (hp & m & HR & HF & Hev & Ho).
      eexists _, _, _, _. split; [exact HR|]. split; [done|].
      split; [done|]. split; [|done]. intros _. split; [done|]. split; [done|].
      simpl. by eapply Hconn.
  - destruct Hspec as (hp & m & HR & HF & Hev & Ho).
    eexists _, _, _, _. split; [exact HR|]. simpl. split; [done|].
    split; [split; [done|by intros ?]|]. split; [done|]. intros _.
    split; [done|]. split; [done|]. split; [done|]. split; [exact HF|exact Ho].
Qed.

Lemma Close_loop_spec l : forall (σ : Machine W),
  Forall (fun p => p < length (mem σ))%nat l ->
  exists σ', Close_loop l σ = Ok σ' /\ mem σ' = mem σ /\
    trace σ' = trace σ ++ flat_map (close_events (mem σ)) l.
Proof.
  induction l as [|s l IH]; intros σ Hv; simpl.
  - exists σ. by rewrite app_nil_r.
  - apply Forall_cons in Hv as [Hs Hl].
    destruct (lookup_lt_is_Some_2 (mem σ) s Hs) as [cl Hcl].
    unfold deref, call, close_events. rewrite Hcl. simpl.
    destruct (Disconnect (conn cl) (world σ)) as [e w]. simpl. rewrite Hcl. simpl.
    set (σ1 := if negb (ref cl =? 0) then _ else _).
    assert (Hm1 : mem σ1 = mem σ) by (unfold σ1; by destruct (ref cl =? 0)).
    assert (Ht1 : trace σ1 = trace σ ++ EvDisconnect (conn cl) ::
              (if ref cl =? 0 then [] else [EvLogError "client ref = %v" [ref cl]])).
    { unfold σ1. destruct (ref cl =? 0); simpl; [done|]. by rewrite <- app_assoc. }
    destruct (IH σ1) as (σ' & -> & Hm & Ht); [by rewrite Hm1|].
    exists σ'. split; [done|]. split; [congruence|].
    rewrite Ht, Ht1, Hm1. by rewrite <- app_assoc.
Qed.

(** C9: Close disconnects the connection of every client in the pool, in
    heap order; a client with a non-zero use count adds one error line to
    the log right after its own disconnect, and nothing else happens. *)
Theorem Close_disconnects_every_client c (σ : Machine W) :
  Forall (fun p => p < length (mem σ))%nat (clients c) ->
  exists σ', Close c σ = Ok σ' /\ mem σ' = mem σ /\
    trace σ' = trace σ ++ flat_map (close_events (mem σ)) (clients c) /\
    List.filter is_disconnect (flat_map (close_events (mem σ)) (clients c))
      = map (fun p => EvDisconnect (conn_of (mem σ) p)) (clients c) /\
    List.filter is_log_error (flat_map (close_events (mem σ)) (clients c))
      = map (fun p => EvLogError "client ref = %v" [ref_of (mem σ) p])
            (List.filter (fun p => negb (ref_of (mem σ) p =? 0)) (clients c)).
Proof.
  intros Hv. destruct (Close_loop_spec (clients c) σ Hv) as (σ' & HC & Hm & Ht).
  exists σ'. split; [done|]. split; [done|]. split; [done|].
  clear HC Hm Ht. induction (clients c) as [|p l IH]; [done|].
  apply Forall_cons in Hv as [Hp Hl]. specialize (IH Hl) as [IH1 IH2].
  destruct (lookup_lt_is_Some_2 (mem σ) p Hp) as [cl Hcl].
  simpl. rewrite !List.filter_app, IH1, IH2.
  assert (Hr : ref_of (mem σ) p = ref cl) by (unfold ref_of; by rewrite Hcl).
  assert (Hc : conn_of (mem σ) p = conn cl) by (unfold conn_of; by rewrite Hcl).
  rewrite Hr, Hc. unfold close_events. rewrite Hcl.
  destruct (ref cl =? 0) eqn:E; simpl; rewrite ?Hr; done.

Qed.

Lemma fill_keys_spec key : forall (pre : list bson_E) z,
  fill_keys (length pre) key (pre ++ replicate (length key) z)
  = pre ++ map (fun k => mkE k (BInt 1)) key.
Proof.
  induction key as [|k key IH]; intros pre z; simpl; [done|].
  rewrite insert_app_r_alt by lia. rewrite Nat.sub_diag. simpl.
  specialize (IH (pre ++ [mkE k (BInt 1)]) z).
  rewrite length_app in IH. simpl in IH. rewrite Nat.add_1_r in IH.
  rewrite <- !app_assoc in IH. simpl in IH. exact IH.
Qed.

Lemma make_indexModel_spec key unique :
  make_indexModel key unique =
  mkIndexModel (map (fun k => mkE k (BInt 1)) key) (mkIndexOptions (Some unique) (Some true)).
Proof.
  unfold make_indexModel, make_keysDoc. f_equal.
  apply (fill_keys_spec key [] (mkE "" BNull)).
Qed.

(** The deferred [UnRef] of a handle that [Ref] has just returned. *)
Lemma release_after c (σ : Machine W) s c1 σ1 (w : W) tr :
  pool_ok c σ -> Ref c σ = Ok (inl s, c1, σ1) ->
  exists cl c' m, mem σ1 !! s = Some cl /\
    UnRef c1 (Some s) (mkMachine (mem σ1) w tr) = Ok (c', mkMachine m w tr) /\
    released s c1 (mem σ1) c' (mkMachine m w tr).
Proof.
  intros Hok HR. pose proof (Ref_pool_ok _ _ _ _ _ Hok HR) as Hok1.
  pose proof (Ref_handle_in _ _ _ _ _ Hok HR) as Hin.
  assert (Hok2 : pool_ok c1 (mkMachine (mem σ1) w tr)) by (by eapply pool_ok_same_mem).
  destruct (UnRef_total c1 s _ Hok2 Hin) as (c' & σ' & HU).
  pose proof (UnRef_refs _ _ _ _ _ Hok2 HU) as [Hperm Hrefs].
  pose proof (UnRef_pool_ok _ _ _ _ _ Hok2 HU) as Hok'.
  destruct (UnRef_spec _ _ _ _ _ Hok2 HU)
    as (cl & hp & m & Hcl & _ & -> & -> & (_ & _ & Hf) & _).
  exists cl, (mkCtx hp (clientOpts c1)), m. split; [done|]. split; [done|].
  split; [done|]. split; [done|]. split; [done|]. split; [done|].
  intros q. simpl in *. rewrite (conn_of_frame _ _ _ Hf).
  rewrite conn_of_insert by (by eapply lookup_lt_Some).
  destruct (decide (q = s)) as [->|]; [|done]. unfold conn_of. by rewrite Hcl.
Qed.

Lemma ensureIndex_spec c (σ : Machine W) db collection key unique s c1 σ1 :
  pool_ok c σ -> Ref c σ = Ok (inl s, c1, σ1) ->
  let model := make_indexModel key unique in
  let mc := conn_of (mem σ1) s in
  exists c' σ',
    ensureIndex c db collection key unique σ
      = Ok ((Indexes_CreateOne mc db collection model (world σ1)).1, c', σ') /\
    trace σ' = trace σ1 ++ [EvCreateOne mc db collection model] /\
    world σ' = (Indexes_CreateOne mc db collection model (world σ1)).2 /\
    released s c1 (mem σ1) c' σ'.
Proof.
  intros Hok HR model mc. unfold ensureIndex. rewrite HR. simpl.
  destruct (Indexes_CreateOne mc db collection model (world σ1)) as [e w] eqn:HI.
  destruct (release_after c σ s c1 σ1 w
              (trace σ1 ++ [EvCreateOne mc db collection model]) Hok HR)
    as (cl & c' & m & Hcl & HU & Hok').
  unfold deref, call. rewrite Hcl. simpl.
  assert (mc = conn cl) as Hmc by (unfold mc, conn_of; by rewrite Hcl).
  fold model. rewrite <- Hmc, HI. rewrite HU. simpl.
  eexists _, _. split; [done|]. done.
Qed.

Lemma EnsureCounter_spec c (σ : Machine W) db collection id s c1 σ1 :
  pool_ok c σ -> Ref c σ = Ok (inl s, c1, σ1) ->
  let doc := [("_id", BString id); ("seq", BInt 0)] in
  let mc := conn_of (mem σ1) s in
  let err := (InsertOne mc db collection doc (world σ1)).1 in
  exists c' σ',
    EnsureCounter c db collection id σ
      = Ok ((if IsDuplicateKeyError err then None else err), c', σ') /\
    trace σ' = trace σ1 ++ [EvInsertOne mc db collection doc] /\
    world σ' = (InsertOne mc db collection doc (world σ1)).2 /\
    released s c1 (mem σ1) c' σ'.
Proof.
  intros Hok HR doc mc err. unfold EnsureCounter. rewrite HR. simpl.
  subst err. destruct (InsertOne mc db collection doc (world σ1)) as [e w] eqn:HI.
  destruct (release_after c σ s c1 σ1 w
              (trace σ1 ++ [EvInsertOne mc db collection doc]) Hok HR)
    as (cl & c' & m & Hcl & HU & Hok').
  unfold deref, call. rewrite Hcl. simpl.
  assert (mc = conn cl) as Hmc by (unfold mc, conn_of; by rewrite Hcl).
  fold doc. rewrite <- Hmc, HI. rewrite HU. simpl.
  eexists _, _. split; [done|]. done.
Qed.

Lemma NextSeq_spec c (σ : Machine W) db collection id s c1 σ1 :
  pool_ok c σ -> Ref c σ = Ok (inl s, c1, σ1) ->
  let filter := [("_id", BString id)] in
  let update := [("$inc", BDoc [("seq", BInt 1)])] in
  let opts := mkFOAUOptions (Some After) in
  let mc := conn_of (mem σ1) s in
  let sr := (FindOneAndUpdate mc db collection filter update opts (world σ1)).1 in
  exists c' σ',
    NextSeq c db collection id σ
      = Ok ((Decode_seq sr).1, (Decode_seq sr).2, c', σ') /\
    trace σ' = trace σ1 ++ [EvFindOneAndUpdate mc db collection filter update opts] /\
    world σ' = (FindOneAndUpdate mc db collection filter update opts (world σ1)).2 /\
    released s c1 (mem σ1) c' σ'.
Proof.
  intros Hok HR filter update opts mc sr. unfold NextSeq. rewrite HR. simpl.
  subst sr.
  destruct (FindOneAndUpdate mc db collection filter update opts (world σ1))
    as [sr w] eqn:HI.
  destruct (release_after c σ s c1 σ1 w
              (trace σ1 ++ [EvFindOneAndUpdate mc db collection filter update opts])
              Hok HR)
    as (cl & c' & m & Hcl & HU & Hok').
  unfold deref, call. rewrite Hcl. simpl.
  assert (mc = conn cl) as Hmc by (unfold mc, conn_of; by rewrite Hcl).
  fold filter update. change (SetReturnDocument After options_FindOneAndUpdate) with opts.
  rewrite <- Hmc, HI. simpl. destruct (Decode_seq sr) as [seq err]. rewrite HU. simpl.
  eexists _, _. split; [done|]. done.
Qed.

(** ** Calls that only release clients of the pool always return *)

Lemma step_total k c σ :
  pool_ok c σ -> pool_handle c k ->
  exists c' σ', step k c σ = Ok (c', σ') /\ clients c' ≡ₚ clients c.
Proof.
  intros Hok Hk.
  assert (Hborrow : forall s c1 σ1 c' (σ' : Machine W),
            Ref c σ = Ok (inl s, c1, σ1) -> released s c1 (mem σ1) c' σ' ->
            clients c' ≡ₚ clients c).
  { intros s c1 σ1 c' σ' HR (_ & Hp & _).
    destruct (Ref_refs _ _ _ _ _ Hok HR) as [Hp1 _]. by rewrite Hp, Hp1. }
  assert (Hfail : forall err c1 σ1, Ref c σ = Ok (inr err, c1, σ1) -> c1 = c).
  { intros err c1 σ1 HR. by destruct (Ref_refs _ _ _ _ _ Hok HR) as (_ & -> & _). }
  destruct (Ref_total c σ Hok) as (r & c1 & σ1 & HR).
  destruct k as [|s|db collection id|db collection id|db collection fields
                |db collection fields|]; simpl.
  - rewrite HR. simpl. eexists _, _. split; [done|].
    by destruct (Ref_refs _ _ _ _ _ Hok HR).
  - destruct s as [p|].
    + simpl in Hk. destruct (UnRef_total c p σ Hok Hk) as (c' & σ' & HU).
      exists c', σ'. split; [done|]. by destruct (UnRef_refs _ _ _ _ _ Hok HU).
    + by exists c, σ.
  - destruct r as [s|err].
    + destruct (EnsureCounter_spec c σ db collection id s c1 σ1 Hok HR)
        as (c' & σ' & -> & _ & _ & Hrel).
      simpl. eexists _, _. split; [done|]. by eapply Hborrow.
    + unfold EnsureCounter. rewrite HR. simpl. eexists _, _. split; [done|].
      by rewrite (Hfail _ _ _ HR).
  - destruct r as [s|err].
    + destruct (NextSeq_spec c σ db collection id s c1 σ1 Hok HR)
        as (c' & σ' & -> & _ & _ & Hrel).
      simpl. eexists _, _. split; [done|]. by eapply Hborrow.
    + unfold NextSeq. rewrite HR. simpl. eexists _, _. split; [done|].
      by rewrite (Hfail _ _ _ HR).
  - destruct r as [s|err].
    + destruct (ensureIndex_spec c σ db collection fields false s c1 σ1 Hok HR)
        as (c' & σ' & HE & _ & _ & Hrel).
      unfold EnsureIndex. rewrite HE. simpl. eexists _, _. split; [done|].
      by eapply Hborrow.
    + unfold EnsureIndex, ensureIndex. rewrite HR. simpl. eexists _, _.
      split; [done|]. by rewrite (Hfail _ _ _ HR).
  - destruct r as [s|err].
    + destruct (ensureIndex_spec c σ db collection fields true s c1 σ1 Hok HR)
        as (c' & σ' & HE & _ & _ & Hrel).
      unfold EnsureUniqueIndex. rewrite HE. simpl. eexists _, _. split; [done|].
      by eapply Hborrow.
    + unfold EnsureUniqueIndex, ensureIndex. rewrite HR. simpl. eexists _, _.
      split; [done|]. by rewrite (Hfail _ _ _ HR).
  - destruct Hok as ((Hv & _) & _).
    destruct (Close_loop_spec (clients c) σ) as (σ' & HC & _).
    { apply Forall_forall. intros p Hp. by apply Hv. }
    unfold Close. rewrite HC. simpl. by eexists _, _.
Qed.

Lemma pool_handle_perm c c' k :
  clients c' ≡ₚ clients c -> pool_handle c k -> pool_handle c' k.
Proof.
  intros Hp. destruct k as [|[p|]| | | | |]; simpl; try done. by rewrite Hp.
Qed.

Lemma run_total ks : forall c σ,
  pool_ok c σ -> Forall (pool_handle c) ks ->
  exists c' σ', run ks c σ = Ok (c', σ').
Proof.
  induction ks as [|k ks IH]; intros c σ Hok Hks; simpl; [by eexists _, _|].
  apply Forall_cons in Hks as [Hk Hks].
  destruct (step_total k c σ Hok Hk) as (c1 & σ1 & Hs & Hp).
  rewrite Hs. simpl. apply IH.
  - by eapply step_pool_ok.
  - eapply Forall_impl; [exact Hks|]. intros k'. by apply pool_handle_perm.
Qed.

(** ** Use counts stay non-negative under matched releases *)

Lemma Ref_refs_bounded B c σ r c' σ' :
  pool_ok c σ -> refs_bounded B c σ -> B < GoInt.max_int ->
  Ref c σ = Ok (r, c', σ') ->
  refs_bounded (B + 1) c' σ' /\
  match r with
  | inl s => s ∈ clients c /\ ref_of (mem σ') s = ref_of (mem σ) s + 1 /\
             forall q, q <> s -> ref_of (mem σ') q = ref_of (mem σ) q
  | inr _ => c' = c /\ mem σ' = mem σ
  end.
Proof.
  intros Hok Hb HB HR. destruct (Ref_refs _ _ _ _ _ Hok HR) as [Hperm Hr].
  destruct r as [s|err].
  - destruct Hr as [Hs Hrefs].
    assert (Hin : s ∈ clients c) by (by eapply list_elem_of_lookup_2).
    pose proof (Hb s Hin) as Hbs.
    assert (Hw : GoInt.wrap (ref_of (mem σ) s + 1) = ref_of (mem σ) s + 1).
    { apply GoIntFacts.wrap_id. unfold GoInt.is_int, GoInt.min_int, GoInt.max_int in *. lia. }
    split; [|split; [done|split]].
    + intros q Hq. rewrite Hperm in Hq. rewrite Hrefs.
      destruct (decide (q = s)) as [->|]; [rewrite Hw; lia|].
      specialize (Hb q Hq). lia.
    + rewrite Hrefs. by rewrite decide_True.
    + intros q Hq. rewrite Hrefs. by rewrite decide_False.
  - destruct Hr as [-> Hm]. split; [|done]. intros q Hq. rewrite Hm.
    specialize (Hb q Hq). lia.
Qed.

Lemma UnRef_refs_bounded B c s σ c' σ' :
  pool_ok c σ -> refs_bounded B c σ -> B <= GoInt.max_int ->
  matched_call (CallUnRef s) σ ->
  UnRef c s σ = Ok (c', σ') -> refs_bounded B c' σ'.
Proof.
  intros Hok Hb HB Hm HU. destruct s as [p|]; [|unfold UnRef in HU; by simplify_eq].
  simpl in Hm. destruct (UnRef_refs _ _ _ _ _ Hok HU) as [Hperm Hrefs].
  intros q Hq. rewrite Hperm in Hq. rewrite Hrefs.
  destruct (decide (q = p)) as [->|]; [|by apply Hb].
  specialize (Hb p Hq). rewrite GoIntFacts.wrap_id; [lia|].
  unfold GoInt.is_int, GoInt.min_int, GoInt.max_int in *. lia.
Qed.

(** Acquire then release of the same handle restores every use count. *)
Lemma borrow_refs_bounded B c σ s c1 σ1 c' (σ' : Machine W) :
  pool_ok c σ -> refs_bounded B c σ -> B < GoInt.max_int ->
  Ref c σ = Ok (inl s, c1, σ1) -> released s c1 (mem σ1) c' σ' ->
  refs_bounded B c' σ'.
Proof.
  intros Hok Hb HB HR (_ & Hperm & _ & Hrefs & _).
  destruct (Ref_refs_bounded _ _ _ _ _ _ Hok Hb HB HR) as (_ & Hin & Hs & Hothers).
  destruct (Ref_refs _ _ _ _ _ Hok HR) as [Hperm1 _].
  intros q Hq. rewrite Hperm, Hperm1 in Hq. rewrite Hrefs.
  destruct (decide (q = s)) as [->|Hne].
  - rewrite Hs. replace (ref_of (mem σ) s + 1 - 1) with (ref_of (mem σ) s) by lia.
    specialize (Hb s Hq). rewrite GoIntFacts.wrap_id; [done|].
    unfold GoInt.is_int, GoInt.min_int, GoInt.max_int in *. lia.
  - rewrite Hothers by done. by apply Hb.
Qed.

Lemma refs_bounded_mono B B' c (σ : Machine W) :
  B <= B' -> refs_bounded B c σ -> refs_bounded B' c σ.
Proof. intros HB Hb q Hq. specialize (Hb q Hq). lia. Qed.

Lemma step_refs_bounded B k c σ c' σ' :
  pool_ok c σ -> refs_bounded B c σ -> B < GoInt.max_int ->
  matched_call k σ -> step k c σ = Ok (c', σ') -> refs_bounded (B + 1) c' σ'.
Proof.
  intros Hok Hb HB Hm Hs.
  assert (Hfail : forall err c1 σ1, Ref c σ = Ok (inr err, c1, σ1) ->
            refs_bounded (B + 1) c1 σ1).
  { intros err c1 σ1 HR. by destruct (Ref_refs_bounded _ _ _ _ _ _ Hok Hb HB HR). }
  destruct k as [|s|db collection id|db collection id|db collection fields
                |db collection fields|]; simpl in Hs.
  - destruct (Ref c σ) as [[[r c1] σ1]| |] eqn:HR; [|done..]. simpl in Hs.
    simplify_eq. by destruct (Ref_refs_bounded _ _ _ _ _ _ Hok Hb HB HR).
  - eapply refs_bounded_mono; [|eapply UnRef_refs_bounded; eauto]; lia.
  - destruct (Ref c σ) as [[[[s0|err] c1] σ1]| |] eqn:HR.
    + destruct (EnsureCounter_spec c σ db collection id s0 c1 σ1 Hok HR)
        as (c2 & σ2 & HE & _ & _ & Hrel).
      rewrite HE in Hs. simpl in Hs. simplify_eq.
      eapply refs_bounded_mono; [|by eapply borrow_refs_bounded]. lia.
    + unfold EnsureCounter in Hs. rewrite HR in Hs. simpl in Hs. simplify_eq.
      by eapply Hfail.
    + unfold EnsureCounter in Hs. by rewrite HR in Hs.
    + unfold EnsureCounter in Hs. by rewrite HR in Hs.
  - destruct (Ref c σ) as [[[[s0|err] c1] σ1]| |] eqn:HR.
    + destruct (NextSeq_spec c σ db collection id s0 c1 σ1 Hok HR)
        as (c2 & σ2 & HE & _ & _ & Hrel).
      rewrite HE in Hs. simpl in Hs. simplify_eq.
      eapply refs_bounded_mono; [|by eapply borrow_refs_bounded]. lia.
    + unfold NextSeq in Hs. rewrite HR in Hs. simpl in Hs. simplify_eq.
      by eapply Hfail.
    + unfold NextSeq in Hs. by rewrite HR in Hs.
    + unfold NextSeq in Hs. by rewrite HR in Hs.
  - destruct (Ref c σ) as [[[[s0|err] c1] σ1]| |] eqn:HR.
    + destruct (ensureIndex_spec c σ db collection fields false s0 c1 σ1 Hok HR)
        as (c2 & σ2 & HE & _ & _ & Hrel).
      unfold EnsureIndex in Hs. rewrite HE in Hs. simpl in Hs. simplify_eq.
      eapply refs_bounded_mono; [|by eapply borrow_refs_bounded]. lia.
    + unfold EnsureIndex, ensureIndex in Hs. rewrite HR in Hs. simpl in Hs.
      simplify_eq. by eapply Hfail.
    + unfold EnsureIndex, ensureIndex in Hs. by rewrite HR in Hs.
    + unfold EnsureIndex, ensureIndex in Hs. by rewrite HR in Hs.
  - destruct (Ref c σ) as [[[[s0|err] c1] σ1]| |] eqn:HR.
    + destruct (ensureIndex_spec c σ db collection fields true s0 c1 σ1 Hok HR)
        as (c2 & σ2 & HE & _ & _ & Hrel).
      unfold EnsureUniqueIndex in Hs. rewrite HE in Hs. simpl in Hs. simplify_eq.
      eapply refs_bounded_mono; [|by eapply borrow_refs_bounded]. lia.
    + unfold EnsureUniqueIndex, ensureIndex in Hs. rewrite HR in Hs. simpl in Hs.
      simplify_eq. by eapply Hfail.
    + unfold EnsureUniqueIndex, ensureIndex in Hs. by rewrite HR in Hs.
    + unfold EnsureUniqueIndex, ensureIndex in Hs. by rewrite HR in Hs.
  - destruct (Close c σ) as [σ1| |] eqn:HC; [|done..]. simpl in Hs. simplify_eq.
    apply Close_loop_mem in HC. intros q Hq. rewrite HC.
    specialize (Hb q Hq). lia.
Qed.

Lemma run_refs_bounded ks : forall B c σ c' σ',
  pool_ok c σ -> refs_bounded B c σ -> 0 <= B ->
  B + Z.of_nat (length ks) <= GoInt.max_int ->
  matched ks c σ -> run ks c σ = Ok (c', σ') ->
  refs_bounded (B + Z.of_nat (length ks)) c' σ'.
Proof.
  induction ks as [|k ks IH]; intros B c σ c' σ' Hok Hb HB0 HB Hm Hr; simpl in *.
  - simplify_eq. by rewrite Z.add_0_r.
  - destruct Hm as [Hk Hrest].
    destruct (step k c σ) as [[c1 σ1]| |] eqn:Hs; [|done..]. simpl in Hr.
    eapply refs_bounded_mono;
      [|eapply (IH (B + 1) c1 σ1 c' σ'); try done].
    + lia.
    + by eapply step_pool_ok.
    + eapply step_refs_bounded; eauto. lia.
    + lia.
    + lia.
    + by apply Hrest.
Qed.

(** C3 (amended): from a freshly constructed pool, along any sequence of
    fewer than 2^63 calls in which every UnRef of a non-nil client finds that
    client with a positive use count, no client of the pool ever has a
    negative use count. *)
Theorem use_count_nonneg_when_matched url clientNum connectTimeout timeout
    (σ0 : Machine W) c σ ks c' σ' :
  GoInt.is_int clientNum ->
  ConnectWithTimeout url clientNum connectTimeout timeout σ0 = Ok (inl c, σ) ->
  Z.of_nat (length ks) <= GoInt.max_int ->
  matched ks c σ ->
  run ks c σ = Ok (c', σ') ->
  forall q, q ∈ clients c' -> 0 <= ref_of (mem σ') q.
Proof.
  intros Hint HC Hlen Hm Hrun q Hq.
  destruct (fresh_pool_ok _ _ _ _ _ _ _ Hint HC) as (Hok & _ & Hz).
  assert (Hb : refs_bounded 0 c σ).
  { intros p Hp. rewrite (Hz p Hp). lia. }
  pose proof (run_refs_bounded ks 0 c σ c' σ' Hok Hb ltac:(lia) ltac:(lia) Hm Hrun)
    as Hb'.
  specialize (Hb' q Hq). lia.
Qed.

End PoolFacts.

(** ** The package on the reference driver *)

Section MemFacts.

Import MemDriver.

Lemma healthy_not_lost c (σ : Machine World) p :
  healthy c σ -> p ∈ clients c -> is_lost (conn_of (mem σ) p) (world σ) = false.
Proof.
  intros [_ Hh] Hp. unfold is_lost. apply bool_decide_eq_false. by apply Hh.
Qed.

(** On a healthy pool [Ref] succeeds without touching the store. *)
Lemma mem_Ref c (σ : Machine World) :
  healthy c σ ->
  exists s c1 σ1, Ref c σ = Ok (inl s, c1, σ1) /\ world σ1 = world σ /\
    pool_ok c1 σ1 /\ clients c1 ≡ₚ clients c /\ s ∈ clients c1 /\
    forall q, conn_of (mem σ1) q = conn_of (mem σ) q.
Proof.
  intros Hh. pose proof Hh as [Hok Hl].
  destruct (Ref_spec c σ Hok) as (s & cl & Hs & Hcl & Hspec).
  assert (Hin : s ∈ clients c) by (by eapply list_elem_of_lookup_2).
  assert (Hc : conn_of (mem σ) s = conn cl) by (unfold conn_of; by rewrite Hcl).
  pose proof (healthy_not_lost c σ s Hh Hin) as Hnl. rewrite Hc in Hnl.
  assert (Hrf : exists evs, refresh c cl (world σ) = (evs, world σ, inl (conn cl))).
  { unfold refresh. simpl. unfold ping. rewrite Hnl.
    destruct (ref cl =? 0); eauto. }
  destruct Hrf as [evs Hrf]. rewrite Hrf in Hspec.
  destruct Hspec as (hp & m & HR & _ & Hev & Ho).
  pose proof Hev as (_ & Hperm & Hf). simpl in Hperm, Hf.
  eexists s, _, _. split; [exact HR|]. split; [done|].
  split; [|split; [done|split]].
  - eapply pool_ok_evolves; [exact Hev|exact Ho|]. intros Hnil.
    by rewrite Hnil in Hs.
  - simpl. by rewrite Hperm.
  - intros q. simpl. rewrite (conn_of_frame _ _ _ Hf).
    rewrite conn_of_insert by (by eapply lookup_lt_Some).
    destruct (decide (q = s)) as [->|]; [by rewrite Hc|done].
Qed.

Lemma healthy_released c (σ : Machine World) s c1 (σ1 : Machine World) c' σ' :
  healthy c σ -> clients c1 ≡ₚ clients c ->
  (forall q, conn_of (mem σ1) q = conn_of (mem σ) q) ->
  released s c1 (mem σ1) c' σ' -> lost (world σ') = lost (world σ) ->
  healthy c' σ'.
Proof.
  intros [_ Hl] Hperm Hconn (Hok & Hperm' & _ & _ & Hconn') Hlost.
  split; [done|]. intros p Hp. rewrite Hperm', Hperm in Hp.
  rewrite Hconn', Hconn, Hlost. by apply Hl.
Qed.

(** [EnsureCounter] on a healthy pool: it succeeds whether or not the
    counter exists, and leaves the counter in place. *)
Lemma mem_EnsureCounter c (σ : Machine World) db collection id :
  healthy c σ ->
  exists c' σ', EnsureCounter c db collection id σ = Ok (None, c', σ') /\
    healthy c' σ' /\
    docs (world σ') =
      match docs (world σ) !! (db, collection, id) with
      | Some _ => docs (world σ)
      | None => <[(db, collection, id) := [("_id", BString id); ("seq", BInt 0)]]>
                  (docs (world σ))
      end.
Proof.
  intros Hh. pose proof Hh as [Hok _].
  destruct (mem_Ref c σ Hh) as (s & c1 & σ1 & HR & Hw & Hok1 & Hperm & Hin & Hconn).
  destruct (EnsureCounter_spec c σ db collection id s c1 σ1 Hok HR)
    as (c' & σ' & HE & _ & Hw' & Hrel).
  assert (Hnl : is_lost (conn_of (mem σ1) s) (world σ1) = false).
  { rewrite Hconn, Hw. apply (healthy_not_lost c σ s Hh). by rewrite <- Hperm. }
  simpl in HE, Hw'. unfold insert_one in HE, Hw'. rewrite Hnl in HE, Hw'.
  simpl in HE, Hw'. rewrite Hw in HE, Hw'.
  exists c', σ'. destruct (docs (world σ) !! (db, collection, id)) as [d|] eqn:Hd.
  - simpl in HE, Hw'. split; [exact HE|]. split; [|by rewrite Hw'].
    eapply healthy_released; eauto. by rewrite Hw'.
  - simpl in HE, Hw'. split; [exact HE|]. split; [|by rewrite Hw'].
    eapply healthy_released; eauto. by rewrite Hw'.
Qed.

Lemma bson_lookup_inc_field f d doc v :
  bson_lookup f doc = Some (BInt v) ->
  bson_lookup f (inc_field f d doc) = Some (BInt (v + d)).
Proof.
  induction doc as [|[k x] doc IH]; simpl; [done|].
  destruct (String.eqb f k) eqn:E; simpl; rewrite E; [|done].
  by intros [= ->].
Qed.

(** [NextSeq] on a healthy pool. *)
Lemma mem_NextSeq c (σ : Machine World) db collection id :
  healthy c σ ->
  (forall v, counter_at (world σ) db collection id v -> GoInt.is_int (v + 1) ->
     exists c' σ', NextSeq c db collection id σ = Ok (v + 1, None, c', σ') /\
       healthy c' σ' /\ counter_at (world σ') db collection id (v + 1)) /\
  (docs (world σ) !! (db, collection, id) = None ->
     exists c' σ', NextSeq c db collection id σ = Ok (0, Some ErrNoDocuments, c', σ') /\
       healthy c' σ' /\ docs (world σ') = docs (world σ)).
Proof.
  intros Hh. pose proof Hh as [Hok _].
  destruct (mem_Ref c σ Hh) as (s & c1 & σ1 & HR & Hw & Hok1 & Hperm & Hin & Hconn).
  destruct (NextSeq_spec c σ db collection id s c1 σ1 Hok HR)
    as (c' & σ' & HE & _ & Hw' & Hrel).
  assert (Hnl : is_lost (conn_of (mem σ1) s) (world σ1) = false).
  { rewrite Hconn, Hw. apply (healthy_not_lost c σ s Hh). by rewrite <- Hperm. }
  simpl in HE, Hw'. unfold find_one_and_update in HE, Hw'. rewrite Hnl in HE, Hw'.
  simpl in HE, Hw'. rewrite Hw in HE, Hw'. split.
  - intros v (doc & Hdoc & Hseq) Hint. rewrite Hdoc in HE, Hw'. simpl in HE, Hw'.
    rewrite (bson_lookup_inc_field _ _ _ _ Hseq) in HE.
    assert (((GoInt.min_int <=? v + 1) && (v + 1 <=? GoInt.max_int)) = true) as Hrange.
    { unfold GoInt.is_int in Hint. apply andb_true_iff. split; apply Z.leb_le; lia. }
    rewrite Hrange in HE. simpl in HE.
    exists c', σ'. split; [exact HE|]. split.
    + eapply healthy_released; eauto. by rewrite Hw'.
    + exists (inc_field "seq" 1 doc). rewrite Hw'. simpl.
      split; [by rewrite lookup_insert_eq|]. by apply bson_lookup_inc_field.
  - intros Hnone. rewrite Hnone in HE, Hw'. simpl in HE, Hw'.
    exists c', σ'. split; [exact HE|]. split; [|by rewrite Hw'].
    eapply healthy_released; eauto. by rewrite Hw'.
Qed.

End MemFacts.

(** * Derived operations *)

(** C7: with a handle acquired, EnsureCounter sends one InsertOne of
    [{_id: id, seq: 0}] to the named database and collection; it returns nil
    when the insert succeeds and when the driver reports a duplicate key, and
    the driver's error otherwise. On the reference driver two consecutive
    calls for the same identity both return nil, and a counter that was
    absent is then present with [seq = 0]. *)
Theorem EnsureCounter_seeds_idempotently :
  (forall (W : Type) (D : Driver W) c (σ : Machine W) db collection id s c1 σ1,
     pool_ok c σ -> Ref c σ = Ok (inl s, c1, σ1) ->
     let doc := [("_id", BString id); ("seq", BInt 0)] in
     let mc := conn_of (mem σ1) s in
     let err := (InsertOne mc db collection doc (world σ1)).1 in
     exists ret c' σ',
       EnsureCounter c db collection id σ = Ok (ret, c', σ') /\
       trace σ' = trace σ1 ++ [EvInsertOne mc db collection doc] /\
       (err = None -> ret = None) /\
       (IsDuplicateKeyError err = true -> ret = None) /\
       (IsDuplicateKeyError err = false -> ret = err)) /\
  (forall c (σ : Machine MemDriver.World) db collection id,
     healthy c σ ->
     exists c1 σ1 c2 σ2,
       EnsureCounter c db collection id σ = Ok (None, c1, σ1) /\
       EnsureCounter c1 db collection id σ1 = Ok (None, c2, σ2) /\
       (MemDriver.docs (world σ) !! (db, collection, id) = None ->
        counter_at (world σ2) db collection id 0)).
Proof.
  split.
  - intros W D c σ db collection id s c1 σ1 Hok HR doc mc err.
    destruct (EnsureCounter_spec c σ db collection id s c1 σ1 Hok HR)
      as (c' & σ' & HE & Ht & _).
    eexists _, c', σ'. split; [exact HE|]. split; [exact Ht|].
    fold doc mc err. split; [|split].
    + intros ->. by destruct (IsDuplicateKeyError None).
    + by intros ->.
    + by intros ->.
  - intros c σ db collection id Hh.
    destruct (mem_EnsureCounter c σ db collection id Hh) as (c1 & σ1 & HE1 & Hh1 & Hd1).
    destruct (mem_EnsureCounter c1 σ1 db collection id Hh1) as (c2 & σ2 & HE2 & _ & Hd2).
    exists c1, σ1, c2, σ2. split; [done|]. split; [done|].
    intros Hnone. rewrite Hnone in Hd1. rewrite Hd1, lookup_insert_eq in Hd2.
    exists [("_id", BString id); ("seq", BInt 0)].
    rewrite Hd2. by rewrite lookup_insert_eq.
Qed.

(** C8: with a handle acquired, NextSeq sends a single FindOneAndUpdate
    with filter [{_id: id}], update [{$inc: {seq: 1}}] and ReturnDocument
    After, and returns the [seq] decoded from its result together with its
    error. On the reference driver a counter at [seq = v] yields [v + 1], so
    a counter seeded at 0 yields 1, 2, 3 over three calls, and a missing
    counter yields an error. *)
Theorem NextSeq_returns_incremented :
  (forall (W : Type) (D : Driver W) c (σ : Machine W) db collection id s c1 σ1,
     pool_ok c σ -> Ref c σ = Ok (inl s, c1, σ1) ->
     let filter := [("_id", BString id)] in
     let update := [("$inc", BDoc [("seq", BInt 1)])] in
     let opts := mkFOAUOptions (Some After) in
     let mc := conn_of (mem σ1) s in
     let sr := (FindOneAndUpdate mc db collection filter update opts (world σ1)).1 in
     exists c' σ',
       NextSeq c db collection id σ = Ok ((Decode_seq sr).1, (Decode_seq sr).2, c', σ') /\
       trace σ' = trace σ1 ++ [EvFindOneAndUpdate mc db collection filter update opts]) /\
  (forall c (σ : Machine MemDriver.World) db collection id,
     healthy c σ ->
     (forall v, counter_at (world σ) db collection id v ->
        GoInt.is_int (v + 1) ->
        exists c' σ', NextSeq c db collection id σ = Ok (v + 1, None, c', σ') /\
          counter_at (world σ') db collection id (v + 1)) /\
     (counter_at (world σ) db collection id 0 ->
        exists c1 σ1 c2 σ2 c3 σ3,
          NextSeq c db collection id σ = Ok (1, None, c1, σ1) /\
          NextSeq c1 db collection id σ1 = Ok (2, None, c2, σ2) /\
          NextSeq c2 db collection id σ2 = Ok (3, None, c3, σ3)) /\
     (MemDriver.docs (world σ) !! (db, collection, id) = None ->
        exists e c' σ', NextSeq c db collection id σ = Ok (0, Some e, c', σ'))).
Proof.
  assert (Hsmall : forall v, 0 <= v <= 3 -> GoInt.is_int v).
  { intros v Hv. unfold GoInt.is_int, GoInt.min_int, GoInt.max_int. lia. }
  split.
  - intros W D c σ db collection id s c1 σ1 Hok HR filter update opts mc sr.
    destruct (NextSeq_spec c σ db collection id s c1 σ1 Hok HR)
      as (c' & σ' & HE & Ht & _).
    exists c', σ'. split; [exact HE|exact Ht].
  - intros c σ db collection id Hh.
    destruct (mem_NextSeq c σ db collection id Hh) as [Hinc Hmiss].
    split; [|split].
    + intros v Hv Hint. destruct (Hinc v Hv Hint) as (c' & σ' & HN & _ & Hc).
      by exists c', σ'.
    + intros H0.
      destruct (Hinc 0 H0 (Hsmall (0 + 1) ltac:(lia))) as (c1 & σ1 & HN1 & Hh1 & Hc1).
      destruct (mem_NextSeq c1 σ1 db collection id Hh1) as [Hinc1 _].
      destruct (Hinc1 1 Hc1 (Hsmall (1 + 1) ltac:(lia))) as (c2 & σ2 & HN2 & Hh2 & Hc2).
      destruct (mem_NextSeq c2 σ2 db collection id Hh2) as [Hinc2 _].
      destruct (Hinc2 2 Hc2 (Hsmall (2 + 1) ltac:(lia))) as (c3 & σ3 & HN3 & _).
      by exists c1, σ1, c2, σ2, c3, σ3.
    + intros Hnone. destruct (Hmiss Hnone) as (c' & σ' & HN & _).
      by exists MemDriver.ErrNoDocuments, c', σ'.
Qed.

(** C10: with a handle acquired, ensureIndex sends a single CreateOne
    whose keys are the given fields, in order, each with value 1, with
    Sparse set to true and Unique set to the given flag; EnsureIndex passes
    [false] and EnsureUniqueIndex passes [true]. *)
Theorem ensureIndex_requests_ascending_sparse {W : Type} {D : Driver W}
    c (σ : Machine W) db collection (fields : list string) (unique : bool) s c1 σ1 :
  pool_ok c σ -> Ref c σ = Ok (inl s, c1, σ1) ->
  let model := mkIndexModel (map (fun k => mkE k (BInt 1)) fields)
                            (mkIndexOptions (Some unique) (Some true)) in
  exists e c' σ',
    ensureIndex c db collection fields unique σ = Ok (e, c', σ') /\
    trace σ' = trace σ1 ++ [EvCreateOne (conn_of (mem σ1) s) db collection model] /\
    EnsureIndex c db collection fields σ = ensureIndex c db collection fields false σ /\
    EnsureUniqueIndex c db collection fields σ = ensureIndex c db collection fields true σ.
Proof.
  intros Hok HR model.
  destruct (ensureIndex_spec c σ db collection fields unique s c1 σ1 Hok HR)
    as (c' & σ' & HE & Ht & _).
  rewrite make_indexModel_spec in HE, Ht. fold model in HE, Ht.
  eexists _, c', σ'. split; [exact HE|]. split; [exact Ht|]. done.
Qed.

(** * Further properties of the heap and of the pool *)

(** ** An ordered heap is left alone *)

Lemma down_ordered_noop h i :
  wf h -> heap_ordered h -> 0 <= i < Len h -> heap.down h i (Len h) = Ok (h, false).
Proof.
  intros Hw Ho Hi. pose proof Hw as (Hv & _ & _ & Hlen).
  unfold heap.down. simpl. rewrite Z.ltb_irrefl.
  destruct (decide (2 * i + 1 <= GoInt.max_int)) as [Hfit|Hover].
  2:{ rewrite GoIntFacts.wrap_over by (unfold GoInt.max_int in *; lia).
      assert (((Len h <=? 2 * i + 1 - 2 ^ 64) || (2 * i + 1 - 2 ^ 64 <? 0)) = true) as ->;
        [|done].
      apply orb_true_iff. right. apply Z.ltb_lt. unfold GoInt.max_int in *. lia. }
  rewrite (GoIntFacts.wrap_id (2 * i + 1))
    by (unfold GoInt.is_int, GoInt.min_int, GoInt.max_int in *; lia).
  destruct (Z.leb_spec (Len h) (2 * i + 1)) as [Hout|Hin]; simpl; [done|].
  destruct (Z.ltb_spec (2 * i + 1) 0) as [?|_]; [lia|].
  rewrite (GoIntFacts.wrap_id (2 * i + 1 + 1))
    by (unfold GoInt.is_int, GoInt.min_int, GoInt.max_int in *; lia).
  assert (Hchild : forall j, 0 < j < Len h -> Order.parent j = i ->
            Less h j i = Ok false).
  { intros j Hj Hp. rewrite Less_spec by (done || lia).
    f_equal. apply Z.ltb_ge. rewrite <- Hp. by apply Ho. }
  destruct (Z.ltb_spec (2 * i + 1 + 1) (Len h)) as [H2|H2].
  - rewrite Less_spec by (done || lia). simpl.
    destruct (key h (2 * i + 1 + 1) <? key h (2 * i + 1)).
    + rewrite Hchild; [done|lia|apply OrderFacts.parent_child; lia].
    + rewrite Hchild; [done|lia|apply OrderFacts.parent_child; lia].
  - simpl. rewrite Hchild; [done|lia|apply OrderFacts.parent_child; lia].
Qed.

Lemma up_ordered_noop h j :
  wf h -> heap_ordered h -> 0 <= j < Len h -> heap.up h j = Ok h.
Proof.
  intros Hw Ho Hj. pose proof Hw as (Hv & _ & _ & Hlen).
  unfold heap.up. simpl. unfold GoInt.div.
  rewrite (GoIntFacts.wrap_id (j - 1))
    by (unfold GoInt.is_int, GoInt.min_int, GoInt.max_int in *; lia).
  destruct (decide (j = 0)) as [->|Hj0]; [done|].
  assert (Hq : Z.quot (j - 1) 2 = Order.parent j).
  { unfold Order.parent. apply Z.quot_div_nonneg; lia. }
  pose proof (OrderFacts.parent_lt j ltac:(lia)) as Hpar.
  rewrite Hq. rewrite GoIntFacts.wrap_id
    by (unfold GoInt.is_int, GoInt.min_int, GoInt.max_int in *; lia).
  destruct (Z.eqb_spec (Order.parent j) j) as [?|_]; [lia|].
  rewrite Less_spec by (done || lia). simpl.
  assert ((key h j <? key h (Order.parent j)) = false) as ->; [|done].
  apply Z.ltb_ge. apply Ho. lia.
Qed.

Lemma Fix_ordered_noop h i :
  wf h -> heap_ordered h -> 0 <= i < Len h -> heap.Fix h i = Ok h.
Proof.
  intros Hw Ho Hi. unfold heap.Fix. rewrite down_ordered_noop by done. simpl.
  by apply up_ordered_noop.
Qed.

Lemma Init_loop_ordered_noop k : forall h i,
  wf h -> heap_ordered h -> -1 <= i < Len h -> (Z.to_nat (i + 1) <= k)%nat ->
  heap.Init_loop k h i (Len h) = Ok h.
Proof.
  induction k as [|k IH]; intros h i Hw Ho Hi Hk.
  - assert (i = -1) as -> by lia. done.
  - simpl. destruct (Z.leb_spec 0 i) as [H0|H0]; [|done].
    pose proof Hw as (_ & _ & _ & Hlen).
    rewrite down_ordered_noop by (done || lia). simpl.
    rewrite GoIntFacts.wrap_id
      by (unfold GoInt.is_int, GoInt.min_int, GoInt.max_int in *; lia).
    apply IH; try done; lia.
Qed.

Lemma Init_ordered_noop h : wf h -> heap_ordered h -> heap.Init h = Ok h.
Proof.
  intros Hw Ho. unfold heap.Init. pose proof Hw as (_ & _ & _ & Hlen).
  assert (0 <= Len h) by (unfold Len; lia).
  assert (Hq : GoInt.wrap (GoInt.div (Len h) 2 - 1) = Len h / 2 - 1).
  { unfold GoInt.div. rewrite Z.quot_div_nonneg by lia.
    assert (0 <= Len h / 2 <= Len h) by (Z.div_mod_to_equations; lia).
    rewrite (GoIntFacts.wrap_id (Len h / 2))
      by (unfold GoInt.is_int, GoInt.min_int, GoInt.max_int in *; lia).
    rewrite GoIntFacts.wrap_id; [done|].
    unfold GoInt.is_int, GoInt.min_int, GoInt.max_int in *; lia. }
  rewrite Hq. apply Init_loop_ordered_noop; try done.
  - Z.div_mod_to_equations; lia.
  - unfold Len in *. Z.div_mod_to_equations; lia.
Qed.

(** ** Construction, exactly *)

Section ConstructionFacts.

Context {W : Type} `{Driver W}.

Implicit Types σ : Machine W.

Lemma new_clients_length i mcs : length (new_clients i mcs) = length mcs.
Proof. revert i. induction mcs as [|mc mcs IH]; intros i; simpl; [done|]. by rewrite IH. Qed.

Lemma new_clients_lookup mcs : forall i (k : nat) cl,
  new_clients i mcs !! k = Some cl ->
  ref cl = 0 /\ index cl = i + Z.of_nat k /\ mcs !! k = Some (conn cl).
Proof.
  induction mcs as [|mc mcs IH]; intros i k cl Hk; simpl in Hk; [done|].
  destruct k as [|k]; simpl in Hk.
  - simplify_eq. simpl. split; [done|]. split; [lia|done].
  - destruct (IH _ _ _ Hk) as (? & ? & ?). split; [done|]. split; [lia|done].
Qed.

Lemma dial_length n : forall opts (w : W),
  match dial n opts w with
  | (mcs, Some _, _) => (length mcs < n)%nat
  | (mcs, None, _) => length mcs = n
  end.
Proof.
  induction n as [|n IH]; intros opts w; simpl; [done|].
  destruct (mongo_Connect opts w) as [[mc|err] w1]; [|simpl; lia].
  specialize (IH opts w1). destruct (dial n opts w1) as [[mcs [e|]] w2]; simpl; lia.
Qed.

(** The loop of [ConnectWithTimeout] as one equation: it appends one
    [Client] per driver client obtained, records one [EvConnect] per call
    made, and stops at the first error. *)
Lemma connect_loop_exact fuel : forall i n opts hp σ,
  0 <= i <= n -> n <= GoInt.max_int -> (Z.to_nat (n - i) <= fuel)%nat ->
  connect_loop fuel i n opts hp σ =
    let '(mcs, e, w) := dial (Z.to_nat (n - i)) opts (world σ) in
    Ok (match e with
        | Some err => inr err
        | None => inl (hp ++ seq (length (mem σ)) (length mcs))
        end,
        mkMachine (mem σ ++ new_clients i mcs) w
          (trace σ ++ replicate (length mcs + failed_calls e) (EvConnect opts))).
Proof.
  induction fuel as [|fuel IH]; intros i n opts hp σ Hi Hn Hfuel.
  - assert (i = n) as -> by lia. simpl. rewrite Z.ltb_irrefl, Z.sub_diag. simpl.
    rewrite !app_nil_r. destruct σ; reflexivity.
  - simpl. destruct (Z.ltb_spec i n) as [Hlt|Hge].
    2:{ assert (i = n) as -> by lia. rewrite Z.sub_diag. simpl.
        rewrite !app_nil_r. destruct σ; reflexivity. }
    replace (Z.to_nat (n - i)) with (S (Z.to_nat (n - (i + 1)))) by lia.
    simpl. unfold call, alloc, set_mem. simpl.
    destruct (mongo_Connect opts (world σ)) as [[mc|err] w1]; simpl;
      [|by rewrite app_nil_r].
    rewrite GoIntFacts.wrap_id
      by (unfold GoInt.is_int, GoInt.min_int, GoInt.max_int in *; lia).
    rewrite IH by (simpl; lia). simpl.
    destruct (dial (Z.to_nat (n - (i + 1))) opts w1) as [[mcs e] w2]. simpl.
    rewrite <- !app_assoc. simpl. rewrite length_app. simpl.
    replace (length (mem σ) + 1)%nat with (S (length (mem σ))) by lia.
    done.
Qed.

Lemma fresh_inv_ordered i hp (m : list Client) : fresh_inv i hp m -> heap_ordered (hp, m).
Proof.
  intros (Hwf & Hlen & Hz) x Hx. unfold Len in Hx. simpl in Hx.
  pose proof (OrderFacts.parent_lt x ltac:(lia)).
  assert (Hk : forall y, 0 <= y < Z.of_nat (length hp) -> key (hp, m) y = 0).
  { intros y Hy. destruct (slice_at_in hp y Hy) as (p & Hp & _).
    destruct Hwf as (Hv & _).
    destruct (lookup_lt_is_Some_2 m p) as [c Hc].
    { apply Hv. simpl. by eapply list_elem_of_lookup_2. }
    rewrite (key_in hp m y p c) by (done || lia).
    eapply Hz; [|done]. by eapply list_elem_of_lookup_2. }
  rewrite !Hk by lia. done.
Qed.

(** [ConnectWithTimeout] as one equation. *)
Lemma ConnectWithTimeout_exact url clientNum connectTimeout timeout σ :
  GoInt.is_int clientNum ->
  let opts := SetTimeout timeout (SetConnectTimeout connectTimeout
                (ApplyURI url options_Client)) in
  let n := Z.to_nat (pool_size clientNum) in
  ConnectWithTimeout url clientNum connectTimeout timeout σ =
    let '(mcs, e, w) := dial n opts (world σ) in
    Ok (match e with
        | Some err => inr err
        | None => inl (mkCtx (seq (length (mem σ)) n) opts)
        end,
        mkMachine (mem σ ++ new_clients 0 mcs) w
          (trace σ ++ size_warning clientNum ++
           replicate (length mcs + failed_calls e) (EvConnect opts))).
Proof.
  intros Hint opts n. pose proof (pool_size_bounds clientNum Hint) as Hps.
  unfold ConnectWithTimeout. fold opts.
  set (σ0 := if clientNum <=? 0
             then log_Release "invalid clientNum, reset to %v" [100] σ else σ).
  assert (Hst : (if clientNum <=? 0
                 then (100, log_Release "invalid clientNum, reset to %v" [100] σ)
                 else (clientNum, σ)) = (pool_size clientNum, σ0)).
  { unfold pool_size, σ0. by destruct (clientNum <=? 0). }
  rewrite Hst. clear Hst.
  assert (Hσ0 : mem σ0 = mem σ /\ world σ0 = world σ /\
                trace σ0 = trace σ ++ size_warning clientNum).
  { unfold σ0, size_warning. destruct (clientNum <=? 0); simpl; [done|].
    by rewrite app_nil_r. }
  destruct Hσ0 as (Hm0 & Hw0 & Ht0).
  pose proof (connect_loop_spec (Z.to_nat (pool_size clientNum)) 0
                (pool_size clientNum) opts [] σ0) as Hspec.
  destruct Hspec as (r & σ1 & Hloop & Hpost).
  { split; [|split; [done|]].
    - split; [|split; [|split]]; simpl.
      + intros p Hp. simpl in Hp. by apply elem_of_nil in Hp.
      + apply NoDup_nil_2.
      + intros i p c Hp. done.
      + unfold Len, GoInt.max_int. simpl. lia.
    - intros p c Hp. by apply elem_of_nil in Hp. }
  { lia. } { lia. } { lia. }
  rewrite connect_loop_exact in Hloop by lia.
  rewrite connect_loop_exact by lia.
  rewrite Z.sub_0_r in *. fold n in Hloop, Hpost |- *.
  rewrite Hm0, Hw0, Ht0 in *.
  pose proof (dial_length n opts (world σ)) as Hdl.
  destruct (dial n opts (world σ)) as [[mcs e] w]. simpl in *.
  destruct Hpost as [_ Hr]. destruct e as [err|]; simpl.
  - by rewrite <- app_assoc.
  - destruct Hr as (hp & -> & Hinv). simplify_eq. simpl in *.
    rewrite Hdl in *.
    rewrite Init_ordered_noop.
    + simpl. unfold set_mem. simpl. by rewrite <- app_assoc.
    + by destruct Hinv.
    + by eapply fresh_inv_ordered.
Qed.

End ConstructionFacts.

Section ConstructionProps.

Context {W : Type} `{Driver W}.

Implicit Types σ : Machine W.


(** X2: when ConnectWithTimeout fails, it has made one Connect call per
    client established plus the failing one, and no Disconnect: the clients
    established before the failure are left in memory with their
    connections open, and fewer than the pool size were established. *)
Theorem construction_failure_leaves_connections_open url clientNum connectTimeout
    timeout σ err σ' :
  GoInt.is_int clientNum ->
  ConnectWithTimeout url clientNum connectTimeout timeout σ = Ok (inr err, σ') ->
  let opts := SetTimeout timeout (SetConnectTimeout connectTimeout
                (ApplyURI url options_Client)) in
  exists mcs evs,
    (length mcs < Z.to_nat (pool_size clientNum))%nat /\
    mem σ' = mem σ ++ new_clients 0 mcs /\
    trace σ' = trace σ ++ evs /\
    evs = size_warning clientNum ++ replicate (length mcs + 1) (EvConnect opts) /\
    List.filter is_disconnect evs = [].
Proof.
  intros Hint HC opts.
  rewrite (ConnectWithTimeout_exact url clientNum connectTimeout timeout σ Hint) in HC.
  fold opts in HC.
  pose proof (dial_length (Z.to_nat (pool_size clientNum)) opts (world σ)) as Hdl.
  destruct (dial _ opts (world σ)) as [[mcs [err'|]] w]; [|done].
  simplify_eq. simpl. exists mcs. eexists. split; [done|]. split; [done|].
  split; [done|]. split; [done|].
  rewrite List.filter_app.
  assert (List.filter is_disconnect (size_warning clientNum) = []) as ->.
  { unfold size_warning. by destruct (clientNum <=? 0). }
  simpl. induction (length mcs + 1)%nat as [|k IH]; [done|]. simpl. exact IH.
Qed.

End ConstructionProps.

(** ** Acquire and release *)

Lemma wrap_succ_pred r : GoInt.is_int r -> GoInt.wrap (GoInt.wrap (r + 1) - 1) = r.
Proof.
  unfold GoInt.is_int, GoInt.min_int, GoInt.max_int, GoInt.wrap. intros Hr.
  replace ((r + 1 + 2 ^ 63) mod 2 ^ 64 - 2 ^ 63 - 1 + 2 ^ 63)
    with ((r + 1 + 2 ^ 63) mod 2 ^ 64 - 1) by lia.
  rewrite Zminus_mod_idemp_l.
  replace (r + 1 + 2 ^ 63 - 1) with (r + 2 ^ 63) by lia.
  rewrite Z.mod_small; lia.
Qed.

Section MorePoolFacts.

Context {W : Type} `{Driver W}.

Implicit Types σ : Machine W.

#[local] Arguments UnRef : simpl never.
#[local] Arguments Ref : simpl never.

Lemma pool_root_min c σ s :
  pool_ok c σ -> clients c !! 0%nat = Some s ->
  forall q, q ∈ clients c -> ref_of (mem σ) s <= ref_of (mem σ) q.
Proof.
  intros ((Hv & _) & Ho & Hne) Hs q Hq.
  apply list_elem_of_lookup_1 in Hq as [i Hi].
  destruct (lookup_lt_is_Some_2 (mem σ) s) as [cs Hcs].
  { apply Hv. simpl. by eapply list_elem_of_lookup_2. }
  destruct (lookup_lt_is_Some_2 (mem σ) q) as [cq Hcq].
  { apply Hv. simpl. by eapply list_elem_of_lookup_2. }
  unfold ref_of. rewrite Hcs, Hcq.
  pose proof (lookup_lt_Some _ _ _ Hi) as Hlt.
  pose proof (OrderFacts.ordered_root_min _ _ (Z.of_nat i) Ho) as Hmin.
  rewrite (key_in (clients c) (mem σ) 0 s cs) in Hmin by (done || lia).
  rewrite (key_in (clients c) (mem σ) (Z.of_nat i) q cq) in Hmin
    by (try lia; try done; by rewrite Nat2Z.id).
  apply Hmin. unfold Len. simpl. lia.
Qed.

(** X3: the handle Ref returns is a client of the pool whose use count was
    the least of all; the call adds one to that count and changes no other
    use count. *)
Theorem Ref_returns_least_used c σ s c' σ' :
  pool_ok c σ -> Ref c σ = Ok (inl s, c', σ') ->
  s ∈ clients c /\
  (forall q, q ∈ clients c -> ref_of (mem σ) s <= ref_of (mem σ) q) /\
  ref_of (mem σ') s = GoInt.wrap (ref_of (mem σ) s + 1) /\
  (forall q, q <> s -> ref_of (mem σ') q = ref_of (mem σ) q).
Proof.
  intros Hok HR. destruct (Ref_refs _ _ _ _ _ Hok HR) as (_ & Hs & Hrefs).
  split; [by eapply list_elem_of_lookup_2|]. split; [by apply pool_root_min|].
  split.
  - rewrite Hrefs. by rewrite decide_True.
  - intros q Hq. rewrite Hrefs. by rewrite decide_False.
Qed.

(** What [UnRef] leaves alone. *)
Lemma UnRef_frame c s σ c' σ' :
  pool_ok c σ -> UnRef c s σ = Ok (c', σ') ->
  world σ' = world σ /\ trace σ' = trace σ /\ clientOpts c' = clientOpts c /\
  clients c' ≡ₚ clients c /\ length (mem σ') = length (mem σ) /\
  (forall q, conn_of (mem σ') q = conn_of (mem σ) q) /\
  (forall q, Some q <> s -> ref_of (mem σ') q = ref_of (mem σ) q).
Proof.
  intros Hok HU. destruct s as [p|].
  2:{ unfold UnRef in HU. by simplify_eq. }
  destruct (UnRef_refs _ _ _ _ _ Hok HU) as [_ Hrefs].
  destruct (UnRef_spec c p σ c' σ' Hok HU)
    as (cl & hp & m & Hcl & _ & -> & -> & (_ & Hp & Hf) & _).
  simpl in *. pose proof (lookup_lt_Some _ _ _ Hcl) as Hlt.
  split; [done|]. split; [done|]. split; [done|]. split; [done|].
  split; [|split].
  - rewrite (frame_length _ _ Hf). by rewrite length_insert.
  - intros q. rewrite (conn_of_frame _ _ _ Hf), conn_of_insert by done.
    destruct (decide (q = p)) as [->|]; [|done]. unfold conn_of. by rewrite Hcl.
  - intros q Hq. rewrite Hrefs. rewrite decide_False; [done|]. congruence.
Qed.

(** X4: UnRef makes no driver call and writes no diagnostic; it keeps the
    construction parameters, the set of clients in the pool, the size of the
    memory and every connection, and changes no use count but that of the
    client released. *)
Theorem UnRef_performs_no_IO c s σ c' σ' :
  pool_ok c σ -> UnRef c s σ = Ok (c', σ') ->
  world σ' = world σ /\ trace σ' = trace σ /\ clientOpts c' = clientOpts c /\
  clients c' ≡ₚ clients c /\ length (mem σ') = length (mem σ) /\
  (forall q, conn_of (mem σ') q = conn_of (mem σ) q) /\
  (forall q, Some q <> s -> ref_of (mem σ') q = ref_of (mem σ) q).
Proof. apply UnRef_frame. Qed.

(** What a successful or failed [Ref] leaves alone. *)
Lemma Ref_frame c σ r c' σ' :
  pool_ok c σ -> Ref c σ = Ok (r, c', σ') ->
  clientOpts c' = clientOpts c /\ clients c' ≡ₚ clients c /\
  length (mem σ') = length (mem σ).
Proof.
  intros Hok HR. destruct (Ref_spec c σ Hok) as (s & cl & Hs & Hcl & Hspec).
  destruct (refresh c cl (world σ)) as [[evs w] [mc|err]].
  - destruct Hspec as (hp & m & HR' & _ & (_ & Hp & Hf) & _). rewrite HR in HR'.
    simplify_eq. simpl in *. split; [done|]. split; [done|].
    rewrite (frame_length _ _ Hf). by rewrite length_insert.
  - rewrite HR in Hspec. by simplify_eq.
Qed.

(** Acquire, then release the handle acquired. *)
Lemma Ref_then_UnRef c σ s c1 σ1 (w : W) tr c2 σ2 :
  pool_ok c σ -> Ref c σ = Ok (inl s, c1, σ1) ->
  UnRef c1 (Some s) (mkMachine (mem σ1) w tr) = Ok (c2, σ2) ->
  pool_ok c2 σ2 /\ world σ2 = w /\ trace σ2 = tr /\
  clientOpts c2 = clientOpts c /\ clients c2 ≡ₚ clients c /\
  length (mem σ2) = length (mem σ) /\
  (forall q, q <> s -> ref_of (mem σ2) q = ref_of (mem σ) q) /\
  ref_of (mem σ2) s = GoInt.wrap (GoInt.wrap (ref_of (mem σ) s + 1) - 1).
Proof.
  intros Hok HR HU.
  pose proof (Ref_pool_ok _ _ _ _ _ Hok HR) as Hok1.
  assert (Hok1' : pool_ok c1 (mkMachine (mem σ1) w tr)) by (by eapply pool_ok_same_mem).
  destruct (Ref_frame _ _ _ _ _ Hok HR) as (Ho1 & Hp1 & Hl1).
  destruct (Ref_refs _ _ _ _ _ Hok HR) as (_ & _ & Hr1).
  destruct (UnRef_frame _ _ _ _ _ Hok1' HU) as (Hw & Ht & Ho2 & Hp2 & Hl2 & _ & _).
  destruct (UnRef_refs _ _ _ _ _ Hok1' HU) as [_ Hr2]. simpl in *.
  split; [by eapply UnRef_pool_ok|]. split; [done|]. split; [done|].
  split; [congruence|]. split; [by rewrite Hp2|]. split; [congruence|]. split.
  - intros q Hq. rewrite Hr2, decide_False by done. by rewrite Hr1, decide_False.
  - rewrite Hr2, decide_True by done. by rewrite Hr1, decide_True.
Qed.

(** X5: releasing the handle that Ref has just returned always succeeds and
    restores every use count (the pair is a round trip on the counts, also
    across the wrap-around of int); the release touches neither the driver
    nor the trace, and the pool holds the same clients. *)
Theorem Ref_UnRef_round_trip c σ s c1 σ1 :
  pool_ok c σ -> Ref c σ = Ok (inl s, c1, σ1) ->
  GoInt.is_int (ref_of (mem σ) s) ->
  exists c2 σ2, UnRef c1 (Some s) σ1 = Ok (c2, σ2) /\
    (forall q, ref_of (mem σ2) q = ref_of (mem σ) q) /\
    clients c2 ≡ₚ clients c /\ world σ2 = world σ1 /\ trace σ2 = trace σ1 /\
    pool_ok c2 σ2.
Proof.
  intros Hok HR Hint.
  pose proof (Ref_pool_ok _ _ _ _ _ Hok HR) as Hok1.
  pose proof (Ref_handle_in _ _ _ _ _ Hok HR) as Hin.
  destruct (UnRef_total c1 s σ1 Hok1 Hin) as (c2 & σ2 & HU).
  exists c2, σ2. split; [done|].
  assert (HU' : UnRef c1 (Some s) (mkMachine (mem σ1) (world σ1) (trace σ1)) = Ok (c2, σ2))
    by (by destruct σ1).
  destruct (Ref_then_UnRef _ _ _ _ _ _ _ _ _ Hok HR HU')
    as (Hok2 & Hw & Ht & _ & Hp & _ & Hothers & Hs).
  split; [|done]. intros q. destruct (decide (q = s)) as [->|Hne].
  - rewrite Hs. by apply wrap_succ_pred.
  - by apply Hothers.
Qed.

(** ** The derived operations borrow and give back *)

Lemma EnsureCounter_borrowed c db collection id σ e c' σ' :
  EnsureCounter c db collection id σ = Ok (e, c', σ') -> borrowed c σ c' σ'.
Proof.
  intros HE. unfold EnsureCounter in HE.
  destruct (Ref c σ) as [[[r c1] σ1]| |] eqn:HR; [|done..]. simpl in HE.
  exists r, c1, σ1. split; [done|]. destruct r as [s|err]; [|by simplify_eq].
  unfold deref, call in HE. destruct (mem σ1 !! s) as [cl|]; [|done]. simpl in HE.
  destruct (InsertOne _ _ _ _ _) as [err w]. simpl in HE.
  destruct (UnRef _ _ _) as [[c2 σ2]| |] eqn:HU; [|done..]. simpl in HE.
  simplify_eq. eauto.
Qed.

Lemma NextSeq_borrowed c db collection id σ n e c' σ' :
  NextSeq c db collection id σ = Ok (n, e, c', σ') -> borrowed c σ c' σ'.
Proof.
  intros HE. unfold NextSeq in HE.
  destruct (Ref c σ) as [[[r c1] σ1]| |] eqn:HR; [|done..]. simpl in HE.
  exists r, c1, σ1. split; [done|]. destruct r as [s|err]; [|by simplify_eq].
  unfold deref, call in HE. destruct (mem σ1 !! s) as [cl|]; [|done]. simpl in HE.
  destruct (FindOneAndUpdate _ _ _ _ _ _ _) as [sr w]. simpl in HE.
  destruct (Decode_seq sr) as [seq err].
  destruct (UnRef _ _ _) as [[c2 σ2]| |] eqn:HU; [|done..]. simpl in HE.
  simplify_eq. eauto.
Qed.

Lemma ensureIndex_borrowed c db collection fields unique σ e c' σ' :
  ensureIndex c db collection fields unique σ = Ok (e, c', σ') -> borrowed c σ c' σ'.
Proof.
  intros HE. unfold ensureIndex in HE.
  destruct (Ref c σ) as [[[r c1] σ1]| |] eqn:HR; [|done..]. simpl in HE.
  exists r, c1, σ1. split; [done|]. destruct r as [s|err]; [|by simplify_eq].
  unfold deref, call in HE. destruct (mem σ1 !! s) as [cl|]; [|done]. simpl in HE.
  destruct (Indexes_CreateOne _ _ _ _ _) as [err w]. simpl in HE.
  destruct (UnRef _ _ _) as [[c2 σ2]| |] eqn:HU; [|done..]. simpl in HE.
  simplify_eq. eauto.
Qed.

Lemma borrowed_shape c σ c' σ' :
  pool_ok c σ -> borrowed c σ c' σ' ->
  pool_ok c' σ' /\ clientOpts c' = clientOpts c /\ clients c' ≡ₚ clients c /\
  length (mem σ') = length (mem σ) /\
  (Forall (fun q => GoInt.is_int (ref_of (mem σ) q)) (clients c) ->
   forall q, ref_of (mem σ') q = ref_of (mem σ) q).
Proof.
  intros Hok (r & c1 & σ1 & HR & Hr). destruct r as [s|err].
  - destruct Hr as (w & tr & HU).
    destruct (Ref_then_UnRef _ _ _ _ _ _ _ _ _ Hok HR HU)
      as (Hok2 & _ & _ & Ho & Hp & Hl & Hothers & Hs).
    split; [done|]. split; [done|]. split; [done|]. split; [done|].
    intros Hint q. destruct (decide (q = s)) as [->|Hne]; [|by apply Hothers].
    rewrite Hs. apply wrap_succ_pred.
    rewrite Forall_forall in Hint. apply Hint.
    destruct (Ref_refs _ _ _ _ _ Hok HR) as (_ & Hs0 & _).
    by eapply list_elem_of_lookup_2.
  - destruct Hr as [-> ->]. destruct (Ref_frame _ _ _ _ _ Hok HR) as (Ho & Hp & Hl).
    split; [by eapply Ref_pool_ok|]. split; [done|]. split; [done|]. split; [done|].
    intros _ q. destruct (Ref_refs _ _ _ _ _ Hok HR) as (_ & _ & Hm). by rewrite Hm.
Qed.

(** X6: whatever the store answers, EnsureCounter, NextSeq and ensureIndex
    hand back the handle they acquired: when they return, every use count is
    what it was before the call and the pool holds the same clients. *)
Theorem derived_operations_are_balanced c σ db collection id fields unique :
  pool_ok c σ ->
  Forall (fun q => GoInt.is_int (ref_of (mem σ) q)) (clients c) ->
  (forall e c' σ', EnsureCounter c db collection id σ = Ok (e, c', σ') ->
     clients c' ≡ₚ clients c /\ forall q, ref_of (mem σ') q = ref_of (mem σ) q) /\
  (forall n e c' σ', NextSeq c db collection id σ = Ok (n, e, c', σ') ->
     clients c' ≡ₚ clients c /\ forall q, ref_of (mem σ') q = ref_of (mem σ) q) /\
  (forall e c' σ', ensureIndex c db collection fields unique σ = Ok (e, c', σ') ->
     clients c' ≡ₚ clients c /\ forall q, ref_of (mem σ') q = ref_of (mem σ) q).
Proof.
  intros Hok Hint. split; [|split].
  - intros e c' σ' HE. apply EnsureCounter_borrowed in HE.
    destruct (borrowed_shape _ _ _ _ Hok HE) as (_ & _ & Hp & _ & Hr). split; [done|].
    by apply Hr.
  - intros n e c' σ' HE. apply NextSeq_borrowed in HE.
    destruct (borrowed_shape _ _ _ _ Hok HE) as (_ & _ & Hp & _ & Hr). split; [done|].
    by apply Hr.
  - intros e c' σ' HE. apply ensureIndex_borrowed in HE.
    destruct (borrowed_shape _ _ _ _ Hok HE) as (_ & _ & Hp & _ & Hr). split; [done|].
    by apply Hr.
Qed.

Lemma step_shape k c σ c' σ' :
  pool_ok c σ -> step k c σ = Ok (c', σ') ->
  clientOpts c' = clientOpts c /\ clients c' ≡ₚ clients c /\
  length (mem σ') = length (mem σ).
Proof.
  intros Hok Hs.
  assert (Hb : borrowed c σ c' σ' ->
    clientOpts c' = clientOpts c /\ clients c' ≡ₚ clients c /\
    length (mem σ') = length (mem σ)).
  { intros Hb. by destruct (borrowed_shape _ _ _ _ Hok Hb) as (_ & ? & ? & ? & _). }
  destruct k as [|s|db collection id|db collection id|db collection fields
                |db collection fields|]; simpl in Hs.
  - destruct (Ref c σ) as [[[r c1] σ1]| |] eqn:HR; [|done..]. simpl in Hs.
    simplify_eq. by eapply Ref_frame.
  - by destruct (UnRef_frame _ _ _ _ _ Hok Hs) as (_ & _ & ? & ? & ? & _).
  - destruct (EnsureCounter _ _ _ _ _) as [[[r c1] σ1]| |] eqn:HE; [|done..].
    simpl in Hs. simplify_eq. apply Hb. by eapply EnsureCounter_borrowed.
  - destruct (NextSeq _ _ _ _ _) as [[[[n r] c1] σ1]| |] eqn:HE; [|done..].
    simpl in Hs. simplify_eq. apply Hb. by eapply NextSeq_borrowed.
  - destruct (EnsureIndex _ _ _ _ _) as [[[r c1] σ1]| |] eqn:HE; [|done..].
    simpl in Hs. simplify_eq. apply Hb. by eapply ensureIndex_borrowed.
  - destruct (EnsureUniqueIndex _ _ _ _ _) as [[[r c1] σ1]| |] eqn:HE; [|done..].
    simpl in Hs. simplify_eq. apply Hb. by eapply ensureIndex_borrowed.
  - destruct (Close c σ) as [σ1| |] eqn:HC; [|done..]. simpl in Hs. simplify_eq.
    apply Close_loop_mem in HC. by rewrite HC.
Qed.

(** X7: no method resizes the pool or allocates a client: after any
    sequence of calls the pool holds the clients it was built with (in some
    order), the same construction parameters, and memory has the same size. *)
Theorem pool_is_never_resized ks : forall c σ c' σ',
  pool_ok c σ -> run ks c σ = Ok (c', σ') ->
  clients c' ≡ₚ clients c /\ clientOpts c' = clientOpts c /\
  length (mem σ') = length (mem σ).
Proof.
  induction ks as [|k ks IH]; intros c σ c' σ' Hok Hr; simpl in Hr.
  - by simplify_eq.
  - destruct (step k c σ) as [[c1 σ1]| |] eqn:Hs; [|done..]. simpl in Hr.
    destruct (step_shape _ _ _ _ _ Hok Hs) as (Ho & Hp & Hl).
    destruct (IH c1 σ1 c' σ' (step_pool_ok _ _ _ _ _ Hok Hs) Hr) as (Hp' & Ho' & Hl').
    split; [by rewrite Hp'|]. split; congruence.
Qed.

(** X8: when the acquire inside a derived operation fails, the operation
    returns the error of the failed reconnect (NextSeq with value 0) and
    sends nothing to the store: the only driver calls are the ping, the
    disconnect and the connect of Ref, and no client has changed. *)
Theorem derived_operations_propagate_acquire_failure c σ err c1 σ1
    db collection id fields unique :
  pool_ok c σ -> Ref c σ = Ok (inr err, c1, σ1) ->
  EnsureCounter c db collection id σ = Ok (Some err, c, σ1) /\
  NextSeq c db collection id σ = Ok (0, Some err, c, σ1) /\
  ensureIndex c db collection fields unique σ = Ok (Some err, c, σ1) /\
  mem σ1 = mem σ /\
  exists mc, trace σ1 = trace σ ++ [EvPing mc; EvDisconnect mc; EvConnect (clientOpts c)].
Proof.
  intros Hok HR.
  destruct (Ref_refs _ _ _ _ _ Hok HR) as (_ & -> & Hm).
  unfold EnsureCounter, NextSeq, ensureIndex. rewrite HR. simpl.
  split; [done|]. split; [done|]. split; [done|]. split; [done|].
  destruct (Ref_spec c σ Hok) as (s & cl & Hs & Hcl & Hspec).
  unfold refresh in Hspec. exists (conn cl).
  destruct (ref cl =? 0).
  - destruct (Ping (conn cl) (world σ)) as [[e|] w1].
    + destruct (mongo_Connect _ _) as [[nc|err'] w3].
      * destruct Hspec as (hp & m & HR' & _). rewrite HR in HR'. simplify_eq.
      * rewrite HR in Hspec. by simplify_eq.
    + destruct Hspec as (hp & m & HR' & _). rewrite HR in HR'. simplify_eq.
  - destruct Hspec as (hp & m & HR' & _). rewrite HR in HR'. simplify_eq.
Qed.

(** ** Acquire-only load is spread evenly *)

Lemma Ref_spread lo c σ r c' σ' :
  pool_ok c σ -> spread_one lo c σ -> 0 <= lo -> lo + 1 < GoInt.max_int ->
  Ref c σ = Ok (r, c', σ') ->
  spread_one lo c' σ' \/ spread_one (lo + 1) c' σ'.
Proof.
  intros Hok Hsp H0 Hmax HR.
  destruct (Ref_refs _ _ _ _ _ Hok HR) as (Hp & Hr). destruct r as [s|err].
  2:{ destruct Hr as [-> Hm]. left. intros q Hq. rewrite Hm. by apply Hsp. }
  destruct Hr as [Hs Hrefs].
  assert (Hin : s ∈ clients c) by (by eapply list_elem_of_lookup_2).
  pose proof (pool_root_min c σ s Hok Hs) as Hmin.
  pose proof (Hsp s Hin) as Hbs.
  assert (Hw : GoInt.wrap (ref_of (mem σ) s + 1) = ref_of (mem σ) s + 1).
  { apply GoIntFacts.wrap_id.
    unfold GoInt.is_int, GoInt.min_int, GoInt.max_int in *. lia. }
  destruct (decide (ref_of (mem σ) s = lo)) as [Hlo|Hhi].
  - left. intros q Hq. rewrite Hp in Hq. rewrite Hrefs.
    destruct (decide (q = s)) as [->|]; [rewrite Hw; lia|by apply Hsp].
  - right. intros q Hq. rewrite Hp in Hq. rewrite Hrefs.
    destruct (decide (q = s)) as [->|]; [rewrite Hw; lia|].
    specialize (Hmin q Hq). specialize (Hsp q Hq). lia.
Qed.

Lemma step_spread lo k c σ c' σ' :
  pool_ok c σ -> spread_one lo c σ -> 0 <= lo -> lo + 1 < GoInt.max_int ->
  acquire_only k -> step k c σ = Ok (c', σ') ->
  spread_one lo c' σ' \/ spread_one (lo + 1) c' σ'.
Proof.
  intros Hok Hsp H0 Hmax Hk Hs.
  assert (Hint : Forall (fun q => GoInt.is_int (ref_of (mem σ) q)) (clients c)).
  { apply Forall_forall. intros q Hq. specialize (Hsp q Hq).
    unfold GoInt.is_int, GoInt.min_int, GoInt.max_int in *. lia. }
  assert (Hb : borrowed c σ c' σ' -> spread_one lo c' σ').
  { intros Hb. destruct (borrowed_shape _ _ _ _ Hok Hb) as (_ & _ & Hp & _ & Hr).
    intros q Hq. rewrite Hp in Hq. rewrite (Hr Hint). by apply Hsp. }
  destruct k as [|s|db collection id|db collection id|db collection fields
                |db collection fields|]; simpl in Hs.
  - destruct (Ref c σ) as [[[r c1] σ1]| |] eqn:HR; [|done..]. simpl in Hs.
    simplify_eq. by eapply Ref_spread.
  - done.
  - destruct (EnsureCounter _ _ _ _ _) as [[[r c1] σ1]| |] eqn:HE; [|done..].
    simpl in Hs. simplify_eq. left. apply Hb. by eapply EnsureCounter_borrowed.
  - destruct (NextSeq _ _ _ _ _) as [[[[n r] c1] σ1]| |] eqn:HE; [|done..].
    simpl in Hs. simplify_eq. left. apply Hb. by eapply NextSeq_borrowed.
  - destruct (EnsureIndex _ _ _ _ _) as [[[r c1] σ1]| |] eqn:HE; [|done..].
    simpl in Hs. simplify_eq. left. apply Hb. by eapply ensureIndex_borrowed.
  - destruct (EnsureUniqueIndex _ _ _ _ _) as [[[r c1] σ1]| |] eqn:HE; [|done..].
    simpl in Hs. simplify_eq. left. apply Hb. by eapply ensureIndex_borrowed.
  - destruct (Close c σ) as [σ1| |] eqn:HC; [|done..]. simpl in Hs. simplify_eq.
    apply Close_loop_mem in HC. left. intros q Hq. rewrite HC. by apply Hsp.
Qed.

Lemma run_spread ks : forall lo c σ c' σ',
  pool_ok c σ -> spread_one lo c σ -> 0 <= lo ->
  lo + 1 + Z.of_nat (length ks) < GoInt.max_int ->
  Forall acquire_only ks -> run ks c σ = Ok (c', σ') ->
  exists lo', lo <= lo' <= lo + Z.of_nat (length ks) /\ spread_one lo' c' σ'.
Proof.
  induction ks as [|k ks IH]; intros lo c σ c' σ' Hok Hsp H0 Hmax Hks Hr; simpl in *.
  - simplify_eq. exists lo. split; [lia|done].
  - apply Forall_cons in Hks as [Hk Hks].
    destruct (step k c σ) as [[c1 σ1]| |] eqn:Hs; [|done..]. simpl in Hr.
    pose proof (step_pool_ok _ _ _ _ _ Hok Hs) as Hok1.
    destruct (step_spread lo k c σ c1 σ1 Hok Hsp H0 ltac:(lia) Hk Hs) as [Hsp1|Hsp1].
    + destruct (IH lo c1 σ1 c' σ' Hok1 Hsp1 H0 ltac:(lia) Hks Hr) as (lo' & ? & ?).
      exists lo'. split; [lia|done].
    + destruct (IH (lo + 1) c1 σ1 c' σ' Hok1 Hsp1 ltac:(lia) ltac:(lia) Hks Hr)
        as (lo' & ? & ?).
      exists lo'. split; [lia|done].
Qed.

(** X9: as long as nothing is released, load stays level: from a freshly
    constructed pool, after any sequence of calls without UnRef (fewer than
    2^63 - 2 of them), the use counts of any two clients of the pool differ
    by at most one. *)
Theorem acquire_only_load_is_level url clientNum connectTimeout timeout
    (σ0 : Machine W) c σ ks c' σ' :
  GoInt.is_int clientNum ->
  ConnectWithTimeout url clientNum connectTimeout timeout σ0 = Ok (inl c, σ) ->
  Forall acquire_only ks ->
  1 + Z.of_nat (length ks) < GoInt.max_int ->
  run ks c σ = Ok (c', σ') ->
  forall p q, p ∈ clients c' -> q ∈ clients c' ->
    - 1 <= ref_of (mem σ') p - ref_of (mem σ') q <= 1.
Proof.
  intros Hint HC Hks Hlen Hrun p q Hp Hq.
  destruct (fresh_pool_ok _ _ _ _ _ _ _ Hint HC) as (Hok & _ & Hz).
  assert (Hsp : spread_one 0 c σ).
  { intros x Hx. rewrite (Hz x Hx). lia. }
  destruct (run_spread ks 0 c σ c' σ' Hok Hsp ltac:(lia) ltac:(lia) Hks Hrun)
    as (lo & _ & Hsp').
  pose proof (Hsp' p Hp). pose proof (Hsp' q Hq). lia.
Qed.

End MorePoolFacts.

(** * Push and Pop of the heap interface *)

Lemma frame_insert_index m p cl i :
  m !! p = Some cl -> frame m (<[p := set_index cl i]> m).
Proof.
  intros Hp. apply Forall2_same_length_lookup_2; [by rewrite length_insert|].
  intros k x y Hx Hy. destruct (decide (k = p)) as [->|Hne].
  - rewrite list_lookup_insert_eq in Hy by (by eapply lookup_lt_Some).
    by simplify_eq.
  - rewrite list_lookup_insert_ne in Hy by done. by simplify_eq.
Qed.

(** X10: Pop undoes Push. Pushing a client appends it to the slice and
    records its slot in its index field; the Pop that follows returns that
    client, restores the slice and leaves every field of every client as it
    was, except that the client popped now has index -1. *)
Theorem Push_Pop_round_trip hp m s cl :
  m !! s = Some cl ->
  exists m1, Push (hp, m) s = Ok (hp ++ [s], m1) /\
    index_of m1 s = Z.of_nat (length hp) /\
    Pop (hp ++ [s], m1) = Ok (s, (hp, <[s := set_index cl (-1)]> m)).
Proof.
  intros Hs. pose proof (lookup_lt_Some _ _ _ Hs) as Hlt.
  exists (<[s := set_index cl (Z.of_nat (length hp))]> m).
  unfold Push, Pop, deref, index_of. rewrite Hs. simpl.
  rewrite list_lookup_insert_eq by done. split; [done|]. split; [done|].
  rewrite length_app. simpl.
  assert (slice_at (hp ++ [s]) (Z.of_nat (length hp + 1) - 1) = Ok s) as ->.
  { apply slice_at_Ok. rewrite length_app. simpl. split; [lia|].
    replace (Z.to_nat (Z.of_nat (length hp + 1) - 1)) with (length hp) by lia.
    by rewrite lookup_app_r, Nat.sub_diag by lia. }
  simpl. rewrite list_lookup_insert_eq by done. simpl.
  rewrite list_insert_insert_eq.
  replace (Z.to_nat (Z.of_nat (length hp + 1) - 1)) with (length hp) by lia.
  by rewrite take_app_length.
Qed.

(** X11: Push keeps the slice well formed. For a client that is not yet in
    the slice, and a slice shorter than the largest int, Push succeeds, adds
    the client at the end with its index set to that slot, and rewrites no
    other field of any client. *)
Theorem Push_keeps_back_pointers hp m s :
  wf (hp, m) -> (s < length m)%nat -> s ∉ hp -> Len (hp, m) < GoInt.max_int ->
  exists m', Push (hp, m) s = Ok (hp ++ [s], m') /\ wf (hp ++ [s], m') /\
    frame m m' /\ index_of m' s = Len (hp, m) /\
    forall q, q <> s -> m' !! q = m !! q.
Proof.
  intros (Hv & Hnd & Hix & Hlen) Hs Hnin Hmax. simpl in *.
  destruct (lookup_lt_is_Some_2 m s Hs) as [cl Hcl].
  exists (<[s := set_index cl (Z.of_nat (length hp))]> m).
  unfold Push, deref, index_of, Len in *. rewrite Hcl. simpl in *.
  split; [done|]. split; [|split; [|split]].
  - split; [|split; [|split]]; simpl.
    + intros p Hp. simpl in Hp |- *. rewrite length_insert. apply elem_of_app in Hp as [Hp|Hp].
      * by apply Hv.
      * apply list_elem_of_singleton in Hp. by subst.
    + apply NoDup_app. split; [done|]. split; [|apply NoDup_singleton].
      intros x Hx Hx'. apply list_elem_of_singleton in Hx'. by subst.
    + intros i p c Hp Hc. simpl in Hp, Hc. destruct (decide (p = s)) as [->|Hne].
      * rewrite list_lookup_insert_eq in Hc by done. simplify_eq. simpl.
        destruct (decide (i < length hp)%nat) as [Hi|Hi].
        -- rewrite lookup_app_l in Hp by done. exfalso. apply Hnin.
           by eapply list_elem_of_lookup_2.
        -- pose proof (lookup_lt_Some _ _ _ Hp) as Hl. rewrite length_app in Hl.
           simpl in Hl. f_equal. lia.
      * rewrite list_lookup_insert_ne in Hc by done.
        destruct (decide (i < length hp)%nat) as [Hi|Hi].
        -- rewrite lookup_app_l in Hp by done. by eapply Hix.
        -- rewrite lookup_app_r in Hp by lia.
           apply list_lookup_singleton_Some in Hp as [_ ?]. by subst.
    + unfold Len. simpl. rewrite length_app. simpl. lia.
  - by apply frame_insert_index.
  - by rewrite list_lookup_insert_eq.
  - intros q Hq. by rewrite list_lookup_insert_ne.
Qed.

(** X12: Pop on an empty slice panics (index out of range). On a
    well-formed slice that is not empty it returns the last client, marks it
    as removed with index -1, shortens the slice by that one element and keeps
    it well formed; no other field of any client is rewritten. *)
Theorem Pop_removes_last hp m :
  wf (hp, m) ->
  match Pop (hp, m) with
  | Ok (s, (hp', m')) =>
      hp = hp' ++ [s] /\ index_of m' s = -1 /\ wf (hp', m') /\ frame m m' /\
      forall q, q <> s -> m' !! q = m !! q
  | Panic => hp = []
  | OutOfFuel => False
  end.
Proof.
  intros (Hv & Hnd & Hix & Hlen). simpl in *.
  destruct (decide (hp = [])) as [->|Hne]; [done|].
  destruct (exists_last Hne) as (hp' & s & ->).
  assert (Hs : (s < length m)%nat) by (apply Hv; simpl; set_solver).
  destruct (lookup_lt_is_Some_2 m s Hs) as [cl Hcl].
  unfold Pop. rewrite length_app. simpl.
  assert (slice_at (hp' ++ [s]) (Z.of_nat (length hp' + 1) - 1) = Ok s) as ->.
  { apply slice_at_Ok. rewrite length_app. simpl. split; [lia|].
    replace (Z.to_nat (Z.of_nat (length hp' + 1) - 1)) with (length hp') by lia.
    by rewrite lookup_app_r, Nat.sub_diag by lia. }
  unfold deref. simpl. rewrite Hcl. simpl.
  replace (Z.to_nat (Z.of_nat (length hp' + 1) - 1)) with (length hp') by lia.
  rewrite take_app_length. apply NoDup_app in Hnd as (Hnd' & Hdisj & _).
  split; [done|]. split; [|split; [|split]].
  - unfold index_of. by rewrite list_lookup_insert_eq.
  - split; [|split; [|split]]; simpl.
    + intros p Hp. simpl in Hp |- *. rewrite length_insert. apply Hv. simpl. set_solver.
    + done.
    + intros i p c Hp Hc. simpl in Hp, Hc. assert (p <> s).
      { intros ->. eapply Hdisj; [by eapply list_elem_of_lookup_2|set_solver]. }
      rewrite list_lookup_insert_ne in Hc by done.
      eapply (Hix i p c); [|done]. simpl. by apply lookup_app_l_Some.
    + unfold Len in *. simpl in *. rewrite length_app in Hlen. lia.
  - by apply frame_insert_index.
  - intros q Hq. by rewrite list_lookup_insert_ne.
Qed.

Section Removed.

Context {W : Type} `{Driver W}.

Implicit Types σ : Machine W.

Lemma Fix_minus_one h : heap.Fix h (-1) = Ok h.
Proof.
  unfold heap.Fix, heap.down, heap.up. simpl.
  change (GoInt.wrap (-1)) with (-1). change (-1 <? 0) with true.
  rewrite orb_true_r. simpl.
  change (GoInt.div (GoInt.wrap (-2)) 2) with (-1). done.
Qed.

(** X13: a client that Pop has removed (index -1) can still be released:
    UnRef decrements its use count and, since heap.Fix at -1 compares and
    swaps nothing, leaves the slice and every other client untouched. *)
Theorem UnRef_of_removed_client c s σ cl :
  mem σ !! s = Some cl -> index cl = -1 ->
  exists σ', UnRef c (Some s) σ = Ok (c, σ') /\
    mem σ' = <[s := set_ref cl (GoInt.wrap (ref cl - 1))]> (mem σ) /\
    world σ' = world σ /\ trace σ' = trace σ.
Proof.
  intros Hs Hi. pose proof (lookup_lt_Some _ _ _ Hs) as Hlt.
  unfold UnRef, deref. rewrite Hs. simpl.
  rewrite list_lookup_insert_eq by done. simpl. rewrite Hi.
  rewrite Fix_minus_one. simpl. destruct c, σ. by eexists.
Qed.

End Removed.

(** * The example program *)

Lemma ref_of_new_clients (m : Mem) mcs i p :
  (length m <= p)%nat -> ref_of (m ++ new_clients i mcs) p = 0.
Proof.
  intros Hp. unfold ref_of. rewrite lookup_app_r by done.
  destruct (new_clients i mcs !! (p - length m)%nat) as [cl|] eqn:E; [|done].
  by destruct (new_clients_lookup _ _ _ _ E).
Qed.

Section ExampleFacts.

Context {W : Type} `{Driver W} `{Deleter W}.

Implicit Types σ : Machine W.

#[local] Arguments UnRef : simpl never.
#[local] Arguments Ref : simpl never.
#[local] Arguments EnsureCounter : simpl never.
#[local] Arguments NextSeq : simpl never.
#[local] Arguments EnsureUniqueIndex : simpl never.
#[local] Arguments Close : simpl never.

Lemma EnsureCounter_total c db collection id σ :
  pool_ok c σ -> exists e c' σ', EnsureCounter c db collection id σ = Ok (e, c', σ').
Proof.
  intros Hok.
  destruct (step_total (CallEnsureCounter db collection id) c σ Hok I)
    as (c' & σ' & Hs & _).
  unfold step in Hs.
  destruct (EnsureCounter c db collection id σ) as [[[e c1] σ1]| |]; [|done..].
  eauto.
Qed.

Lemma NextSeq_total c db collection id σ :
  pool_ok c σ -> exists n e c' σ', NextSeq c db collection id σ = Ok (n, e, c', σ').
Proof.
  intros Hok.
  destruct (step_total (CallNextSeq db collection id) c σ Hok I)
    as (c' & σ' & Hs & _).
  unfold step in Hs.
  destruct (NextSeq c db collection id σ) as [[[[n e] c1] σ1]| |]; [|done..].
  eauto.
Qed.

Lemma EnsureUniqueIndex_total c db collection fields σ :
  pool_ok c σ ->
  exists e c' σ', EnsureUniqueIndex c db collection fields σ = Ok (e, c', σ').
Proof.
  intros Hok.
  destruct (step_total (CallEnsureUniqueIndex db collection fields) c σ Hok I)
    as (c' & σ' & Hs & _).
  unfold step in Hs.
  destruct (EnsureUniqueIndex c db collection fields σ) as [[[e c1] σ1]| |]; [|done..].
  eauto.
Qed.

Lemma Close_total c σ :
  pool_ok c σ -> exists σ', Close c σ = Ok σ' /\ mem σ' = mem σ.
Proof.
  intros ((Hv & _) & _). destruct (Close_loop_spec (clients c) σ) as (σ' & HC & Hm & _).
  - apply Forall_forall. intros p Hp. by apply Hv.
  - by exists σ'.
Qed.

Section Held.

Variables (s : ptr) (cs : list ptr) (m0 : Mem).

Hypothesis idle : forall q, q ∈ cs -> ref_of m0 q = 0.

Lemma holding_borrowed c σ c' σ' :
  holding s cs m0 c σ -> borrowed c σ c' σ' -> holding s cs m0 c' σ'.
Proof.
  intros (Hok & Hp & Hr) Hb.
  destruct (borrowed_shape _ _ _ _ Hok Hb) as (Hok' & _ & Hp' & _ & Hr').
  split; [done|]. split; [by rewrite Hp'|]. intros q. rewrite Hr'; [done|].
  apply Forall_forall. intros x Hx. rewrite Hr. rewrite Hp in Hx.
  unfold GoInt.is_int, GoInt.min_int, GoInt.max_int.
  destruct (decide (x = s)); [lia|]. rewrite (idle x Hx). lia.
Qed.

Lemma holding_same_mem c σ σ' :
  holding s cs m0 c σ -> mem σ' = mem σ -> holding s cs m0 c σ'.
Proof. intros (Hok & Hp & Hr) Hm. split; [by eapply pool_ok_same_mem|]. by rewrite Hm. Qed.

Lemma Example_loop_holding k : forall c σ out,
  holding s cs m0 c σ ->
  exists b c' σ' out', Example_loop k c σ out = Ok (b, c', σ', out') /\
    holding s cs m0 c' σ'.
Proof.
  induction k as [|k IH]; intros c σ out Hh; simpl.
  - by eexists _, _, _, _.
  - pose proof Hh as (Hok & _).
    destruct (NextSeq_total c "test" "counters" "test" σ Hok) as (n & e & c1 & σ1 & HN).
    rewrite HN. simpl.
    assert (Hh1 : holding s cs m0 c1 σ1).
    { eapply holding_borrowed; [exact Hh|]. by eapply NextSeq_borrowed. }
    destruct e as [e|]; [by eexists _, _, _, _|]. by apply IH.
Qed.

#[local] Arguments Example_loop : simpl never.

Lemma Example_body_holding c σ :
  holding s cs m0 c σ -> s ∈ cs ->
  exists c' σ' out, Example_body c s σ = Ok (c', σ', out) /\ holding s cs m0 c' σ'.
Proof.
  intros Hh Hs. pose proof Hh as (((Hv & _) & _) & Hp & _).
  destruct (lookup_lt_is_Some_2 (mem σ) s) as [cl Hcl].
  { apply Hv. simpl. by rewrite Hp. }
  unfold Example_body, deref. rewrite Hcl. simpl.
  destruct (DeleteOne _ _ _ _ _) as [e w].
  set (σ1 := mkMachine (mem σ) w (trace σ)).
  assert (Hh1 : holding s cs m0 c σ1) by (by eapply holding_same_mem).
  pose proof Hh1 as (Hok1 & _).
  destruct (EnsureCounter_total c "test" "counters" "test" σ1 Hok1)
    as (err & c2 & σ2 & HE).
  rewrite HE. simpl.
  assert (Hh2 : holding s cs m0 c2 σ2).
  { eapply holding_borrowed; [exact Hh1|]. by eapply EnsureCounter_borrowed. }
  destruct err as [err|]; [by eexists _, _, _|].
  destruct (Example_loop_holding 3 c2 σ2 [] Hh2) as (b & c3 & σ3 & out & HL & Hh3).
  rewrite HL. simpl. destruct b; [|by eexists _, _, _].
  pose proof Hh3 as (Hok3 & _).
  destruct (EnsureUniqueIndex_total c3 "test" "counters" ["key1"] σ3 Hok3)
    as (e4 & c4 & σ4 & HI).
  rewrite HI. simpl. eexists _, _, _. split; [done|].
  eapply holding_borrowed; [exact Hh3|]. by eapply ensureIndex_borrowed.
Qed.

End Held.

(** X14: the example never panics and never leaks its handle: against any
    driver, whatever each call answers, Example returns, and in the memory
    it leaves every client it allocated has use count 0 (so the deferred
    Close has nothing to report). *)
Theorem Example_returns_with_every_handle_released σ :
  exists σ' out, Example σ = Ok (σ', out) /\
    forall p, (length (mem σ) <= p)%nat -> ref_of (mem σ') p = 0.
Proof.
  assert (Hint : GoInt.is_int 10).
  { unfold GoInt.is_int, GoInt.min_int, GoInt.max_int. lia. }
  unfold Example, Connect.
  pose proof (ConnectWithTimeout_exact "mongodb://localhost:27017" 10
                (10 * time_Second) (5 * time_Minute) σ Hint) as HC.
  cbv zeta in HC.
  destruct (dial _ _ (world σ)) as [[mcs e] w] eqn:Hd.
  destruct (ConnectWithTimeout _ _ _ _ σ) as [[r σ1]| |] eqn:HC'; [|done..].
  injection HC as Hr Hσ1. simpl.
  assert (Hnew : forall p, (length (mem σ) <= p)%nat -> ref_of (mem σ1) p = 0).
  { intros p Hp. rewrite Hσ1. simpl. by apply ref_of_new_clients. }
  destruct e as [err|]; subst r; [by eexists _, _|].
  set (c := mkCtx _ _) in *.
  destruct (fresh_pool_ok _ _ _ _ _ _ _ Hint HC') as (Hok & _ & Hz).
  destruct (Ref_total c σ1 Hok) as (r & c2 & σ2 & HR). rewrite HR. simpl.
  pose proof (Ref_pool_ok _ _ _ _ _ Hok HR) as Hok2.
  destruct (Ref_refs _ _ _ _ _ Hok HR) as (Hp2 & Hr2).
  destruct r as [s|err].
  - destruct Hr2 as [Hs Hr2].
    assert (Hin : s ∈ clients c) by (by eapply list_elem_of_lookup_2).
    assert (Hh2 : holding s (clients c) (mem σ1) c2 σ2).
    { split; [done|]. split; [done|]. intros q. rewrite Hr2.
      destruct (decide (q = s)); [|done]. rewrite (Hz s Hin). done. }
    destruct (Example_body_holding s (clients c) (mem σ1) Hz c2 σ2 Hh2 Hin)
      as (c3 & σ3 & out & HB & (Hok3 & Hp3 & Hr3)).
    rewrite HB. simpl.
    destruct (UnRef_total c3 s σ3 Hok3) as (c4 & σ4 & HU); [by rewrite Hp3|].
    rewrite HU. simpl.
    pose proof (UnRef_pool_ok _ _ _ _ _ Hok3 HU) as Hok4.
    destruct (UnRef_refs _ _ _ _ _ Hok3 HU) as (_ & Hr4).
    destruct (Close_total c4 σ4 Hok4) as (σ5 & HCl & Hm5). rewrite HCl. simpl.
    eexists _, _. split; [done|]. intros p Hp. rewrite Hm5, Hr4.
    destruct (decide (p = s)) as [->|].
    + rewrite Hr3, decide_True by done. done.
    + rewrite Hr3, decide_False by done. by apply Hnew.
  - destruct Hr2 as [-> Hm2].
    destruct (Close_total c σ2 Hok2) as (σ5 & HCl & Hm5). rewrite HCl. simpl.
    eexists _, _. split; [done|]. intros p Hp. rewrite Hm5, Hm2. by apply Hnew.
Qed.

End ExampleFacts.

(** ** The example on the reference driver *)

Section MemExample.

Import MemDriver MemDelete.

Implicit Types σ : Machine World.

#[local] Arguments UnRef : simpl never.
#[local] Arguments Ref : simpl never.
#[local] Arguments EnsureCounter : simpl never.
#[local] Arguments NextSeq : simpl never.
#[local] Arguments EnsureUniqueIndex : simpl never.
#[local] Arguments ensureIndex : simpl never.
#[local] Arguments Close : simpl never.

Lemma mem_dial n : forall opts (w : World),
  (n <= capacity w)%nat ->
  dial n opts w =
    (seq (next_client w) n, None,
     mkWorld (next_client w + n) (capacity w - n) (lost w) (docs w) (indexes w)).
Proof.
  induction n as [|n IH]; intros opts w Hn; simpl.
  - rewrite Nat.add_0_r, Nat.sub_0_r. by destruct w.
  - unfold connect. destruct (capacity w) as [|k] eqn:Hc; [lia|].
    rewrite IH by (simpl; lia). simpl. do 3 f_equal. lia.
Qed.

(** Construction against a server with room for the pool. *)
Lemma mem_Connect url clientNum connectTimeout timeout σ :
  GoInt.is_int clientNum ->
  (Z.to_nat (pool_size clientNum) <= capacity (world σ))%nat ->
  Forall (fun mc => (mc < next_client (world σ))%nat) (lost (world σ)) ->
  exists c σ1,
    ConnectWithTimeout url clientNum connectTimeout timeout σ = Ok (inl c, σ1) /\
    healthy c σ1 /\ docs (world σ1) = docs (world σ).
Proof.
  intros Hint Hcap Hlost.
  pose proof (ConnectWithTimeout_exact url clientNum connectTimeout timeout σ Hint) as HC.
  cbv zeta in HC. rewrite mem_dial in HC by done.
  eexists _, _. split; [exact HC|].
  destruct (fresh_pool_ok _ _ _ _ _ _ _ Hint HC) as (Hok & _ & _).
  split; [|done]. split; [done|]. simpl. intros p Hp Hl.
  apply elem_of_seq in Hp as [Hp1 Hp2].
  rewrite Forall_forall in Hlost. specialize (Hlost _ Hl).
  unfold conn_of in Hlost. rewrite lookup_app_r in Hlost by done.
  destruct (new_clients 0 _ !! (p - length (mem σ))%nat) as [cl|] eqn:E.
  - destruct (new_clients_lookup _ _ _ _ E) as (_ & _ & Hk).
    apply lookup_seq in Hk as [Hk _]. lia.
  - apply lookup_ge_None in E. rewrite new_clients_length, length_seq in E. lia.
Qed.

Lemma healthy_same c σ σ' :
  healthy c σ -> mem σ' = mem σ -> lost (world σ') = lost (world σ) -> healthy c σ'.
Proof.
  intros [Hok Hl] Hm Hw. split; [by eapply pool_ok_same_mem|].
  intros p Hp. rewrite Hm, Hw. by apply Hl.
Qed.

(** [ensureIndex] on a healthy pool. *)
Lemma mem_ensureIndex c σ db collection fields unique :
  healthy c σ ->
  exists c' σ', ensureIndex c db collection fields unique σ = Ok (None, c', σ') /\
    healthy c' σ' /\ docs (world σ') = docs (world σ).
Proof.
  intros Hh. pose proof Hh as [Hok _].
  destruct (mem_Ref c σ Hh) as (s & c1 & σ1 & HR & Hw & Hok1 & Hperm & Hin & Hconn).
  destruct (ensureIndex_spec c σ db collection fields unique s c1 σ1 Hok HR)
    as (c' & σ' & HE & _ & Hw' & Hrel).
  assert (Hnl : is_lost (conn_of (mem σ1) s) (world σ1) = false).
  { rewrite Hconn, Hw. apply (healthy_not_lost c σ s Hh). by rewrite <- Hperm. }
  simpl in HE, Hw'. unfold create_index in HE, Hw'. rewrite Hnl in HE, Hw'.
  simpl in HE, Hw'. rewrite Hw in Hw'.
  exists c', σ'. split; [exact HE|]. split; [|by rewrite Hw'].
  eapply healthy_released; eauto. by rewrite Hw'.
Qed.

Lemma mem_Close_loop_docs l : forall σ σ',
  Close_loop l σ = Ok σ' -> docs (world σ') = docs (world σ).
Proof.
  induction l as [|p l IH]; intros σ σ' HC; simpl in HC; [by simplify_eq|].
  unfold deref in HC. destruct (mem σ !! p) as [cl|] eqn:Hp; [|done]. simpl in HC.
  unfold call, emit in HC. simpl in HC.
  destruct (disconnect (conn cl) (world σ)) as [e w] eqn:Hd. simpl in HC.
  rewrite Hp in HC. simpl in HC.
  assert (Hw : docs w = docs (world σ)).
  { unfold disconnect in Hd. destruct (is_lost _ _); by simplify_eq. }
  destruct (negb (ref cl =? 0)); apply IH in HC; simpl in HC; by rewrite HC.
Qed.

Lemma counter_at_docs (w w' : World) db collection id v :
  docs w' = docs w -> counter_at w db collection id v -> counter_at w' db collection id v.
Proof. unfold counter_at. by intros ->. Qed.

Lemma mem_borrowed_perm c σ c' σ' :
  pool_ok c σ -> borrowed c σ c' σ' -> clients c' ≡ₚ clients c.
Proof. intros Hok Hb. by destruct (borrowed_shape _ _ _ _ Hok Hb) as (_ & _ & ? & _). Qed.

Lemma mem_Example_loop k : forall c σ out v,
  healthy c σ -> counter_at (world σ) "test" "counters" "test" v ->
  GoInt.is_int v -> GoInt.is_int (v + Z.of_nat k) ->
  exists c' σ', Example_loop k c σ out = Ok (true, c', σ', out ++ id_lines v k) /\
    healthy c' σ' /\ clients c' ≡ₚ clients c /\
    counter_at (world σ') "test" "counters" "test" (v + Z.of_nat k).
Proof.
  induction k as [|k IH]; intros c σ out v Hh Hv Hi Hik; simpl.
  - exists c, σ. unfold id_lines. simpl. rewrite app_nil_r, Z.add_0_r. done.
  - assert (Hi1 : GoInt.is_int (v + 1)).
    { unfold GoInt.is_int, GoInt.min_int, GoInt.max_int in *. lia. }
    destruct (mem_NextSeq c σ "test" "counters" "test" Hh) as [Hinc _].
    destruct (Hinc v Hv Hi1) as (c1 & σ1 & HN & Hh1 & Hv1). rewrite HN. simpl.
    destruct (IH c1 σ1 (out ++ [LineInt (v + 1)]) (v + 1) Hh1 Hv1 Hi1)
      as (c2 & σ2 & HL & Hh2 & Hp2 & Hv2).
    { replace (v + 1 + Z.of_nat k) with (v + Z.of_nat (S k)) by lia. done. }
    exists c2, σ2. split; [|split; [done|split]].
    + rewrite HL. do 2 f_equal. rewrite <- app_assoc. f_equal.
      unfold id_lines. simpl. f_equal. rewrite <- (seq_shift k 1), map_map.
      apply map_ext. intros i. f_equal. lia.
    + rewrite Hp2. eapply mem_borrowed_perm; [by destruct Hh|].
      by eapply NextSeq_borrowed.
    + replace (v + Z.of_nat (S k)) with (v + 1 + Z.of_nat k) by lia. done.
Qed.

#[local] Arguments Example_loop : simpl never.

Lemma mem_Example_body c s σ :
  healthy c σ -> s ∈ clients c ->
  exists c' σ', Example_body c s σ = Ok (c', σ', id_lines 0 3) /\
    healthy c' σ' /\ clients c' ≡ₚ clients c /\
    counter_at (world σ') "test" "counters" "test" 3.
Proof.
  intros Hh Hs. pose proof Hh as (((Hv & _) & _) & Hl).
  destruct (lookup_lt_is_Some_2 (mem σ) s) as [cl Hcl].
  { by apply Hv. }
  assert (Hnl : is_lost (conn cl) (world σ) = false).
  { pose proof (healthy_not_lost c σ s Hh Hs) as Hn. unfold conn_of in Hn.
    by rewrite Hcl in Hn. }
  unfold Example_body, deref. rewrite Hcl. simpl.
  unfold DeleteOne, deleter, delete_one. rewrite Hnl. simpl.
  set (w1 := set_docs _ (world σ)). set (σ1 := mkMachine (mem σ) w1 (trace σ)).
  assert (Hh1 : healthy c σ1) by (by eapply healthy_same).
  destruct (mem_EnsureCounter c σ1 "test" "counters" "test" Hh1)
    as (c2 & σ2 & HE & Hh2 & Hd2).
  rewrite HE. simpl. simpl in Hd2. rewrite lookup_delete_eq in Hd2.
  assert (Hp2 : clients c2 ≡ₚ clients c).
  { eapply (mem_borrowed_perm c σ1); [by destruct Hh1|]. by eapply EnsureCounter_borrowed. }
  assert (Hv2 : counter_at (world σ2) "test" "counters" "test" 0).
  { eexists. rewrite Hd2, lookup_insert_eq. done. }
  assert (Hint : forall z, 0 <= z <= 3 -> GoInt.is_int z).
  { intros z Hz. unfold GoInt.is_int, GoInt.min_int, GoInt.max_int. lia. }
  destruct (mem_Example_loop 3 c2 σ2 [] 0 Hh2 Hv2 (Hint 0 ltac:(lia))
              (Hint (0 + 3) ltac:(lia)))
    as (c3 & σ3 & HL & Hh3 & Hp3 & Hv3).
  rewrite HL. simpl.
  destruct (mem_ensureIndex c3 σ3 "test" "counters" ["key1"] true Hh3)
    as (c4 & σ4 & HI & Hh4 & Hd4).
  unfold EnsureUniqueIndex. rewrite HI. simpl.
  exists c4, σ4. split; [done|]. split; [done|]. split.
  - rewrite <- Hp2, <- Hp3. eapply (mem_borrowed_perm c3 σ3); [by destruct Hh3|].
    by eapply ensureIndex_borrowed.
  - by eapply counter_at_docs.
Qed.

(** X15: against a reachable MongoDB (the reference driver with room for
    ten connections), whatever the database held before, the example prints
    its documented output 1, 2, 3, and leaves the counter test in
    test.counters at 3. *)
Theorem Example_prints_documented_output σ :
  (10 <= capacity (world σ))%nat ->
  Forall (fun mc => (mc < next_client (world σ))%nat) (lost (world σ)) ->
  exists σ', Example σ = Ok (σ', [LineInt 1; LineInt 2; LineInt 3]) /\
    counter_at (world σ') "test" "counters" "test" 3.
Proof.
  intros Hcap Hlost.
  assert (Hint : GoInt.is_int 10).
  { unfold GoInt.is_int, GoInt.min_int, GoInt.max_int. lia. }
  assert (Hsize : (Z.to_nat (pool_size 10) <= capacity (world σ))%nat).
  { change (Z.to_nat (pool_size 10)) with 10%nat. lia. }
  destruct (mem_Connect "mongodb://localhost:27017" 10 (10 * time_Second)
              (5 * time_Minute) σ Hint Hsize Hlost)
    as (c & σ1 & HC & Hh1 & _).
  unfold Example, Connect. rewrite HC. simpl.
  destruct (mem_Ref c σ1 Hh1) as (s & c2 & σ2 & HR & Hw2 & Hok2 & Hp2 & Hin & Hconn).
  rewrite HR. simpl.
  assert (Hh2 : healthy c2 σ2).
  { split; [done|]. intros p Hp. rewrite Hconn, Hw2. destruct Hh1 as [_ Hl].
    apply Hl. by rewrite <- Hp2. }
  destruct (mem_Example_body c2 s σ2 Hh2 Hin) as (c3 & σ3 & HB & [Hok3 _] & Hp3 & Hv3).
  rewrite HB. simpl.
  destruct (UnRef_total c3 s σ3 Hok3) as (c4 & σ4 & HU); [by rewrite Hp3|].
  rewrite HU. simpl.
  pose proof (UnRef_pool_ok _ _ _ _ _ Hok3 HU) as Hok4.
  destruct (UnRef_frame _ _ _ _ _ Hok3 HU) as (Hw4 & _).
  destruct (Close_total c4 σ4 Hok4) as (σ5 & HCl & _). rewrite HCl. simpl.
  exists σ5. split; [done|].
  eapply counter_at_docs; [|exact Hv3]. unfold Close in HCl.
  rewrite (mem_Close_loop_docs _ _ _ HCl). by rewrite Hw4.
Qed.

(** X16: EnsureCounter never resets a counter that exists: on a healthy
    pool with the counter at [v] it returns nil and leaves the counter at
    [v], so the NextSeq that follows returns [v + 1]. *)
Theorem EnsureCounter_keeps_existing_counter c σ db collection id v :
  healthy c σ -> counter_at (world σ) db collection id v -> GoInt.is_int (v + 1) ->
  exists c1 σ1 c2 σ2,
    EnsureCounter c db collection id σ = Ok (None, c1, σ1) /\
    counter_at (world σ1) db collection id v /\
    NextSeq c1 db collection id σ1 = Ok (v + 1, None, c2, σ2).
Proof.
  intros Hh Hv Hint.
  destruct (mem_EnsureCounter c σ db collection id Hh) as (c1 & σ1 & HE & Hh1 & Hd1).
  assert (Hv1 : counter_at (world σ1) db collection id v).
  { eapply counter_at_docs; [|exact Hv]. destruct Hv as (doc & Hdoc & _).
    by rewrite Hdoc in Hd1. }
  destruct (mem_NextSeq c1 σ1 db collection id Hh1) as [Hinc _].
  destruct (Hinc v Hv1 Hint) as (c2 & σ2 & HN & _).
  by exists c1, σ1, c2, σ2.
Qed.

End MemExample.

(** * The heap order, restored and kept *)

(** X17: heap.Fix repairs the heap after one use count has changed. In a
    well-formed, ordered heap, set the use count of one client to any value
    and call heap.Fix at the index that client records: the call returns, and
    the heap is ordered and well formed again, holds the same clients, and
    differs from before in index fields only (and the count that was set). *)
Theorem Fix_restores_heap_order hp m p cl r :
  wf (hp, m) -> heap_ordered (hp, m) -> m !! p = Some cl -> p ∈ hp ->
  exists hp' m', heap.Fix (hp, <[p := set_ref cl r]> m) (index cl) = Ok (hp', m') /\
    wf (hp', m') /\ heap_ordered (hp', m') /\ hp' ≡ₚ hp /\
    (forall q, ref_of m' q = if decide (q = p) then r else ref_of m q) /\
    (forall q, conn_of m' q = conn_of m q).
Proof.
  intros Hw Ho Hp Hin. pose proof (lookup_lt_Some _ _ _ Hp) as Hlt.
  destruct (Fix_touch_total hp m p cl r Hw Ho Hp Hin) as ([hp' m'] & HF).
  destruct (Fix_touch hp m p cl r (hp', m') Hw Ho Hp HF) as ((Hw' & Hperm & Hf) & Ho').
  simpl in Hperm, Hf. exists hp', m'. split; [done|]. split; [done|].
  split; [done|]. split; [done|]. split.
  - intros q. by rewrite (ref_of_frame _ _ _ Hf), ref_of_insert.
  - intros q. rewrite (conn_of_frame _ _ _ Hf), conn_of_insert by done.
    destruct (decide (q = p)) as [->|]; [|done]. unfold conn_of. by rewrite Hp.
Qed.

Section Everywhere.

Context {W : Type} `{Driver W}.

(** X18: the heap order holds at every slot, not only at the root: after
    any sequence of calls on a freshly constructed pool, the client at slot
    [i > 0] has a use count no smaller than the client at slot
    [(i - 1) / 2]. *)
Theorem heap_order_holds_at_every_slot url clientNum connectTimeout timeout
    (σ0 : Machine W) c σ ks c' σ' :
  GoInt.is_int clientNum ->
  ConnectWithTimeout url clientNum connectTimeout timeout σ0 = Ok (inl c, σ) ->
  run ks c σ = Ok (c', σ') ->
  forall (i : nat) p q, (0 < i)%nat ->
    clients c' !! i = Some q -> clients c' !! ((i - 1) / 2)%nat = Some p ->
    ref_of (mem σ') p <= ref_of (mem σ') q.
Proof.
  intros Hint HC Hrun i p q Hi Hq Hp.
  destruct (fresh_pool_ok _ _ _ _ _ _ _ Hint HC) as (Hok0 & _).
  pose proof (run_pool_ok ks c σ c' σ' Hok0 Hrun) as ((Hv & _) & Ho & _).
  destruct (lookup_lt_is_Some_2 (mem σ') p) as [cp Hcp].
  { apply Hv. simpl. by eapply list_elem_of_lookup_2. }
  destruct (lookup_lt_is_Some_2 (mem σ') q) as [cq Hcq].
  { apply Hv. simpl. by eapply list_elem_of_lookup_2. }
  pose proof (lookup_lt_Some _ _ _ Hq) as Hlt.
  specialize (Ho (Z.of_nat i)). unfold Len in Ho. simpl in Ho.
  assert (Hpar : Z.to_nat (Order.parent (Z.of_nat i)) = ((i - 1) / 2)%nat).
  { unfold Order.parent. rewrite Z2Nat.inj_div by lia.
    f_equal. lia. }
  rewrite (key_in (clients c') (mem σ') (Order.parent (Z.of_nat i)) p cp) in Ho.
  - rewrite (key_in (clients c') (mem σ') (Z.of_nat i) q cq) in Ho
      by (try lia; try done; by rewrite Nat2Z.id).
    unfold ref_of. rewrite Hcp, Hcq. apply Ho. lia.
  - unfold Order.parent. apply Z.div_pos; lia.
  - by rewrite Hpar.
  - done.
Qed.

End Everywhere.

(** * Concrete runs on the reference driver *)

Section Runs.

Import MemDriver.

Let url := "mongodb://localhost:27017".

Ltac run_eq := vm_compute; reflexivity.

Ltac small_int := unfold GoInt.is_int, GoInt.min_int, GoInt.max_int; lia.

(** A release with no acquire outstanding: the use count of the only client
    of a fresh pool goes from 0 to -1. *)
Lemma UnRef_unmatched_goes_negative :
  exists c σ c' σ',
    Connect url 1 (boot 1) = Ok (inl c, σ) /\
    clients c = [0%nat] /\ ref_of (mem σ) 0%nat = 0 /\
    UnRef c (Some 0%nat) σ = Ok (c', σ') /\
    ref_of (mem σ') 0%nat = -1 /\
    ~ (forall q, q ∈ clients c' -> 0 <= ref_of (mem σ') q).
Proof.
  eexists _, _, _, _. split; [run_eq|]. split; [run_eq|]. split; [run_eq|].
  split; [run_eq|]. split; [run_eq|].
  intros Hall. specialize (Hall 0%nat ltac:(vm_compute; apply list_elem_of_here)).
  vm_compute in Hall. by apply Hall.
Qed.

Lemma heap_root_minimal_witness :
  exists c σ c' σ',
    GoInt.is_int 3 /\
    ConnectWithTimeout url 3 (10 * time_Second) (5 * time_Minute) (boot 5)
      = Ok (inl c, σ) /\
    run [CallRef; CallRef; CallUnRef (Some 0%nat); CallRef; CallRef] c σ = Ok (c', σ') /\
    exists s0 c0, clients c' !! 0%nat = Some s0 /\ mem σ' !! s0 = Some c0 /\
      forall (i : nat) si, clients c' !! i = Some si ->
        exists ci, mem σ' !! si = Some ci /\ ref c0 <= ref ci.
Proof.
  eexists _, _, _, _. split; [small_int|]. split; [run_eq|]. split; [run_eq|].
  eapply (heap_root_minimal url 3 (10 * time_Second) (5 * time_Minute) (boot 5)
            _ _ [CallRef; CallRef; CallUnRef (Some 0%nat); CallRef; CallRef]);
    [small_int|run_eq|run_eq].
Defined.

Lemma index_matches_slot_witness :
  exists c σ c' σ',
    GoInt.is_int 3 /\
    ConnectWithTimeout url 3 (10 * time_Second) (5 * time_Minute) (boot 5)
      = Ok (inl c, σ) /\
    run [CallRef; CallRef; CallUnRef (Some 0%nat); CallRef; CallRef] c σ = Ok (c', σ') /\
    (forall (i : nat) p, clients c' !! i = Some p ->
       exists cl, mem σ' !! p = Some cl /\ index cl = Z.of_nat i) /\
    (forall h i j h', wf h -> Swap h i j = Ok h' -> index_ok h').
Proof.
  eexists _, _, _, _. split; [small_int|]. split; [run_eq|]. split; [run_eq|].
  eapply (index_matches_slot url 3 (10 * time_Second) (5 * time_Minute) (boot 5)
            _ _ [CallRef; CallRef; CallUnRef (Some 0%nat); CallRef; CallRef]);
    [small_int|run_eq|run_eq].
Defined.

Ltac matched_run :=
  repeat (split;
          [vm_compute; first [exact I | reflexivity]
          |let Hs := fresh "Hs" in
           intros ? ? Hs; vm_compute in Hs; injection Hs as <- <-]);
  exact I.

Lemma use_count_nonneg_when_matched_witness :
  exists c σ c' σ',
    GoInt.is_int 3 /\
    ConnectWithTimeout url 3 (10 * time_Second) (5 * time_Minute) (boot 5)
      = Ok (inl c, σ) /\
    Z.of_nat (length [CallRef; CallRef; CallUnRef (Some 0%nat); CallUnRef (Some 1%nat)])
      <= GoInt.max_int /\
    matched [CallRef; CallRef; CallUnRef (Some 0%nat); CallUnRef (Some 1%nat)] c σ /\
    run [CallRef; CallRef; CallUnRef (Some 0%nat); CallUnRef (Some 1%nat)] c σ
      = Ok (c', σ') /\
    forall q, q ∈ clients c' -> 0 <= ref_of (mem σ') q.
Proof.
  eexists _, _, _, _. split; [small_int|]. split; [run_eq|].
  split; [simpl; unfold GoInt.max_int; lia|]. split; [matched_run|]. split; [run_eq|].
  eapply (use_count_nonneg_when_matched url 3 (10 * time_Second) (5 * time_Minute)
            (boot 5) _ _
            [CallRef; CallRef; CallUnRef (Some 0%nat); CallUnRef (Some 1%nat)]);
    [small_int|run_eq|simpl; unfold GoInt.max_int; lia|matched_run|run_eq].
Defined.

(** The pool's only connection is closed and the server is full: the ping
    fails and so does the reconnect. *)
Lemma Ref_reconnect_failure_no_mutation_witness :
  exists c σ1 σ s cl e w1 ed w2 err w3,
    Connect url 1 (boot 1) = Ok (inl c, σ1) /\ Close c σ1 = Ok σ /\
    clients c !! 0%nat = Some s /\ mem σ !! s = Some cl /\ ref cl = 0 /\
    Ping (conn cl) (world σ) = (Some e, w1) /\
    Disconnect (conn cl) w1 = (ed, w2) /\
    mongo_Connect (clientOpts c) w2 = (inr err, w3) /\
    exists σ', Ref c σ = Ok (inr err, c, σ') /\ mem σ' = mem σ /\
      (forall p, ref_of (mem σ') p = ref_of (mem σ) p) /\
      (forall p, index_of (mem σ') p = index_of (mem σ) p).
Proof.
  eexists _, _, _, _, _, _, _, _, _, _, _.
  split; [run_eq|]. split; [run_eq|]. split; [run_eq|]. split; [run_eq|].
  split; [run_eq|]. split; [run_eq|]. split; [run_eq|]. split; [run_eq|].
  eapply Ref_reconnect_failure_no_mutation; run_eq.
Defined.

Lemma demo_pool_ok n cap c (σ : Machine World) :
  GoInt.is_int n -> Connect url n (boot cap) = Ok (inl c, σ) -> pool_ok c σ.
Proof. intros Hint HC. by destruct (fresh_pool_ok _ _ _ _ _ _ _ Hint HC). Qed.

Lemma Ref_probes_iff_idle_witness :
  exists c σ s cl,
    Connect url 3 (boot 5) = Ok (inl c, σ) /\
    pool_ok c σ /\ clients c !! 0%nat = Some s /\ mem σ !! s = Some cl /\
    exists r c' σ' evs, Ref c σ = Ok (r, c', σ') /\ trace σ' = trace σ ++ evs /\
      (existsb is_ping evs = true <-> ref cl = 0) /\
      (ref cl = 0 ->
         match Ping (conn cl) (world σ) with
         | (None, _) =>
             evs = [EvPing (conn cl)] /\ r = inl s /\ conn_of (mem σ') s = conn cl
         | (Some _, w1) =>
             evs = [EvPing (conn cl); EvDisconnect (conn cl); EvConnect (clientOpts c)] /\
             match mongo_Connect (clientOpts c) (Disconnect (conn cl) w1).2 with
             | (inl newClient, _) => r = inl s /\ conn_of (mem σ') s = newClient
             | (inr err, _) => r = inr err
             end
         end) /\
      (ref cl <> 0 ->
         evs = [] /\ world σ' = world σ /\ r = inl s /\
         heap.Fix (clients c, <[s := set_ref cl (GoInt.wrap (ref cl + 1))]> (mem σ)) 0
           = Ok (clients c', mem σ') /\
         heap_ordered (clients c', mem σ')).
Proof.
  eexists _, _, _, _. split; [run_eq|].
  split; [eapply (demo_pool_ok 3 5); [small_int|run_eq]|].
  split; [run_eq|]. split; [run_eq|].
  eapply Ref_probes_iff_idle;
    [eapply (demo_pool_ok 3 5); [small_int|run_eq]|run_eq|run_eq].
Defined.

Lemma ConnectWithTimeout_all_or_nothing_witness :
  GoInt.is_int 3 /\
  let opts := SetTimeout 7 (SetConnectTimeout 5 (ApplyURI url options_Client)) in
  exists r σ', ConnectWithTimeout url 3 5 7 (boot 2) = Ok (r, σ') /\
    match dial (Z.to_nat (pool_size 3)) opts (world (boot 2)) with
    | (_, Some err, w) => r = inr err /\ world σ' = w
    | (_, None, w) =>
        exists c, r = inl c /\ world σ' = w /\
          Z.of_nat (length (clients c)) = pool_size 3
    end.
Proof.
  split; [small_int|].
  apply (ConnectWithTimeout_all_or_nothing url 3 5 7 (boot 2)). small_int.
Defined.

Lemma Close_disconnects_every_client_witness :
  exists c0 σ0 c σ,
    Connect url 3 (boot 5) = Ok (inl c0, σ0) /\
    run [CallRef] c0 σ0 = Ok (c, σ) /\
    Forall (fun p => p < length (mem σ))%nat (clients c) /\
    exists σ', Close c σ = Ok σ' /\ mem σ' = mem σ /\
      trace σ' = trace σ ++ flat_map (close_events (mem σ)) (clients c) /\
      List.filter is_disconnect (flat_map (close_events (mem σ)) (clients c))
        = map (fun p => EvDisconnect (conn_of (mem σ) p)) (clients c) /\
      List.filter is_log_error (flat_map (close_events (mem σ)) (clients c))
        = map (fun p => EvLogError "client ref = %v" [ref_of (mem σ) p])
              (List.filter (fun p => negb (ref_of (mem σ) p =? 0)) (clients c)).
Proof.
  eexists _, _, _, _. split; [run_eq|]. split; [run_eq|].
  split; [repeat (constructor; [simpl; lia|]); constructor|].
  apply Close_disconnects_every_client.
  repeat (constructor; [simpl; lia|]); constructor.
Defined.

Lemma ensureIndex_requests_ascending_sparse_witness :
  exists c σ s c1 σ1,
    Connect url 3 (boot 5) = Ok (inl c, σ) /\
    pool_ok c σ /\ Ref c σ = Ok (inl s, c1, σ1) /\
    let model := mkIndexModel (map (fun k => mkE k (BInt 1)) ["key1"; "key2"])
                              (mkIndexOptions (Some true) (Some true)) in
    exists e c' σ',
      ensureIndex c "test" "counters" ["key1"; "key2"] true σ = Ok (e, c', σ') /\
      trace σ' = trace σ1 ++ [EvCreateOne (conn_of (mem σ1) s) "test" "counters" model] /\
      EnsureIndex c "test" "counters" ["key1"; "key2"] σ
        = ensureIndex c "test" "counters" ["key1"; "key2"] false σ /\
      EnsureUniqueIndex c "test" "counters" ["key1"; "key2"] σ
        = ensureIndex c "test" "counters" ["key1"; "key2"] true σ.
Proof.
  eexists _, _, _, _, _. split; [run_eq|].
  split; [eapply (demo_pool_ok 3 5); [small_int|run_eq]|]. split; [run_eq|].
  eapply ensureIndex_requests_ascending_sparse;
    [eapply (demo_pool_ok 3 5); [small_int|run_eq]|run_eq].
Defined.

Lemma demo_healthy n cap c (σ : Machine World) :
  GoInt.is_int n -> Connect url n (boot cap) = Ok (inl c, σ) ->
  lost (world σ) = [] -> healthy c σ.
Proof.
  intros Hint HC Hl. split; [by eapply demo_pool_ok|].
  intros p _. rewrite Hl. apply not_elem_of_nil.
Qed.

Lemma EnsureCounter_seeds_idempotently_witness :
  exists c σ s c1 σ1,
    Connect url 3 (boot 5) = Ok (inl c, σ) /\
    pool_ok c σ /\ Ref c σ = Ok (inl s, c1, σ1) /\ healthy c σ /\
    (exists ret c' σ',
       EnsureCounter c "test" "counters" "test" σ = Ok (ret, c', σ') /\
       trace σ' = trace σ1 ++
         [EvInsertOne (conn_of (mem σ1) s) "test" "counters"
            [("_id", BString "test"); ("seq", BInt 0)]]) /\
    (exists c1 σ1 c2 σ2,
       EnsureCounter c "test" "counters" "test" σ = Ok (None, c1, σ1) /\
       EnsureCounter c1 "test" "counters" "test" σ1 = Ok (None, c2, σ2) /\
       (docs (world σ) !! ("test", "counters", "test") = None ->
        counter_at (world σ2) "test" "counters" "test" 0)).
Proof.
  eexists _, _, _, _, _. split; [run_eq|].
  assert (Hok : forall c σ, Connect url 3 (boot 5) = Ok (inl c, σ) -> pool_ok c σ).
  { intros c σ HC. eapply (demo_pool_ok 3 5); [small_int|exact HC]. }
  split; [apply Hok; run_eq|]. split; [run_eq|].
  split; [eapply (demo_healthy 3 5); [small_int|run_eq|run_eq]|].
  split.
  - destruct (proj1 EnsureCounter_seeds_idempotently World driver _ _
                "test" "counters" "test" _ _ _
                (Hok _ _ ltac:(run_eq)) ltac:(run_eq))
      as (ret & c' & σ' & HE & Ht & _).
    by exists ret, c', σ'.
  - apply (proj2 EnsureCounter_seeds_idempotently).
    eapply (demo_healthy 3 5); [small_int|run_eq|run_eq].
Defined.

Lemma NextSeq_returns_incremented_witness :
  exists c0 σ0 c σ,
    Connect url 3 (boot 5) = Ok (inl c0, σ0) /\
    EnsureCounter c0 "test" "counters" "test" σ0 = Ok (None, c, σ) /\
    healthy c σ /\ counter_at (world σ) "test" "counters" "test" 0 /\
    exists c1 σ1 c2 σ2 c3 σ3,
      NextSeq c "test" "counters" "test" σ = Ok (1, None, c1, σ1) /\
      NextSeq c1 "test" "counters" "test" σ1 = Ok (2, None, c2, σ2) /\
      NextSeq c2 "test" "counters" "test" σ2 = Ok (3, None, c3, σ3).
Proof.
  eexists _, _, _, _. split; [run_eq|]. split; [run_eq|].
  assert (Hh : forall c0 σ0 c σ,
    Connect url 3 (boot 5) = Ok (inl c0, σ0) ->
    EnsureCounter c0 "test" "counters" "test" σ0 = Ok (None, c, σ) ->
    lost (world σ) = [] -> healthy c σ).
  { intros c0 σ0 c σ HC HE Hl. split.
    - eapply EnsureCounter_pool_ok; [|exact HE].
      eapply (demo_pool_ok 3 5); [small_int|exact HC].
    - intros p _. rewrite Hl. apply not_elem_of_nil. }
  split.
  { eapply Hh.
    - run_eq.
    - run_eq.
    - run_eq. }
  split.
  { eexists. split; [vm_compute; reflexivity|reflexivity]. }
  apply (proj2 NextSeq_returns_incremented _ _ "test" "counters" "test").
  - eapply Hh.
    + run_eq.
    + run_eq.
    + run_eq.
  - eexists. split; [vm_compute; reflexivity|reflexivity].
Defined.

Ltac demo_ok := eapply (demo_pool_ok 3 5); [small_int|run_eq].


Lemma construction_failure_leaves_connections_open_witness :
  exists err σ',
    GoInt.is_int 3 /\
    ConnectWithTimeout url 3 5 7 (boot 2) = Ok (inr err, σ') /\
    let opts := SetTimeout 7 (SetConnectTimeout 5 (ApplyURI url options_Client)) in
    exists mcs evs,
      (length mcs < Z.to_nat (pool_size 3))%nat /\
      mem σ' = mem (boot 2) ++ new_clients 0 mcs /\
      trace σ' = trace (boot 2) ++ evs /\
      evs = size_warning 3 ++ replicate (length mcs + 1) (EvConnect opts) /\
      List.filter is_disconnect evs = [].
Proof.
  eexists _, _. split; [small_int|]. split; [run_eq|].
  apply (construction_failure_leaves_connections_open url 3 5 7 (boot 2)
           err_server_selection); [small_int|run_eq].
Defined.

Lemma Ref_returns_least_used_witness :
  exists c0 σ0 c σ s c' σ',
    Connect url 3 (boot 5) = Ok (inl c0, σ0) /\
    run [CallRef; CallRef] c0 σ0 = Ok (c, σ) /\
    pool_ok c σ /\ Ref c σ = Ok (inl s, c', σ') /\
    s ∈ clients c /\
    (forall q, q ∈ clients c -> ref_of (mem σ) s <= ref_of (mem σ) q) /\
    ref_of (mem σ') s = GoInt.wrap (ref_of (mem σ) s + 1) /\
    (forall q, q <> s -> ref_of (mem σ') q = ref_of (mem σ) q).
Proof.
  eexists _, _, _, _, _, _, _. split; [run_eq|]. split; [run_eq|].
  assert (Hok : forall c0 σ0 c σ, Connect url 3 (boot 5) = Ok (inl c0, σ0) ->
    run [CallRef; CallRef] c0 σ0 = Ok (c, σ) -> pool_ok c σ).
  { intros c0 σ0 c σ HC Hr. eapply run_pool_ok; [|exact Hr].
    eapply (demo_pool_ok 3 5); [small_int|exact HC]. }
  split.
  { eapply Hok.
    - run_eq.
    - run_eq. }
  split; [run_eq|].
  eapply Ref_returns_least_used.
  - eapply Hok.
    + run_eq.
    + run_eq.
  - run_eq.
Defined.

Lemma UnRef_performs_no_IO_witness :
  exists c0 σ0 s c σ c' σ',
    Connect url 3 (boot 5) = Ok (inl c0, σ0) /\
    Ref c0 σ0 = Ok (inl s, c, σ) /\
    pool_ok c σ /\ UnRef c (Some s) σ = Ok (c', σ') /\
    world σ' = world σ /\ trace σ' = trace σ /\ clientOpts c' = clientOpts c /\
    clients c' ≡ₚ clients c /\ length (mem σ') = length (mem σ) /\
    (forall q, conn_of (mem σ') q = conn_of (mem σ) q) /\
    (forall q, Some q <> Some s -> ref_of (mem σ') q = ref_of (mem σ) q).
Proof.
  eexists _, _, _, _, _, _, _. split; [run_eq|]. split; [run_eq|].
  assert (Hok : forall c0 σ0 s c σ, Connect url 3 (boot 5) = Ok (inl c0, σ0) ->
    Ref c0 σ0 = Ok (inl s, c, σ) -> pool_ok c σ).
  { intros c0 σ0 s c σ HC HR. eapply Ref_pool_ok; [|exact HR].
    eapply (demo_pool_ok 3 5); [small_int|exact HC]. }
  split.
  { eapply Hok.
    - run_eq.
    - run_eq. }
  split; [run_eq|].
  eapply UnRef_performs_no_IO.
  - eapply Hok.
    + run_eq.
    + run_eq.
  - run_eq.
Defined.

Lemma Ref_UnRef_round_trip_witness :
  exists c σ s c1 σ1,
    Connect url 3 (boot 5) = Ok (inl c, σ) /\
    pool_ok c σ /\ Ref c σ = Ok (inl s, c1, σ1) /\
    GoInt.is_int (ref_of (mem σ) s) /\
    exists c2 σ2, UnRef c1 (Some s) σ1 = Ok (c2, σ2) /\
      (forall q, ref_of (mem σ2) q = ref_of (mem σ) q) /\
      clients c2 ≡ₚ clients c /\ world σ2 = world σ1 /\ trace σ2 = trace σ1 /\
      pool_ok c2 σ2.
Proof.
  eexists _, _, _, _, _. split; [run_eq|]. split; [demo_ok|].
  split; [run_eq|]. split; [vm_compute; split; discriminate|].
  eapply Ref_UnRef_round_trip.
  - demo_ok.
  - run_eq.
  - vm_compute; split; discriminate.
Defined.

Lemma derived_operations_are_balanced_witness :
  exists c σ,
    Connect url 3 (boot 5) = Ok (inl c, σ) /\
    pool_ok c σ /\
    Forall (fun q => GoInt.is_int (ref_of (mem σ) q)) (clients c) /\
    (forall e c' σ', EnsureCounter c "test" "counters" "test" σ = Ok (e, c', σ') ->
       clients c' ≡ₚ clients c /\ forall q, ref_of (mem σ') q = ref_of (mem σ) q) /\
    (forall n e c' σ', NextSeq c "test" "counters" "test" σ = Ok (n, e, c', σ') ->
       clients c' ≡ₚ clients c /\ forall q, ref_of (mem σ') q = ref_of (mem σ) q) /\
    (forall e c' σ', ensureIndex c "test" "counters" ["key1"] true σ = Ok (e, c', σ') ->
       clients c' ≡ₚ clients c /\ forall q, ref_of (mem σ') q = ref_of (mem σ) q).
Proof.
  eexists _, _. split; [run_eq|]. split; [demo_ok|].
  split; [repeat (constructor; [vm_compute; split; discriminate|]); constructor|].
  apply derived_operations_are_balanced.
  - demo_ok.
  - repeat (constructor; [vm_compute; split; discriminate|]); constructor.
Defined.

Lemma pool_is_never_resized_witness :
  exists c σ c' σ',
    Connect url 3 (boot 5) = Ok (inl c, σ) /\
    pool_ok c σ /\
    run [CallRef; CallNextSeq "test" "counters" "test"; CallUnRef (Some 0%nat); CallClose]
      c σ = Ok (c', σ') /\
    clients c' ≡ₚ clients c /\ clientOpts c' = clientOpts c /\
    length (mem σ') = length (mem σ).
Proof.
  eexists _, _, _, _. split; [run_eq|]. split; [demo_ok|]. split; [run_eq|].
  eapply (pool_is_never_resized
            [CallRef; CallNextSeq "test" "counters" "test"; CallUnRef (Some 0%nat);
             CallClose]).
  - demo_ok.
  - run_eq.
Defined.

(** The pool's only connection is closed and the server is full: the
    acquire inside each derived operation fails. *)
Lemma derived_operations_propagate_acquire_failure_witness :
  exists c σ0 σ err c1 σ1,
    Connect url 1 (boot 1) = Ok (inl c, σ0) /\ Close c σ0 = Ok σ /\
    pool_ok c σ /\ Ref c σ = Ok (inr err, c1, σ1) /\
    EnsureCounter c "test" "counters" "test" σ = Ok (Some err, c, σ1) /\
    NextSeq c "test" "counters" "test" σ = Ok (0, Some err, c, σ1) /\
    ensureIndex c "test" "counters" ["key1"] true σ = Ok (Some err, c, σ1) /\
    mem σ1 = mem σ /\
    exists mc, trace σ1 = trace σ ++ [EvPing mc; EvDisconnect mc; EvConnect (clientOpts c)].
Proof.
  eexists _, _, _, _, _, _. split; [run_eq|]. split; [run_eq|].
  assert (Hok : forall c σ0 σ, Connect url 1 (boot 1) = Ok (inl c, σ0) ->
    Close c σ0 = Ok σ -> pool_ok c σ).
  { intros c σ0 σ HC HCl. eapply pool_ok_same_mem.
    - eapply (demo_pool_ok 1 1); [small_int|exact HC].
    - by eapply Close_loop_mem. }
  split.
  { eapply Hok.
    - run_eq.
    - run_eq. }
  split; [run_eq|].
  eapply derived_operations_propagate_acquire_failure.
  - eapply Hok.
    + run_eq.
    + run_eq.
  - run_eq.
Defined.

Lemma acquire_only_load_is_level_witness :
  exists c σ c' σ',
    GoInt.is_int 3 /\
    ConnectWithTimeout url 3 (10 * time_Second) (5 * time_Minute) (boot 5)
      = Ok (inl c, σ) /\
    Forall acquire_only [CallRef; CallNextSeq "test" "counters" "test"; CallRef; CallRef;
                         CallRef] /\
    1 + Z.of_nat (length [CallRef; CallNextSeq "test" "counters" "test"; CallRef; CallRef;
                          CallRef]) < GoInt.max_int /\
    run [CallRef; CallNextSeq "test" "counters" "test"; CallRef; CallRef; CallRef] c σ
      = Ok (c', σ') /\
    forall p q, p ∈ clients c' -> q ∈ clients c' ->
      - 1 <= ref_of (mem σ') p - ref_of (mem σ') q <= 1.
Proof.
  eexists _, _, _, _. split; [small_int|]. split; [run_eq|].
  split; [repeat (constructor; [exact I|]); constructor|].
  split; [simpl; unfold GoInt.max_int; lia|]. split; [run_eq|].
  eapply (acquire_only_load_is_level url 3 (10 * time_Second) (5 * time_Minute) (boot 5)
            _ _ [CallRef; CallNextSeq "test" "counters" "test"; CallRef; CallRef; CallRef]).
  - small_int.
  - run_eq.
  - repeat (constructor; [exact I|]); constructor.
  - simpl; unfold GoInt.max_int; lia.
  - run_eq.
Defined.

Lemma Push_Pop_round_trip_witness :
  [mkClient 7 2 0; mkClient 8 0 1] !! 1%nat = Some (mkClient 8 0 1) /\
  exists m1, Push ([0%nat], [mkClient 7 2 0; mkClient 8 0 1]) 1%nat
               = Ok ([0%nat] ++ [1%nat], m1) /\
    index_of m1 1%nat = Z.of_nat (length [0%nat]) /\
    Pop ([0%nat] ++ [1%nat], m1)
      = Ok (1%nat, ([0%nat], <[1%nat := set_index (mkClient 8 0 1) (-1)]>
                               [mkClient 7 2 0; mkClient 8 0 1])).
Proof.
  split; [reflexivity|].
  apply (Push_Pop_round_trip [0%nat] [mkClient 7 2 0; mkClient 8 0 1] 1%nat
           (mkClient 8 0 1)).
  reflexivity.
Defined.

(** Two pools in one memory: the client of the first is pushed onto the
    slice of the second. *)
Lemma Push_keeps_back_pointers_witness :
  exists c1 σ1 c2 σ2,
    Connect url 1 (boot 5) = Ok (inl c1, σ1) /\
    Connect url 1 σ1 = Ok (inl c2, σ2) /\
    wf (clients c2, mem σ2) /\ (0 < length (mem σ2))%nat /\ (0%nat ∉ clients c2) /\
    Len (clients c2, mem σ2) < GoInt.max_int /\
    exists m', Push (clients c2, mem σ2) 0%nat = Ok (clients c2 ++ [0%nat], m') /\
      wf (clients c2 ++ [0%nat], m') /\
      frame (mem σ2) m' /\ index_of m' 0%nat = Len (clients c2, mem σ2) /\
      forall q, q <> 0%nat -> m' !! q = mem σ2 !! q.
Proof.
  eexists _, _, _, _. split; [run_eq|]. split; [run_eq|].
  assert (Hwf : forall c1 σ1 c2 σ2, Connect url 1 (boot 5) = Ok (inl c1, σ1) ->
    Connect url 1 σ1 = Ok (inl c2, σ2) -> wf (clients c2, mem σ2)).
  { intros c1 σ1 c2 σ2 _ HC. eapply proj1, fresh_pool_ok; [|exact HC]. small_int. }
  assert (Hnin : 0%nat ∉ [1%nat]).
  { intros [?|?]%elem_of_cons; [done|]. by eapply not_elem_of_nil. }
  split.
  { eapply Hwf.
    - run_eq.
    - run_eq. }
  split; [simpl; lia|]. split; [exact Hnin|]. split; [vm_compute; reflexivity|].
  apply Push_keeps_back_pointers.
  - eapply Hwf.
    + run_eq.
    + run_eq.
  - simpl; lia.
  - exact Hnin.
  - vm_compute; reflexivity.
Defined.

Lemma Pop_removes_last_witness :
  exists c σ,
    Connect url 3 (boot 5) = Ok (inl c, σ) /\
    wf (clients c, mem σ) /\
    match Pop (clients c, mem σ) with
    | Ok (s, (hp', m')) =>
        clients c = hp' ++ [s] /\ index_of m' s = -1 /\ wf (hp', m') /\
        frame (mem σ) m' /\ forall q, q <> s -> m' !! q = mem σ !! q
    | Panic => clients c = []
    | OutOfFuel => False
    end.
Proof.
  eexists _, _. split; [run_eq|].
  assert (Hwf : forall c σ, Connect url 3 (boot 5) = Ok (inl c, σ) ->
    wf (clients c, mem σ)).
  { intros c σ HC. eapply proj1, (demo_pool_ok 3 5); [small_int|exact HC]. }
  split; [apply Hwf; run_eq|].
  apply Pop_removes_last. apply Hwf; run_eq.
Defined.

(** A client popped from the slice of a fresh pool is released. *)
Lemma UnRef_of_removed_client_witness :
  exists c σ s hp m σm cl,
    Connect url 2 (boot 5) = Ok (inl c, σ) /\
    Pop (clients c, mem σ) = Ok (s, (hp, m)) /\
    σm = mkMachine m (world σ) (trace σ) /\
    mem σm !! s = Some cl /\ index cl = -1 /\
    exists σ', UnRef (mkCtx hp (clientOpts c)) (Some s) σm
                 = Ok (mkCtx hp (clientOpts c), σ') /\
      mem σ' = <[s := set_ref cl (GoInt.wrap (ref cl - 1))]> (mem σm) /\
      world σ' = world σm /\ trace σ' = trace σm.
Proof.
  eexists _, _, _, _, _, _, _. split; [run_eq|]. split; [run_eq|].
  split; [reflexivity|]. split; [run_eq|]. split; [run_eq|].
  apply UnRef_of_removed_client.
  - run_eq.
  - run_eq.
Defined.

Lemma Example_prints_documented_output_witness :
  (10 <= capacity (world (boot 10)))%nat /\
  Forall (fun mc => (mc < next_client (world (boot 10)))%nat) (lost (world (boot 10))) /\
  exists σ', Example (boot 10) = Ok (σ', [LineInt 1; LineInt 2; LineInt 3]) /\
    counter_at (world σ') "test" "counters" "test" 3.
Proof.
  split; [simpl; lia|]. split; [constructor|].
  apply Example_prints_documented_output; [simpl; lia|constructor].
Defined.

Lemma EnsureCounter_keeps_existing_counter_witness :
  exists c0 σ0 c σ,
    Connect url 1 (boot 1) = Ok (inl c0, σ0) /\
    EnsureCounter c0 "d" "c" "k" σ0 = Ok (None, c, σ) /\
    healthy c σ /\ counter_at (world σ) "d" "c" "k" 0 /\ GoInt.is_int (0 + 1) /\
    exists c1 σ1 c2 σ2,
      EnsureCounter c "d" "c" "k" σ = Ok (None, c1, σ1) /\
      counter_at (world σ1) "d" "c" "k" 0 /\
      NextSeq c1 "d" "c" "k" σ1 = Ok (0 + 1, None, c2, σ2).
Proof.
  eexists _, _, _, _. split; [run_eq|]. split; [run_eq|].
  assert (Hh : forall c0 σ0 c σ,
    Connect url 1 (boot 1) = Ok (inl c0, σ0) ->
    EnsureCounter c0 "d" "c" "k" σ0 = Ok (None, c, σ) ->
    lost (world σ) = [] -> healthy c σ).
  { intros c0 σ0 c σ HC HE Hl. split.
    - eapply EnsureCounter_pool_ok; [|exact HE].
      eapply (demo_pool_ok 1 1); [small_int|exact HC].
    - intros p _. rewrite Hl. apply not_elem_of_nil. }
  split.
  { eapply Hh.
    - run_eq.
    - run_eq.
    - run_eq. }
  split.
  { eexists. split; [vm_compute; reflexivity|reflexivity]. }
  split; [small_int|].
  apply EnsureCounter_keeps_existing_counter.
  - eapply Hh.
    + run_eq.
    + run_eq.
    + run_eq.
  - eexists. split; [vm_compute; reflexivity|reflexivity].
  - small_int.
Defined.

Lemma Fix_restores_heap_order_witness :
  exists c σ cl,
    Connect url 3 (boot 5) = Ok (inl c, σ) /\
    wf (clients c, mem σ) /\ heap_ordered (clients c, mem σ) /\
    mem σ !! 0%nat = Some cl /\ 0%nat ∈ clients c /\
    exists hp' m',
      heap.Fix (clients c, <[0%nat := set_ref cl 5]> (mem σ)) (index cl) = Ok (hp', m') /\
      wf (hp', m') /\ heap_ordered (hp', m') /\ hp' ≡ₚ clients c /\
      (forall q, ref_of m' q = if decide (q = 0%nat) then 5 else ref_of (mem σ) q) /\
      (forall q, conn_of m' q = conn_of (mem σ) q).
Proof.
  eexists _, _, _. split; [run_eq|].
  assert (Hok : forall c σ, Connect url 3 (boot 5) = Ok (inl c, σ) -> pool_ok c σ).
  { intros c σ HC. eapply (demo_pool_ok 3 5); [small_int|exact HC]. }
  split; [eapply proj1, Hok; run_eq|].
  split; [eapply proj1, proj2, Hok; run_eq|].
  split; [run_eq|]. split; [vm_compute; apply list_elem_of_here|].
  apply Fix_restores_heap_order.
  - eapply proj1, Hok; run_eq.
  - eapply proj1, proj2, Hok; run_eq.
  - run_eq.
  - vm_compute; apply list_elem_of_here.
Defined.

Lemma heap_order_holds_at_every_slot_witness :
  exists c σ c' σ',
    GoInt.is_int 3 /\
    ConnectWithTimeout url 3 (10 * time_Second) (5 * time_Minute) (boot 5)
      = Ok (inl c, σ) /\
    run [CallRef; CallRef; CallUnRef (Some 0%nat); CallRef] c σ = Ok (c', σ') /\
    forall (i : nat) p q, (0 < i)%nat ->
      clients c' !! i = Some q -> clients c' !! ((i - 1) / 2)%nat = Some p ->
      ref_of (mem σ') p <= ref_of (mem σ') q.
Proof.
  eexists _, _, _, _. split; [small_int|]. split; [run_eq|]. split; [run_eq|].
  eapply (heap_order_holds_at_every_slot url 3 (10 * time_Second) (5 * time_Minute)
            (boot 5) _ _ [CallRef; CallRef; CallUnRef (Some 0%nat); CallRef]);
    [small_int|run_eq|run_eq].
Defined.

End Runs.
